(** * The declaration extractor and index of mcp-whatsmeow (ast-parser.ts)

    A shallow embedding of the [AstParser] class: the line scanner
    ([extractFromContent] and its block capturers and member parsers), the
    documentation walk ([extractDocAbove]), the relevance ranker
    ([searchByContext]), the module aggregator ([summarizeModule]), the
    relationship inferrer ([getTypeHierarchy]) and the dependency analyzer
    ([analyzeDependencies]); besides these, the listing of the source files
    ([listGoFiles], over a directory tree given as data, with [path.join] a
    parameter), the lookups and views of the index ([searchType],
    [fuzzySearch], [getTypesByKind] and the like), the statistics
    ([getStatistics], [topNames]), and, of the content tools,
    [shortSignature] and the list of known modules.

    Strings are sequences of code units below 256 ([list ascii]); the
    regular expressions of the source are written as terms of a small
    regular-expression syntax and run by a backtracking matcher that follows
    the ECMAScript priorities (greedy quantifiers, leftmost alternative
    first).  [String.prototype.localeCompare] depends on the platform's
    collation and is a parameter of the functions that sort. *)

From Stdlib Require Import Ascii String.
From Stdlib Require Import List ZArith Bool Arith Lia.
From Stdlib Require Import Permutation Sorted.
Import ListNotations.

Set Implicit Arguments.

(* ================================================================== *)
(** ** Strings *)
(* ================================================================== *)

Definition str := list ascii.

(** [L "abc"] is the string literal of the source. *)
Definition L (s : string) : str := list_ascii_of_string s.

Definition code (c : ascii) : nat := nat_of_ascii c.

Definition inRange (lo hi : nat) (c : ascii) : bool :=
  (lo <=? code c) && (code c <=? hi).

Definition isUpperAZ (c : ascii) : bool := inRange 65 90 c.
Definition isLowerAZ (c : ascii) : bool := inRange 97 122 c.
Definition isDigit (c : ascii) : bool := inRange 48 57 c.
Definition isAlpha (c : ascii) : bool := isUpperAZ c || isLowerAZ c.
Definition isUnderscore (c : ascii) : bool := code c =? 95.

(** [\w] *)
Definition isWord (c : ascii) : bool := isAlpha c || isDigit c || isUnderscore c.

(** [\s], and the characters [trim] removes: TAB, LF, VT, FF, CR, space and
    the no-break space. *)
Definition isSpace (c : ascii) : bool :=
  inRange 9 13 c || (code c =? 32) || (code c =? 160).

(** [.] matches everything but the line terminators. *)
Definition isLineTerminator (c : ascii) : bool := (code c =? 10) || (code c =? 13).
Definition isDot (c : ascii) : bool := negb (isLineTerminator c).

Definition isChar (a : ascii) (c : ascii) : bool := Ascii.eqb a c.

Definition LF : ascii := ascii_of_nat 10.
Definition CR : ascii := ascii_of_nat 13.
Definition DQUOTE : ascii := ascii_of_nat 34.

Arguments inRange : simpl never.
Arguments isUpperAZ : simpl never.
Arguments isAlpha : simpl never.
Arguments isDigit : simpl never.
Arguments isUnderscore : simpl never.
Arguments isWord : simpl never.
Arguments isSpace : simpl never.
Arguments isDot : simpl never.
Arguments isChar : simpl never.

(** [String.prototype.toLowerCase] on code units below 256: the ASCII capitals
    and the Latin-1 capitals (192 to 222 but the multiplication sign 215). *)
Definition lowerChar (c : ascii) : ascii :=
  if isUpperAZ c || (inRange 192 222 c && negb (code c =? 215))
  then ascii_of_nat (code c + 32) else c.

Definition toLowerCase (s : str) : str := map lowerChar s.

Fixpoint dropWhile (A : Type) (p : A -> bool) (s : list A) : list A :=
  match s with
  | [] => []
  | c :: s' => if p c then dropWhile p s' else s
  end.

Fixpoint takeWhile (A : Type) (p : A -> bool) (s : list A) : list A :=
  match s with
  | [] => []
  | c :: s' => if p c then c :: takeWhile p s' else []
  end.

(** [String.prototype.trim] *)
Definition trim (s : str) : str :=
  rev (dropWhile isSpace (rev (dropWhile isSpace s))).

Fixpoint str_eqb (a b : str) : bool :=
  match a, b with
  | [], [] => true
  | x :: a', y :: b' => Ascii.eqb x y && str_eqb a' b'
  | _, _ => false
  end.

Fixpoint startsWith (s p : str) : bool :=
  match p, s with
  | [], _ => true
  | x :: p', y :: s' => Ascii.eqb x y && startsWith s' p'
  | _ :: _, [] => false
  end.

Definition endsWith (s p : str) : bool := startsWith (rev s) (rev p).

(** [String.prototype.includes] *)
Fixpoint includes (s t : str) : bool :=
  startsWith s t ||
  match s with
  | [] => false
  | _ :: s' => includes s' t
  end.

(** [Array.prototype.join] *)
Fixpoint join (sep : str) (l : list str) : str :=
  match l with
  | [] => []
  | [x] => x
  | x :: l' => x ++ sep ++ join sep l'
  end.

(** [split(/\r?\n/)]: [cur] is the piece being read, in reverse. *)
Fixpoint splitLinesAux (cur : str) (s : str) : list str :=
  match s with
  | [] => [rev cur]
  | c :: s' =>
      if isChar LF c then rev cur :: splitLinesAux [] s'
      else if isChar CR c then
        match s' with
        | d :: s'' =>
            if isChar LF d then rev cur :: splitLinesAux [] s''
            else splitLinesAux (c :: cur) s'
        | [] => splitLinesAux (c :: cur) s'
        end
      else splitLinesAux (c :: cur) s'
  end.

Definition splitLines (s : str) : list str := splitLinesAux [] s.

(** [split(/\s+/)]: a maximal run of white space is one separator; [inSep]
    says that the character before was white space. *)
Fixpoint splitSpacesAux (inSep : bool) (cur : str) (s : str) : list str :=
  match s with
  | [] => [rev cur]
  | c :: s' =>
      if isSpace c then
        if inSep then splitSpacesAux true [] s'
        else rev cur :: splitSpacesAux true [] s'
      else splitSpacesAux false (c :: cur) s'
  end.

Definition splitSpaces (s : str) : list str := splitSpacesAux false [] s.

(** [split(',')] and [split('/')] *)
Fixpoint splitCharAux (sep : ascii) (cur : str) (s : str) : list str :=
  match s with
  | [] => [rev cur]
  | c :: s' =>
      if isChar sep c then rev cur :: splitCharAux sep [] s'
      else splitCharAux sep (c :: cur) s'
  end.

Definition splitChar (sep : ascii) (s : str) : list str := splitCharAux sep [] s.

(** A string is truthy when it is not empty: [filter(Boolean)], [!line],
    [x || y]. *)
Definition truthy (s : str) : bool :=
  match s with [] => false | _ => true end.

(* ================================================================== *)
(** ** Regular expressions *)
(* ================================================================== *)

Inductive regex : Type :=
| RClass (p : ascii -> bool)      (* one character of a class *)
| REmpty
| RSeq (r1 r2 : regex)
| RAlt (r1 r2 : regex)            (* r1 is tried first *)
| RStar (r : regex)               (* greedy *)
| RGroup (n : nat) (r : regex)    (* capture group n *)
| RBol                            (* ^ *)
| REol                            (* $ *)
| RWordB.                         (* \b *)

Definition RPlus (r : regex) : regex := RSeq r (RStar r).
Definition ROpt (r : regex) : regex := RAlt r REmpty.

Fixpoint RLit (s : str) : regex :=
  match s with
  | [] => REmpty
  | c :: s' => RSeq (RClass (isChar c)) (RLit s')
  end.

Fixpoint RCat (l : list regex) : regex :=
  match l with
  | [] => REmpty
  | r :: l' => RSeq r (RCat l')
  end.

(** The captures of a match: group number to captured text. *)
Definition captures := list (nat * str).

Fixpoint capture (n : nat) (c : captures) : option str :=
  match c with
  | [] => None
  | (m, s) :: c' => if n =? m then Some s else capture n c'
  end.

Definition isWordOpt (c : option ascii) : bool :=
  match c with Some x => isWord x | None => false end.

(** [rmatch r prev s c k] matches [r] at the head of [s]; [prev] is the
    character before the position.  [k] is the rest of the pattern: it
    receives the character before the new position, the text that is left and
    the captures, and a failure of [k] makes the matcher try its next choice. *)
Fixpoint rmatch (A : Type) (r : regex) (prev : option ascii) (s : str) (c : captures)
  (k : option ascii -> str -> captures -> option A) {struct r} : option A :=
  match r with
  | RClass p =>
      match s with
      | x :: s' => if p x then k (Some x) s' c else None
      | [] => None
      end
  | REmpty => k prev s c
  | RSeq r1 r2 =>
      rmatch r1 prev s c (fun prev' s' c' => rmatch r2 prev' s' c' k)
  | RAlt r1 r2 =>
      match rmatch r1 prev s c k with
      | Some x => Some x
      | None => rmatch r2 prev s c k
      end
  | RStar r1 =>
      (fix star (fuel : nat) (prev : option ascii) (s : str) (c : captures) : option A :=
         match fuel with
         | O => k prev s c
         | S fuel' =>
             match rmatch r1 prev s c
                     (fun prev' s' c' =>
                        if length s' <? length s then star fuel' prev' s' c' else None) with
             | Some x => Some x
             | None => k prev s c
             end
         end) (S (length s)) prev s c
  | RGroup n r1 =>
      rmatch r1 prev s c
        (fun prev' s' c' => k prev' s' ((n, firstn (length s - length s') s) :: c'))
  | RBol => match prev with None => k prev s c | Some _ => None end
  | REol => match s with [] => k prev s c | _ :: _ => None end
  | RWordB =>
      if xorb (isWordOpt prev) (isWordOpt (hd_error s)) then k prev s c else None
  end.

(** A match at the very start of the text: what the patterns anchored by [^]
    need.  The result is the captures and the text after the match. *)
Definition matchStart (r : regex) (s : str) : option (captures * str) :=
  rmatch r None s [] (fun _ s' c => Some (c, s')).

(** [String.prototype.match] and [RegExp.prototype.test] for an anchored
    pattern. *)
Definition rxMatch (r : regex) (s : str) : option captures :=
  option_map fst (matchStart r s).

Definition rxTest (r : regex) (s : str) : bool :=
  match matchStart r s with Some _ => true | None => false end.

(** Group [n] of a match; a group that did not take part is [undefined],
    which the callers below only meet where the text is then empty. *)
Definition group (n : nat) (c : captures) : str :=
  match capture n c with Some s => s | None => [] end.

(** The leftmost match of [r] in [s], for the patterns without [^]: the text
    before the match and the text after it. *)
Fixpoint searchFrom (r : regex) (prev : option ascii) (before : str) (s : str)
  : option (str * str) :=
  match rmatch r prev s [] (fun _ s' _ => Some s') with
  | Some rest => Some (rev before, rest)
  | None =>
      match s with
      | [] => None
      | x :: s' => searchFrom r (Some x) (x :: before) s'
      end
  end.

(** [s.replace(r, '')] for a pattern without the global flag. *)
Definition rxRemove (r : regex) (s : str) : str :=
  match searchFrom r None [] s with
  | Some (before, rest) => before ++ rest
  | None => s
  end.

(** Shorthands for the pieces the source's patterns are made of. *)
Definition ws : regex := RClass isSpace.                       (* \s *)
Definition word : regex := RClass isWord.                      (* \w *)
Definition dot : regex := RClass isDot.                        (* . *)
Definition lit (s : string) : regex := RLit (L s).
Definition notChar (s : string) : regex :=                     (* [^c] *)
  RClass (fun c => negb (existsb (fun a => isChar a c) (L s))).
Definition exportedIdent : regex :=                            (* [A-Z]\w* *)
  RSeq (RClass isUpperAZ) (RStar word).
Definition ident : regex :=                                    (* [A-Za-z_]\w* *)
  RSeq (RClass (fun c => isAlpha c || isUnderscore c)) (RStar word).

(* ================================================================== *)
(** ** Data model *)
(* ================================================================== *)

Inductive ExtractedKind : Type :=
| K_interface | K_struct | K_type | K_function | K_method | K_const | K_variable.

(** The string a kind is in the source. *)
Definition kindName (k : ExtractedKind) : str :=
  match k with
  | K_interface => L "interface"
  | K_struct => L "struct"
  | K_type => L "type"
  | K_function => L "function"
  | K_method => L "method"
  | K_const => L "const"
  | K_variable => L "variable"
  end.

Definition kind_eqb (a b : ExtractedKind) : bool :=
  match a, b with
  | K_interface, K_interface | K_struct, K_struct | K_type, K_type
  | K_function, K_function | K_method, K_method | K_const, K_const
  | K_variable, K_variable => true
  | _, _ => false
  end.

Record PropertyInfo : Type := {
  p_name : str;
  p_type : str;
  p_optional : bool;
  p_readonly : bool;
  p_isMethod : bool;
  p_isCallSignature : bool;
  p_isIndexSignature : bool;
  p_parameters : option (list str);
  p_returnType : option str
}.

Record ExtractedType : Type := {
  name : str;
  kind : ExtractedKind;
  exported : bool;
  file : str;
  module : str;
  signature : str;
  fullSignature : option str;
  properties : option (list PropertyInfo);
  methods : option (list PropertyInfo);
  docs : option str;
  value : option str;
  lineNumber : option nat
}.

(** [x || undefined] on a string. *)
Definition orUndefined (s : str) : option str :=
  if truthy s then Some s else None.

(** [x || y] where [x] may be undefined. *)
Definition orElse (x : option str) (y : str) : str :=
  match x with
  | Some s => if truthy s then s else y
  | None => y
  end.

(* ================================================================== *)
(** ** Documentation above a declaration *)
(* ================================================================== *)

Definition R_lineCommentStart : regex := RCat [RBol; lit "//"; ROpt ws].
Definition R_blockCommentStart : regex := RCat [RBol; lit "/"; RPlus (lit "*"); ROpt ws].
Definition R_starStart : regex := RCat [RBol; lit "*"; ROpt ws].
Definition R_blockCommentEnd : regex := RCat [lit "*/"; REol].

Definition isBlockCommentLine (trimmed : str) : bool :=
  endsWith trimmed (L "*/") || startsWith trimmed (L "/*") || startsWith trimmed (L "*").

(** The [while (cursor >= 0)] loop of [extractDocAbove]; [n] is [cursor + 1]
    and [docs] the array the loop unshifts onto. *)
Fixpoint docWalk (lines : list str) (n : nat) (docs : list str) : list str :=
  match n with
  | O => docs
  | S cursor =>
      let raw := nth cursor lines [] in
      let trimmed := trim raw in
      if negb (truthy trimmed) then
        if length docs =? 0 then docWalk lines cursor docs else docs
      else if startsWith trimmed (L "//") then
        docWalk lines cursor (rxRemove R_lineCommentStart trimmed :: docs)
      else if isBlockCommentLine trimmed then
        docWalk lines cursor
          (trim (rxRemove R_blockCommentEnd
                   (rxRemove R_starStart (rxRemove R_blockCommentStart trimmed))) :: docs)
      else docs
  end.

Definition extractDocAbove (lines : list str) (lineIndex : nat) : option str :=
  let docs := docWalk lines lineIndex [] in
  orUndefined (trim (join (L " ") docs)).

(* ================================================================== *)
(** ** Balanced blocks *)
(* ================================================================== *)

Record Block : Type := { text : str; endLine : nat }.

(** The inner [for (const char of line)] loop of the two capturers. *)
Definition countDelims (open close : ascii) (line : str) (st : Z * bool) : Z * bool :=
  fold_left
    (fun (st : Z * bool) (char : ascii) =>
       if isChar open char then (fst st + 1, true)%Z
       else if isChar close char then (fst st - 1, snd st)%Z
       else st)
    line st.

(** The outer loop: [rest] are the lines from [index] on.  The result is the
    chunk, the index of the line where the balance came back to zero, and
    whether it did ([None] when the input ended first). *)
Fixpoint captureLoop (open close : ascii) (rest : list str) (index : nat)
  (st : Z * bool) (chunk : list str) : list str * option nat :=
  match rest with
  | [] => (chunk, None)
  | line :: rest' =>
      let chunk' := chunk ++ [line] in
      let st' := countDelims open close line st in
      if snd st' && (fst st' =? 0)%Z then (chunk', Some index)
      else captureLoop open close rest' (S index) st' chunk'
  end.

Definition captureDelimited (open close : ascii) (lines : list str) (startLine : nat) : Block :=
  match captureLoop open close (skipn startLine lines) startLine (0%Z, false) [] with
  | (chunk, Some index) => {| text := join [LF] chunk; endLine := index |}
  | (chunk, None) => {| text := join [LF] chunk; endLine := length lines - 1 |}
  end.

Definition captureBracedBlock : list str -> nat -> Block := captureDelimited "{"%char "}"%char.
Definition captureParenBlock : list str -> nat -> Block := captureDelimited "("%char ")"%char.

(** [captureFunctionSignature]: [offset] is [index - startLine]. *)
Fixpoint signatureLoop (rest : list str) (offset : nat) (parenBalance : Z) (chunk : list str)
  : list str :=
  match rest with
  | [] => chunk
  | line :: rest' =>
      let chunk' := chunk ++ [trim line] in
      let parenBalance' :=
        fold_left
          (fun (b : Z) (char : ascii) =>
             let b1 := if isChar "("%char char then (b + 1)%Z else b in
             if isChar ")"%char char then (b1 - 1)%Z else b1)
          line parenBalance in
      if includes line (L "{") then chunk'
      else if (parenBalance' <=? 0)%Z && endsWith (trim line) (L ")") then chunk'
      else if 12 <? offset then chunk'
      else signatureLoop rest' (S offset) parenBalance' chunk'
  end.

Definition captureFunctionSignature (lines : list str) (startLine : nat) : str :=
  join (L " ") (signatureLoop (skipn startLine lines) 0 0%Z []).

(* ================================================================== *)
(** ** Member parsers *)
(* ================================================================== *)

(** [lines.slice(1, -1)] *)
Definition interior (A : Type) (lines : list A) : list A := removelast (tl lines).

Definition R_interfaceMethod : regex :=
  RCat [RBol; RGroup 1 ident; RStar ws; lit "("; RGroup 2 (RStar dot); lit ")";
        RStar ws; RGroup 3 (RStar dot); REol].

Definition parseInterfaceMethods (blockText : str) : list PropertyInfo :=
  flat_map
    (fun line =>
       let trimmed := trim line in
       if negb (truthy trimmed) || startsWith trimmed (L "//") then []
       else
         match rxMatch R_interfaceMethod trimmed with
         | None => []
         | Some methodMatch =>
             [ {| p_name := group 1 methodMatch;
                  p_type := orElse (Some (group 3 methodMatch)) (L "void");
                  p_optional := false;
                  p_readonly := false;
                  p_isMethod := true;
                  p_isCallSignature := false;
                  p_isIndexSignature := false;
                  p_parameters :=
                    Some (filter truthy (map trim (splitChar ","%char (group 2 methodMatch))));
                  p_returnType := Some (orElse (Some (group 3 methodMatch)) (L "void")) |} ]
         end)
    (interior (splitLines blockText)).

Definition R_trailingComment : regex := RCat [RStar ws; lit "//"; RStar dot; REol].
Definition R_structField : regex :=
  RCat [RBol; RGroup 1 ident; RPlus ws; RGroup 2 (RPlus dot); REol].

Definition parseStructFields (blockText : str) : list PropertyInfo :=
  flat_map
    (fun line =>
       let cleaned := trim (rxRemove R_trailingComment line) in
       if negb (truthy cleaned) then []
       else
         match rxMatch R_structField cleaned with
         | None => []
         | Some fieldMatch =>
             [ {| p_name := group 1 fieldMatch;
                  p_type := trim (group 2 fieldMatch);
                  p_optional := false;
                  p_readonly := false;
                  p_isMethod := false;
                  p_isCallSignature := false;
                  p_isIndexSignature := false;
                  p_parameters := None;
                  p_returnType := None |} ]
         end)
    (interior (splitLines blockText)).

Record BlockMember : Type := {
  m_name : str;
  m_signature : str;
  m_value : option str;
  m_lineNumber : nat
}.

Definition R_blockMember : regex :=
  RCat [RBol; RGroup 1 ident; RWordB; RGroup 2 (RStar dot); REol].

(** The body of the loop of [parseConstVarBlockMembers] at [index]. *)
Definition parseBlockMemberAt (lines : list str) (index : nat) : list BlockMember :=
  let raw := nth index lines [] in
  let line := trim (rxRemove R_trailingComment raw) in
  if negb (truthy line) then []
  else
    match rxMatch R_blockMember line with
    | None => []
    | Some m =>
        [ {| m_name := group 1 m;
             m_signature := line;
             m_value := orUndefined (trim (group 2 m));
             m_lineNumber := index + 1 |} ]
    end.

(** [for (let index = 1; index < lines.length - 1; index++)] *)
Definition parseConstVarBlockMembers (blockText : str) : list BlockMember :=
  let lines := splitLines blockText in
  flat_map (parseBlockMemberAt lines) (seq 1 (length lines - 2)).

Definition firstLine (text : str) : str := trim (hd [] (splitLines text)).

(* ================================================================== *)
(** ** The declaration scanner *)
(* ================================================================== *)

Definition R_interface : regex :=
  RCat [RBol; lit "type"; RPlus ws; RGroup 1 exportedIdent; RPlus ws; lit "interface";
        RStar ws; lit "{"].
Definition R_struct : regex :=
  RCat [RBol; lit "type"; RPlus ws; RGroup 1 exportedIdent; RPlus ws; lit "struct";
        RStar ws; lit "{"].
Definition R_type : regex :=
  RCat [RBol; lit "type"; RPlus ws; RGroup 1 exportedIdent; RStar ws;
        ROpt (RGroup 2 (lit "=")); RStar ws; RGroup 3 (RPlus dot); REol].
Definition R_method : regex :=
  RCat [RBol; lit "func"; RStar ws; lit "("; RGroup 1 (RPlus (notChar ")")); lit ")";
        RStar ws; RGroup 2 exportedIdent; RStar ws; lit "("].
Definition R_function : regex :=
  RCat [RBol; lit "func"; RPlus ws; RGroup 1 exportedIdent; RStar ws; lit "("].
Definition R_constBlock : regex := RCat [RBol; lit "const"; RStar ws; lit "("].
Definition R_varBlock : regex := RCat [RBol; lit "var"; RStar ws; lit "("].
Definition R_constSingle : regex :=
  RCat [RBol; lit "const"; RPlus ws; RGroup 1 exportedIdent; RWordB; RGroup 2 (RStar dot); REol].
Definition R_varSingle : regex :=
  RCat [RBol; lit "var"; RPlus ws; RGroup 1 exportedIdent; RWordB; RGroup 2 (RStar dot); REol].
Definition R_capitalStart : regex := RCat [RBol; RClass isUpperAZ].

(** [getModuleName] on the path relative to the repository root. *)
Definition getModuleName (relative : str) : str :=
  let parts := splitChar "/"%char relative in
  if 1 <? length parts then hd [] parts else L "root".

Section Scanner.

(** The two values [extractFromContent] computes from [filePath]. *)
Variable relativeFile : str.
Variable moduleName : str.

Definition declaration (n : str) (k : ExtractedKind) (sig : str) (full : option str)
  (props meths : option (list PropertyInfo)) (d v : option str) (ln : nat) : ExtractedType :=
  {| name := n; kind := k; exported := true; file := relativeFile; module := moduleName;
     signature := sig; fullSignature := full; properties := props; methods := meths;
     docs := d; value := v; lineNumber := Some ln |}.

(** The members of a grouped block that become declarations of kind [k]. *)
Definition blockDeclarations (k : ExtractedKind) (docs : option str) (blockText : str)
  : list ExtractedType :=
  flat_map
    (fun member =>
       if negb (rxTest R_capitalStart (m_name member)) then []
       else [ declaration (m_name member) k (m_signature member) None None None
                docs (m_value member) (m_lineNumber member) ])
    (parseConstVarBlockMembers blockText).

(** One turn of the [for] loop of [extractFromContent]: the declarations it
    pushes and the value of [index] when the turn ends (before [index++]). *)
Definition scanLine (lines : list str) (index : nat) : list ExtractedType * nat :=
  let line := trim (nth index lines []) in
  if negb (truthy line) then ([], index)
  else
    let docs := extractDocAbove lines index in
    match rxMatch R_interface line with
    | Some interfaceMatch =>
        let block := captureBracedBlock lines index in
        let methods := parseInterfaceMethods (text block) in
        ([ declaration (group 1 interfaceMatch) K_interface (firstLine (text block))
             (Some (text block)) None (Some methods) docs None (index + 1) ],
         endLine block)
    | None =>
    match rxMatch R_struct line with
    | Some structMatch =>
        let block := captureBracedBlock lines index in
        let properties := parseStructFields (text block) in
        ([ declaration (group 1 structMatch) K_struct (firstLine (text block))
             (Some (text block)) (Some properties) None docs None (index + 1) ],
         endLine block)
    | None =>
    match (if negb (includes line (L "interface{")) && negb (includes line (L "struct{"))
           then rxMatch R_type line else None) with
    | Some typeMatch =>
        ([ declaration (group 1 typeMatch) K_type line None None None docs
             (Some (trim (group 3 typeMatch))) (index + 1) ], index)
    | None =>
    match rxMatch R_method line with
    | Some methodMatch =>
        let signature := captureFunctionSignature lines index in
        ([ declaration (group 2 methodMatch) K_method signature None None None docs None
             (index + 1) ], index)
    | None =>
    match rxMatch R_function line with
    | Some functionMatch =>
        let signature := captureFunctionSignature lines index in
        ([ declaration (group 1 functionMatch) K_function signature None None None docs None
             (index + 1) ], index)
    | None =>
    if rxTest R_constBlock line then
      let block := captureParenBlock lines index in
      (blockDeclarations K_const docs (text block), endLine block)
    else if rxTest R_varBlock line then
      let block := captureParenBlock lines index in
      (blockDeclarations K_variable docs (text block), endLine block)
    else
    match rxMatch R_constSingle line with
    | Some constSingle =>
        ([ declaration (group 1 constSingle) K_const line None None None docs
             (orUndefined (trim (group 2 constSingle))) (index + 1) ], index)
    | None =>
    match rxMatch R_varSingle line with
    | Some varSingle =>
        ([ declaration (group 1 varSingle) K_variable line None None None docs
             (orUndefined (trim (group 2 varSingle))) (index + 1) ], index)
    | None => ([], index)
    end end end end end end end.

(** The [for] loop: a turn at [index] is followed by one at the index the
    turn ended with, plus one.  [fuel] bounds the number of turns. *)
Fixpoint scanLoop (fuel : nat) (lines : list str) (index : nat) : list ExtractedType :=
  match fuel with
  | O => []
  | S fuel' =>
      if index <? length lines then
        let (pushed, index') := scanLine lines index in
        pushed ++ scanLoop fuel' lines (S index')
      else []
  end.

Definition extractFromLines (lines : list str) : list ExtractedType :=
  scanLoop (length lines) lines 0.

End Scanner.

(** [extractFromContent], with the relative path of the file in place of
    [filePath]. *)
Definition extractFromContent (relativeFile : str) (content : str) : list ExtractedType :=
  extractFromLines relativeFile (getModuleName relativeFile) (splitLines content).

(** A source tree: the files [listGoFiles] returns, each with its path relative
    to the repository root and its content. *)
Definition SourceTree := list (str * str).

(** The scan of every file: what [extractAllTypes] computes when the object
    has no cache yet. *)
Definition extractAllTypes (files : SourceTree) : list ExtractedType :=
  flat_map (fun f => extractFromContent (fst f) (snd f)) files.

(** [extractAllTypes] with the field [cachedTypes] of the object: the
    declarations it returns and the cache it leaves.  The operations on the
    index below take the declarations it returned as [all]. *)
Definition extractAllTypesCached (cachedTypes : option (list ExtractedType))
  (files : SourceTree) : list ExtractedType * option (list ExtractedType) :=
  match cachedTypes with
  | Some cached => (cached, cachedTypes)
  | None => (extractAllTypes files, Some (extractAllTypes files))
  end.

(* ================================================================== *)
(** ** Arrays, sets and maps of the platform *)
(* ================================================================== *)

Section Sort.

Variable A : Type.

(** The comparator given to [Array.prototype.sort]: negative when the first
    argument goes first. *)
Variable compareFn : A -> A -> Z.

Fixpoint insertSorted (x : A) (l : list A) : list A :=
  match l with
  | [] => [x]
  | y :: l' => if (compareFn x y <=? 0)%Z then x :: l else y :: insertSorted x l'
  end.

(** [Array.prototype.sort] is stable; for a consistent comparator its result
    is this one: each element goes before the first later element that does
    not go before it. *)
Definition sortBy (l : list A) : list A := fold_right insertSorted [] l.

End Sort.

(** [slice(0, Math.max(1, n))] *)
Definition sliceMax1 (A : Type) (n : Z) (l : list A) : list A :=
  firstn (Z.to_nat (Z.max 1 n)) l.

(** A [Set] of strings keeps its elements in insertion order. *)
Definition setHas (s : list str) (x : str) : bool := existsb (str_eqb x) s.
Definition setAdd (s : list str) (x : str) : list str :=
  if setHas s x then s else s ++ [x].

(** [new Set(array)] *)
Definition newSet (l : list str) : list str := fold_left setAdd l [].

(** A [Map] with string keys keeps its entries in insertion order. *)
Fixpoint mapGet (V : Type) (m : list (str * V)) (key : str) : option V :=
  match m with
  | [] => None
  | (k, v) :: m' => if str_eqb k key then Some v else mapGet m' key
  end.

Fixpoint mapSet (V : Type) (m : list (str * V)) (key : str) (v : V) : list (str * V) :=
  match m with
  | [] => [(key, v)]
  | (k, w) :: m' => if str_eqb k key then (k, v) :: m' else (k, w) :: mapSet m' key v
  end.

Definition mapHas (V : Type) (m : list (str * V)) (key : str) : bool :=
  match mapGet m key with Some _ => true | None => false end.

(* ================================================================== *)
(** ** The declaration index *)
(* ================================================================== *)

Definition searchType (all : list ExtractedType) (n : str) : option ExtractedType :=
  let lowerName := toLowerCase n in
  match find (fun t => str_eqb (name t) n) all with
  | Some exact => Some exact
  | None => find (fun t => str_eqb (toLowerCase (name t)) lowerName) all
  end.

Definition getTypesFromModule (all : list ExtractedType) (moduleName : str) : list ExtractedType :=
  filter (fun t => str_eqb (toLowerCase (module t)) (toLowerCase moduleName)) all.

(** [type.docs] as a condition, and [type.docs || ''] *)
Definition docsText (t : ExtractedType) : str := orElse (docs t) [].

(* ================================================================== *)
(** ** Relevance ranking *)
(* ================================================================== *)

Record RankedTypeResult : Type := {
  r_type : ExtractedType;
  score : Z;
  matchedIn : list str
}.

(** The seven signals of the ranker, each with the weight it adds and the
    label it pushes. *)
Inductive Signal : Type :=
| NameExact | NameSub | SignatureSub | DocsSub | FileSub | ModuleSub | KindSub.

Definition weight (s : Signal) : Z :=
  match s with
  | NameExact => 25
  | NameSub => 12
  | SignatureSub => 6
  | DocsSub => 5
  | FileSub => 4
  | ModuleSub => 5
  | KindSub => 4
  end.

Definition label (s : Signal) : str :=
  match s with
  | NameExact => L "name-exact"
  | NameSub => L "name"
  | SignatureSub => L "signature"
  | DocsSub => L "docs"
  | FileSub => L "file"
  | ModuleSub => L "module"
  | KindSub => L "kind"
  end.

(** The state of the loop over the terms: [score] and [matchedIn]. *)
Definition Tally := (Z * list str)%type.

(** [if (cond) { score += weight; matchedIn.push(label) }] *)
Definition hit (cond : bool) (s : Signal) (st : Tally) : Tally :=
  if cond then ((fst st + weight s)%Z, snd st ++ [label s]) else st.

(** The body of [for (const term of terms)]. *)
Definition scoreTerm (t : ExtractedType) (st : Tally) (term : str) : Tally :=
  let name := toLowerCase (name t) in
  let signature := toLowerCase (signature t) in
  let docs := toLowerCase (docsText t) in
  let file := toLowerCase (file t) in
  let module := toLowerCase (module t) in
  let kind := toLowerCase (kindName (kind t)) in
  if str_eqb name term then hit true NameExact st
  else
    hit (includes kind term) KindSub
      (hit (includes module term) ModuleSub
         (hit (includes file term) FileSub
            (hit (includes docs term) DocsSub
               (hit (includes signature term) SignatureSub
                  (hit (includes name term) NameSub st))))).

Definition queryTerms (query : str) : list str :=
  filter truthy (splitSpaces (trim (toLowerCase query))).

(** The body of [for (const type of types)]: the entry pushed on [ranked], if
    any. *)
Definition rankType (terms : list str) (t : ExtractedType) : list RankedTypeResult :=
  let st := fold_left (scoreTerm t) terms (0%Z, []) in
  if (length terms =? 0) || (0 <? fst st)%Z
  then [ {| r_type := t; score := fst st; matchedIn := newSet (snd st) |} ]
  else [].

(** [filters?.module] and [filters?.kind] *)
Record SearchFilters : Type := {
  f_module : option str;
  f_kind : option ExtractedKind
}.

Definition noFilters : SearchFilters := {| f_module := None; f_kind := None |}.

Definition applyFilters (filters : SearchFilters) (types : list ExtractedType)
  : list ExtractedType :=
  let types1 :=
    match f_module filters with
    | Some m =>
        if truthy m
        then filter (fun t => str_eqb (toLowerCase (module t)) (toLowerCase m)) types
        else types
    | None => types
    end in
  match f_kind filters with
  | Some k => filter (fun t => kind_eqb (kind t) k) types1
  | None => types1
  end.

Section Collation.

(** [String.prototype.localeCompare]: negative, zero or positive. *)
Variable localeCompare : str -> str -> Z.

Definition compareRanked (left right : RankedTypeResult) : Z :=
  if negb (score right =? score left)%Z then (score right - score left)%Z
  else localeCompare (name (r_type left)) (name (r_type right)).

Definition searchByContext (all : list ExtractedType) (query : str) (limit : Z)
  (filters : SearchFilters) : list RankedTypeResult :=
  let terms := queryTerms query in
  let types := applyFilters filters all in
  let ranked := flat_map (rankType terms) types in
  sliceMax1 limit (sortBy compareRanked ranked).

(* ---------------------------------------------------------------- *)
(** *** Module summaries *)

Record ModuleSummary : Type := {
  s_module : str;
  total : nat;
  byKind : ExtractedKind -> nat;
  files : list str;
  highlights : list ExtractedType
}.

Definition highlightScore (t : ExtractedType) : Z :=
  let s0 := 0%Z in
  let s1 := if truthy (docsText t) then (s0 + 2)%Z else s0 in
  let s2 := if kind_eqb (kind t) K_function || kind_eqb (kind t) K_method
            then (s1 + 4)%Z else s1 in
  let s3 := if kind_eqb (kind t) K_interface || kind_eqb (kind t) K_struct
            then (s2 + 3)%Z else s2 in
  if length (name t) <=? 24 then (s3 + 1)%Z else s3.

Definition compareHighlights (left right : ExtractedType) : Z :=
  let leftScore := highlightScore left in
  let rightScore := highlightScore right in
  if negb (rightScore =? leftScore)%Z then (rightScore - leftScore)%Z
  else localeCompare (name left) (name right).

Definition summarizeModule (all : list ExtractedType) (moduleName : str) (highlightCount : Z)
  : ModuleSummary :=
  let types := getTypesFromModule all moduleName in
  {| s_module := moduleName;
     total := length types;
     byKind := fun k => length (filter (fun t => kind_eqb (kind t) k) types);
     files := sortBy localeCompare (newSet (map file types));
     highlights := sliceMax1 highlightCount (sortBy compareHighlights types) |}.

(* ---------------------------------------------------------------- *)
(** *** Relationships *)

Record HierarchyResult : Type := {
  h_type : ExtractedType;
  parents : list str;
  children : list str
}.

Definition R_embedded : regex :=
  RCat [RBol; RClass isUpperAZ;
        RStar (RClass (fun c => isAlpha c || isDigit c || isUnderscore c)); REol].

Definition fullText (t : ExtractedType) : str := orElse (fullSignature t) (signature t).

Definition getTypeHierarchy (all : list ExtractedType) (n : str) : option HierarchyResult :=
  match searchType all n with
  | None => None
  | Some target =>
      let fullSignature := toLowerCase (fullText target) in
      let parents :=
        if kind_eqb (kind target) K_interface || kind_eqb (kind target) K_struct
           || kind_eqb (kind target) K_type
        then filter (rxTest R_embedded) (map trim (splitLines fullSignature))
        else [] in
      let children :=
        flat_map
          (fun candidate =>
             if str_eqb (name candidate) (name target) then []
             else if includes (toLowerCase (fullText candidate)) (toLowerCase (name target))
             then [name candidate] else [])
          all in
      Some {| h_type := target;
              parents := sortBy localeCompare (newSet parents);
              children := sortBy localeCompare (newSet children) |}
  end.

(* ---------------------------------------------------------------- *)
(** *** Dependencies *)

Record DependencyInfo : Type := {
  d_module : str;
  imports : list str;
  exports : list str;
  reExportsFrom : list str
}.

Definition R_importSingle : regex :=
  RCat [RBol; lit "import"; RPlus ws; RClass (isChar DQUOTE);
        RGroup 1 (RPlus (RClass (fun c => negb (isChar DQUOTE c))));
        RClass (isChar DQUOTE)].
Definition R_importBlock : regex := RCat [RBol; lit "import"; RStar ws; lit "("].
Definition R_importItem : regex :=
  RCat [RBol; ROpt (RSeq ident (RPlus ws)); RClass (isChar DQUOTE);
        RGroup 1 (RPlus (RClass (fun c => negb (isChar DQUOTE c))));
        RClass (isChar DQUOTE)].

(** The inner loop of [extractImports] over the lines after [import (]: the
    imports it pushes and how many lines it read up to and with the closing
    one ([None] when the input ends first, and the outer index stays). *)
Fixpoint importBlockLoop (rest : list str) (read : nat) : list str * option nat :=
  match rest with
  | [] => ([], None)
  | raw :: rest' =>
      let item := trim raw in
      if str_eqb item (L ")") then ([], Some (S read))
      else
        let here := match rxMatch R_importItem item with
                    | Some blockItem => [group 1 blockItem]
                    | None => []
                    end in
        let (more, closed) := importBlockLoop rest' (S read) in
        (here ++ more, closed)
  end.

(** The outer loop; [rest] are the lines from the current index on. *)
Fixpoint importLoop (fuel : nat) (rest : list str) : list str :=
  match fuel, rest with
  | O, _ => []
  | _, [] => []
  | S fuel', raw :: rest' =>
      let line := trim raw in
      match rxMatch R_importSingle line with
      | Some single => group 1 single :: importLoop fuel' rest'
      | None =>
          if rxTest R_importBlock line then
            match importBlockLoop rest' 0 with
            | (found, Some read) => found ++ importLoop fuel' (skipn read rest')
            | (found, None) => found ++ importLoop fuel' rest'
            end
          else importLoop fuel' rest'
      end
  end.

Definition extractImports (content : str) : list str :=
  let lines := splitLines content in
  importLoop (length lines) lines.

Record ModuleEntry : Type := { e_imports : list str; e_exports : list str }.

(** The first loop of [analyzeDependencies], over the files. *)
Definition addFile (byModule : list (str * ModuleEntry)) (f : str * str)
  : list (str * ModuleEntry) :=
  let moduleName := getModuleName (fst f) in
  let byModule1 :=
    if negb (mapHas byModule moduleName)
    then mapSet byModule moduleName {| e_imports := []; e_exports := [] |}
    else byModule in
  match mapGet byModule1 moduleName with
  | None => byModule1
  | Some entry =>
      mapSet byModule1 moduleName
        {| e_imports := fold_left setAdd (extractImports (snd f)) (e_imports entry);
           e_exports := e_exports entry |}
  end.

(** The second loop, over the declarations. *)
Definition addExport (byModule : list (str * ModuleEntry)) (t : ExtractedType)
  : list (str * ModuleEntry) :=
  match mapGet byModule (module t) with
  | None => byModule
  | Some entry =>
      mapSet byModule (module t)
        {| e_imports := e_imports entry; e_exports := setAdd (e_exports entry) (name t) |}
  end.

(** [files] is what [listGoFiles] returns and [all] what [extractAllTypes()]
    returns: the scan of these files, or the index the object has cached. *)
Definition analyzeDependencies (files : SourceTree) (all : list ExtractedType)
  : list DependencyInfo :=
  let byModule0 := fold_left addFile files [] in
  let byModule := fold_left addExport all byModule0 in
  let result :=
    map (fun kv =>
           {| d_module := fst kv;
              imports := sortBy localeCompare (e_imports (snd kv));
              exports := sortBy localeCompare (e_exports (snd kv));
              reExportsFrom := [] |})
        byModule in
  sortBy (fun left right => localeCompare (d_module left) (d_module right)) result.

End Collation.

(* ================================================================== *)
(** ** Notions and inputs the statements use *)
(* ================================================================== *)

(** A tree of one file: a record that embeds [Base]. *)
Definition tree_embedding : SourceTree :=
  [ (L "types/user.go",
     L "package types" ++ [LF] ++
     L "type Base struct {" ++ [LF] ++
     L "	ID string" ++ [LF] ++
     L "}" ++ [LF] ++
     L "type User struct {" ++ [LF] ++
     L "	Base" ++ [LF] ++
     L "	Name string" ++ [LF] ++
     L "}") ].

(** The lines above [index], nearest first: what [lines[cursor]] is as the
    cursor of [extractDocAbove] goes down from [index - 1] to 0. *)
Definition linesAbove (lines : list str) (index : nat) : list str :=
  map (fun cursor => nth cursor lines []) (rev (seq 0 index)).

Definition isBlankLine (raw : str) : bool := negb (truthy (trim raw)).

(** A line the walk collects: not blank, and a line comment or a piece of a
    block comment. *)
Definition isCommentLine (raw : str) : bool :=
  truthy (trim raw) && (startsWith (trim raw) (L "//") || isBlockCommentLine (trim raw)).

(** What the walk keeps of a comment line. *)
Definition commentText (raw : str) : str :=
  if startsWith (trim raw) (L "//") then rxRemove R_lineCommentStart (trim raw)
  else trim (rxRemove R_blockCommentEnd
               (rxRemove R_starStart (rxRemove R_blockCommentStart (trim raw)))).

(** The walk with one blank line skipped at most, as the specification words
    it: a second blank line before the first comment ends the walk. *)
Definition dropOneBlank (above : list str) : list str :=
  match above with
  | raw :: rest => if isBlankLine raw then rest else above
  | [] => []
  end.

Definition docWalk_oneBlank (lines : list str) (index : nat) : list str :=
  rev (map commentText (takeWhile isCommentLine (dropOneBlank (linesAbove lines index)))).

(** A comment, two blank lines, a function. *)
Definition lines_two_blanks : list str :=
  [ L "// Connect opens the socket."; []; []; L "func Connect() error {" ].

(** A comparator [Array.prototype.sort] can rely on: the sign flips when the
    arguments are swapped, and "not after" is transitive. *)
Definition ConsistentComparator (A : Type) (cmp : A -> A -> Z) : Prop :=
  (forall a b, (cmp a b < 0 <-> 0 < cmp b a)%Z) /\
  (forall a b c, (cmp a b <= 0 -> cmp b c <= 0 -> cmp a c <= 0)%Z).

(** A consistent comparator of strings, by code units; the examples take it
    for the collation. *)
Fixpoint codeUnitCompare (a b : str) : Z :=
  match a, b with
  | [], [] => 0
  | [], _ :: _ => -1
  | _ :: _, [] => 1
  | x :: a', y :: b' =>
      if code x <? code y then -1
      else if code y <? code x then 1
      else codeUnitCompare a' b'
  end.

(** The shape of the two comparators of the source: a larger key goes first,
    and equal keys are ordered by the collation of the names. *)
Definition lexCompare (A : Type) (key : A -> Z) (nm : A -> str)
  (localeCompare : str -> str -> Z) (left right : A) : Z :=
  if negb (key right =? key left)%Z then (key right - key left)%Z
  else localeCompare (nm left) (nm right).

(** [x] is not after [y]: a larger key, or the same key and a name that the
    collation does not put after. *)
Definition lexBefore (A : Type) (key : A -> Z) (nm : A -> str)
  (localeCompare : str -> str -> Z) (x y : A) : Prop :=
  (key y < key x)%Z \/ (key x = key y /\ (localeCompare (nm x) (nm y) <= 0)%Z).

(** The interest score as the specification gives it. *)
Definition interestScore (t : ExtractedType) : Z :=
  ((if truthy (docsText t) then 2 else 0)
   + (if kind_eqb (kind t) K_function || kind_eqb (kind t) K_method then 4 else 0)
   + (if kind_eqb (kind t) K_interface || kind_eqb (kind t) K_struct then 3 else 0)
   + (if (length (name t) <=? 24)%nat then 1 else 0))%Z.

(** Whether the field a signal reads matches the term. *)
Definition fieldMatches (s : Signal) (t : ExtractedType) (term : str) : bool :=
  match s with
  | NameExact => str_eqb (toLowerCase (name t)) term
  | NameSub => includes (toLowerCase (name t)) term
  | SignatureSub => includes (toLowerCase (signature t)) term
  | DocsSub => includes (toLowerCase (docsText t)) term
  | FileSub => includes (toLowerCase (file t)) term
  | ModuleSub => includes (toLowerCase (module t)) term
  | KindSub => includes (toLowerCase (kindName (kind t))) term
  end.

(** The six substring signals, in the order the loop tests them. *)
Definition substringSignals : list Signal :=
  [NameSub; SignatureSub; DocsSub; FileSub; ModuleSub; KindSub].

(** The signals that count for a term: the exact match alone when the term is
    the lower-cased name, and every substring signal that matches
    otherwise. *)
Definition firedSignals (t : ExtractedType) (term : str) : list Signal :=
  if fieldMatches NameExact t term then [NameExact]
  else filter (fun s => fieldMatches s t term) substringSignals.

Definition sumZ (l : list Z) : Z := fold_right Z.add 0%Z l.

(** The state of the loop over the terms when it ends, and the entry pushed
    for a declaration that is kept. *)
Definition tally (terms : list str) (t : ExtractedType) : Tally :=
  fold_left (scoreTerm t) terms (0%Z, []).

Definition entryOf (terms : list str) (t : ExtractedType) : RankedTypeResult :=
  {| r_type := t; score := fst (tally terms t); matchedIn := newSet (snd (tally terms t)) |}.

(** A small tree: a record and a method of [client.go], a function of
    [socket/connection.go], and two methods named [String] in two files of the
    module [types]. *)
Definition tree_small : SourceTree :=
  [ (L "client.go",
     L "package whatsmeow" ++ [LF] ++
     [LF] ++
     L "// Client contains everything necessary to connect to WhatsApp." ++ [LF] ++
     L "type Client struct {" ++ [LF] ++
     L "	Store *store.Device" ++ [LF] ++
     L "}" ++ [LF] ++
     [LF] ++
     L "// Connect connects the client to the WhatsApp web websocket." ++ [LF] ++
     L "func (cli *Client) Connect() error {");
    (L "socket/connection.go",
     L "package socket" ++ [LF] ++
     [LF] ++
     L "func Dial(addr string) error {");
    (L "types/jid.go",
     L "package types" ++ [LF] ++
     [LF] ++
     L "func (jid JID) String() string {");
    (L "types/message.go",
     L "package types" ++ [LF] ++
     [LF] ++
     L "func (id MessageID) String() string {") ].

(** The five declarations the scanner makes of it. *)
Definition d_client : ExtractedType :=
  {| name := L "Client"; kind := K_struct; exported := true;
     file := L "client.go"; module := L "root";
     signature := L "type Client struct {";
     fullSignature := Some (L "type Client struct {" ++ [LF] ++ L "	Store *store.Device"
                              ++ [LF] ++ L "}");
     properties :=
       Some [ {| p_name := L "Store"; p_type := L "*store.Device"; p_optional := false;
                 p_readonly := false; p_isMethod := false; p_isCallSignature := false;
                 p_isIndexSignature := false; p_parameters := None;
                 p_returnType := None |} ];
     methods := None;
     docs := Some (L "Client contains everything necessary to connect to WhatsApp.");
     value := None; lineNumber := Some 4 |}.

Definition d_connect : ExtractedType :=
  {| name := L "Connect"; kind := K_method; exported := true;
     file := L "client.go"; module := L "root";
     signature := L "func (cli *Client) Connect() error {";
     fullSignature := None; properties := None; methods := None;
     docs := Some (L "Connect connects the client to the WhatsApp web websocket.");
     value := None; lineNumber := Some 9 |}.

Definition d_dial : ExtractedType :=
  {| name := L "Dial"; kind := K_function; exported := true;
     file := L "socket/connection.go"; module := L "socket";
     signature := L "func Dial(addr string) error {";
     fullSignature := None; properties := None; methods := None;
     docs := None; value := None; lineNumber := Some 3 |}.

Definition d_string_jid : ExtractedType :=
  {| name := L "String"; kind := K_method; exported := true;
     file := L "types/jid.go"; module := L "types";
     signature := L "func (jid JID) String() string {";
     fullSignature := None; properties := None; methods := None;
     docs := None; value := None; lineNumber := Some 3 |}.

Definition d_string_msg : ExtractedType :=
  {| name := L "String"; kind := K_method; exported := true;
     file := L "types/message.go"; module := L "types";
     signature := L "func (id MessageID) String() string {";
     fullSignature := None; properties := None; methods := None;
     docs := None; value := None; lineNumber := Some 3 |}.

Definition index_small : list ExtractedType :=
  [d_client; d_connect; d_dial; d_string_jid; d_string_msg].


(** The index at which the [k]-th turn of the loop of [extractFromContent]
    runs, as long as the loop gets that far. *)
Fixpoint turnIndex (relativeFile moduleName : str) (lines : list str) (k : nat) : nat :=
  match k with
  | O => 0
  | S k' =>
      S (snd (scanLine relativeFile moduleName lines
                (turnIndex relativeFile moduleName lines k')))
  end.


(** A line without its last character when that is a carriage return: what
    [split(/\r?\n/)] makes of a line that was joined with a line feed. *)
Fixpoint chopCR (l : str) : str :=
  match l with
  | [] => []
  | c :: l' =>
      match l' with
      | [] => if isChar CR c then [] else [c]
      | _ :: _ => c :: chopCR l'
      end
  end.

(** A file with a grouped constant block below a comment; one member has a
    comment of its own inside the block. *)
Definition file_presence : str :=
  L "package types" ++ [LF] ++
  [LF] ++
  L "// Presence values." ++ [LF] ++
  L "const (" ++ [LF] ++
  L "	// Available means online." ++ [LF] ++
  L "	PresenceAvailable = 1" ++ [LF] ++
  L "	PresenceUnavailable = 2" ++ [LF] ++
  L ")".

(** A file with a contract of two methods, a comment between them. *)
Definition file_store : str :=
  L "package store" ++ [LF] ++
  L "// DeviceStore keeps devices." ++ [LF] ++
  L "type DeviceStore interface {" ++ [LF] ++
  L "	PutDevice(id string, d *Device) error" ++ [LF] ++
  L "	// GetDevice may return nil." ++ [LF] ++
  L "	GetDevice(id string) (*Device, error)" ++ [LF] ++
  L "}" ++ [LF] ++
  L "func NewStore() DeviceStore {".

(** The entry a module starts with. *)
Definition emptyEntry : ModuleEntry := {| e_imports := []; e_exports := [] |}.

(** The imports the files of a module bring, and the names the declarations
    of a module have, in the order the two loops of [analyzeDependencies] meet
    them. *)
Definition importsOf (files : SourceTree) (m : str) : list str :=
  flat_map (fun f => if str_eqb (getModuleName (fst f)) m then extractImports (snd f) else [])
    files.

Definition namesOf (types : list ExtractedType) (m : str) : list str :=
  flat_map (fun t => if str_eqb (module t) m then [name t] else []) types.

(** A tree of three files in two modules. *)
Definition tree_three_files : SourceTree :=
  [ (L "store/store.go", file_store);
    (L "types/presence.go", file_presence);
    (L "types/user.go",
     L "package types" ++ [LF] ++
     L "import (" ++ [LF] ++
     L "	" ++ [DQUOTE] ++ L "fmt" ++ [DQUOTE] ++ [LF] ++
     L "	store " ++ [DQUOTE] ++ L "example.org/store" ++ [DQUOTE] ++ [LF] ++
     L ")" ++ [LF] ++
     L "type User struct {" ++ [LF] ++
     L "	Name string" ++ [LF] ++
     L "}" ++ [LF] ++
     L "func (u User) String() string {") ].

(** What a match does: [rsem r prev s c prev' s' c'] says that [r] can match at
    the head of [s], with [prev] the character before, and leave the text
    [s'], the character [prev'] before it and the captures [c']. *)
Inductive rsem : regex -> option ascii -> str -> captures ->
                 option ascii -> str -> captures -> Prop :=
| rsem_class (p : ascii -> bool) prev x s c :
    p x = true -> rsem (RClass p) prev (x :: s) c (Some x) s c
| rsem_empty prev s c : rsem REmpty prev s c prev s c
| rsem_seq r1 r2 prev s c p1 s1 c1 p2 s2 c2 :
    rsem r1 prev s c p1 s1 c1 -> rsem r2 p1 s1 c1 p2 s2 c2 ->
    rsem (RSeq r1 r2) prev s c p2 s2 c2
| rsem_alt_l r1 r2 prev s c p1 s1 c1 :
    rsem r1 prev s c p1 s1 c1 -> rsem (RAlt r1 r2) prev s c p1 s1 c1
| rsem_alt_r r1 r2 prev s c p1 s1 c1 :
    rsem r2 prev s c p1 s1 c1 -> rsem (RAlt r1 r2) prev s c p1 s1 c1
| rsem_star_nil r prev s c : rsem (RStar r) prev s c prev s c
| rsem_star_step r prev s c p1 s1 c1 p2 s2 c2 :
    rsem r prev s c p1 s1 c1 -> rsem (RStar r) p1 s1 c1 p2 s2 c2 ->
    rsem (RStar r) prev s c p2 s2 c2
| rsem_group n r prev s c p1 s1 c1 :
    rsem r prev s c p1 s1 c1 ->
    rsem (RGroup n r) prev s c p1 s1 ((n, firstn (length s - length s1) s) :: c1)
| rsem_bol s c : rsem RBol None s c None s c
| rsem_eol prev c : rsem REol prev [] c prev [] c
| rsem_wordb prev s c :
    xorb (isWordOpt prev) (isWordOpt (hd_error s)) = true ->
    rsem RWordB prev s c prev s c.

(** The numbers of the groups of a pattern. *)
Fixpoint groupIds (r : regex) : list nat :=
  match r with
  | RSeq r1 r2 | RAlt r1 r2 => groupIds r1 ++ groupIds r2
  | RStar r1 => groupIds r1
  | RGroup n r1 => n :: groupIds r1
  | _ => []
  end.

(** An exported identifier: an ASCII capital, then word characters. *)
Definition isExportedName (s : str) : Prop :=
  exists x rest, s = x :: rest /\ isUpperAZ x = true /\ Forall (fun ch => isWord ch = true) rest.

(** An identifier: a letter or an underscore, then word characters. *)
Definition isIdentName (s : str) : Prop :=
  exists x rest, s = x :: rest /\ (isAlpha x || isUnderscore x = true) /\
                 Forall (fun ch => isWord ch = true) rest.

(** The declarations a turn of the scanner can push at [index], one case for
    each branch of the loop body. *)
Inductive pushedAt (rf mn : str) (lines : list str) (index : nat) : ExtractedType -> Prop :=
| pushed_interface m :
    rxMatch R_interface (trim (nth index lines [])) = Some m ->
    pushedAt rf mn lines index
      (declaration rf mn (group 1 m) K_interface
         (firstLine (text (captureBracedBlock lines index)))
         (Some (text (captureBracedBlock lines index))) None
         (Some (parseInterfaceMethods (text (captureBracedBlock lines index))))
         (extractDocAbove lines index) None (index + 1))
| pushed_struct m :
    rxMatch R_struct (trim (nth index lines [])) = Some m ->
    pushedAt rf mn lines index
      (declaration rf mn (group 1 m) K_struct
         (firstLine (text (captureBracedBlock lines index)))
         (Some (text (captureBracedBlock lines index)))
         (Some (parseStructFields (text (captureBracedBlock lines index)))) None
         (extractDocAbove lines index) None (index + 1))
| pushed_type m :
    rxMatch R_type (trim (nth index lines [])) = Some m ->
    pushedAt rf mn lines index
      (declaration rf mn (group 1 m) K_type (trim (nth index lines [])) None None None
         (extractDocAbove lines index) (Some (trim (group 3 m))) (index + 1))
| pushed_method m :
    rxMatch R_method (trim (nth index lines [])) = Some m ->
    pushedAt rf mn lines index
      (declaration rf mn (group 2 m) K_method (captureFunctionSignature lines index)
         None None None (extractDocAbove lines index) None (index + 1))
| pushed_function m :
    rxMatch R_function (trim (nth index lines [])) = Some m ->
    pushedAt rf mn lines index
      (declaration rf mn (group 1 m) K_function (captureFunctionSignature lines index)
         None None None (extractDocAbove lines index) None (index + 1))
| pushed_member k member :
    (k = K_const /\ rxTest R_constBlock (trim (nth index lines [])) = true) \/
    (k = K_variable /\ rxTest R_varBlock (trim (nth index lines [])) = true) ->
    In member (parseConstVarBlockMembers (text (captureParenBlock lines index))) ->
    rxTest R_capitalStart (m_name member) = true ->
    pushedAt rf mn lines index
      (declaration rf mn (m_name member) k (m_signature member) None None None
         (extractDocAbove lines index) (m_value member) (m_lineNumber member))
| pushed_const m :
    rxMatch R_constSingle (trim (nth index lines [])) = Some m ->
    pushedAt rf mn lines index
      (declaration rf mn (group 1 m) K_const (trim (nth index lines [])) None None None
         (extractDocAbove lines index) (orUndefined (trim (group 2 m))) (index + 1))
| pushed_var m :
    rxMatch R_varSingle (trim (nth index lines [])) = Some m ->
    pushedAt rf mn lines index
      (declaration rf mn (group 1 m) K_variable (trim (nth index lines [])) None None None
         (extractDocAbove lines index) (orUndefined (trim (group 2 m))) (index + 1)).



(** The first declaration the scanner makes of [file_presence], and the last
    it makes of [file_store]. *)
Definition d_available : ExtractedType :=
  {| name := L "PresenceAvailable"; kind := K_const; exported := true;
     file := L "types/presence.go"; module := L "types";
     signature := L "PresenceAvailable = 1";
     fullSignature := None; properties := None; methods := None;
     docs := Some (L "Presence values."); value := Some (L "= 1");
     lineNumber := Some 3 |}.

Definition d_newStore : ExtractedType :=
  {| name := L "NewStore"; kind := K_function; exported := true;
     file := L "store/store.go"; module := L "store";
     signature := L "func NewStore() DeviceStore {";
     fullSignature := None; properties := None; methods := None;
     docs := None; value := None; lineNumber := Some 8 |}.

(** [fuzzySearch(query, limit)]: the declarations of the ranking, without
    filters. *)
Definition fuzzySearch (localeCompare : str -> str -> Z) (all : list ExtractedType)
  (query : str) (limit : Z) : list ExtractedType :=
  map (fun item => r_type item) (searchByContext localeCompare all query limit noFilters).

(** A candidate matches a query when one of its seven signals fires for one
    of the terms. *)
Definition matchesQuery (t : ExtractedType) (query : str) : Prop :=
  exists term s, In term (queryTerms query) /\ fieldMatches s t term = true.

(** A candidate passes the filters. *)
Definition passesFilters (filters : SearchFilters) (t : ExtractedType) : Prop :=
  (forall m, f_module filters = Some m -> m <> [] ->
             toLowerCase (module t) = toLowerCase m) /\
  (forall k, f_kind filters = Some k -> kind t = k).

(* ================================================================== *)
(** ** Views of the index and statistics *)
(* ================================================================== *)

Definition getTypesByKind (all : list ExtractedType) (k : ExtractedKind) : list ExtractedType :=
  filter (fun t => kind_eqb (kind t) k) all.

Definition getConstants (all : list ExtractedType) : list ExtractedType :=
  filter (fun t => kind_eqb (kind t) K_const || kind_eqb (kind t) K_variable) all.

Definition getFunctions (all : list ExtractedType) : list ExtractedType :=
  filter (fun t => kind_eqb (kind t) K_function || kind_eqb (kind t) K_method) all.

Definition getInterfaces (all : list ExtractedType) : list ExtractedType :=
  filter (fun t => kind_eqb (kind t) K_interface) all.

Definition getEnums (all : list ExtractedType) : list ExtractedType := [].

Record ModuleStatistics : Type := {
  ms_module : str;
  ms_interfaces : nat;
  ms_structs : nat;
  ms_types : nat;
  ms_functions : nat;
  ms_methods : nat;
  ms_consts : nat;
  ms_variables : nat;
  ms_total : nat
}.

Record LibraryStatistics : Type := {
  totalDeclarations : nat;
  ls_byKind : ExtractedKind -> nat;
  byModule : list ModuleStatistics;
  topInterfaces : list str;
  topTypes : list str;
  topFunctions : list str
}.

(** The entry a module gets when its first declaration is met. *)
Definition newModuleStatistics (m : str) : ModuleStatistics :=
  {| ms_module := m; ms_interfaces := 0; ms_structs := 0; ms_types := 0;
     ms_functions := 0; ms_methods := 0; ms_consts := 0; ms_variables := 0;
     ms_total := 0 |}.

(** The seven [if (type.kind === ...) stat.x += 1] and [stat.total += 1]. *)
Definition countKind (stat : ModuleStatistics) (k : ExtractedKind) : ModuleStatistics :=
  {| ms_module := ms_module stat;
     ms_interfaces := if kind_eqb k K_interface then ms_interfaces stat + 1
                      else ms_interfaces stat;
     ms_structs := if kind_eqb k K_struct then ms_structs stat + 1 else ms_structs stat;
     ms_types := if kind_eqb k K_type then ms_types stat + 1 else ms_types stat;
     ms_functions := if kind_eqb k K_function then ms_functions stat + 1
                     else ms_functions stat;
     ms_methods := if kind_eqb k K_method then ms_methods stat + 1 else ms_methods stat;
     ms_consts := if kind_eqb k K_const then ms_consts stat + 1 else ms_consts stat;
     ms_variables := if kind_eqb k K_variable then ms_variables stat + 1
                     else ms_variables stat;
     ms_total := ms_total stat + 1 |}.

(** The body of the second loop of [getStatistics]. *)
Definition countType (moduleMap : list (str * ModuleStatistics)) (t : ExtractedType)
  : list (str * ModuleStatistics) :=
  let moduleMap1 :=
    if negb (mapHas moduleMap (module t))
    then mapSet moduleMap (module t) (newModuleStatistics (module t))
    else moduleMap in
  match mapGet moduleMap1 (module t) with
  | None => moduleMap1
  | Some stat => mapSet moduleMap1 (module t) (countKind stat (kind t))
  end.

(** [byKind[type.kind] += 1] *)
Definition bumpKind (byKind : ExtractedKind -> nat) (t : ExtractedType)
  : ExtractedKind -> nat :=
  fun k => if kind_eqb k (kind t) then byKind k + 1 else byKind k.

(** [topNames]; the limits of the source are 15 and 20. *)
Definition topNames (localeCompare : str -> str -> Z) (types : list ExtractedType)
  (limit : nat) : list str :=
  firstn limit (sortBy localeCompare (map (fun t => name t) types)).

Definition getStatistics (localeCompare : str -> str -> Z) (all : list ExtractedType)
  : LibraryStatistics :=
  let byKind := fold_left bumpKind all (fun _ => 0) in
  let moduleMap := fold_left countType all [] in
  {| totalDeclarations := length all;
     ls_byKind := byKind;
     byModule :=
       sortBy (fun left right => localeCompare (ms_module left) (ms_module right))
         (map snd moduleMap);
     topInterfaces := topNames localeCompare (getInterfaces all) 15;
     topTypes :=
       topNames localeCompare
         (filter (fun t => kind_eqb (kind t) K_type || kind_eqb (kind t) K_struct) all) 20;
     topFunctions := topNames localeCompare (getFunctions all) 20 |}.

(** The seven kinds, in the order of the counters of the source. *)
Definition allKinds : list ExtractedKind :=
  [K_interface; K_struct; K_type; K_function; K_method; K_const; K_variable].

(** How many declarations of a list have a module and a kind. *)
Definition countOf (all : list ExtractedType) (m : str) (k : ExtractedKind) : nat :=
  length (filter (fun t => str_eqb (module t) m && kind_eqb (kind t) k) all).

Definition sumNat (l : list nat) : nat := fold_right Nat.add 0 l.

(** The modules the tool [whatsmeow_resumo_modulo] lists when the summary is
    empty. *)
Definition knownModules (localeCompare : str -> str -> Z) (all : list ExtractedType)
  : list str :=
  firstn 20 (map (fun moduleStats => ms_module moduleStats)
               (byModule (getStatistics localeCompare all))).

(** An import path as the patterns of [extractImports] find it in a line:
    between two double quotes, not empty, without a double quote. *)
Definition quotedIn (line imp : str) : Prop :=
  imp <> [] /\ Forall (fun ch => isChar DQUOTE ch = false) imp /\
  includes line ([DQUOTE] ++ imp ++ [DQUOTE]) = true.

(** [shortSignature] of the content tools; the limit of the source is 180. *)
Definition shortSignature (signature : str) (maxLength : nat) : str :=
  if length signature <=? maxLength then signature
  else firstn maxLength signature ++ L "...".

(* ================================================================== *)
(** ** The files of the repository *)
(* ================================================================== *)

(** What [readdirSync] with [withFileTypes] gives for an entry of a
    directory: a file, a directory with its own entries, or something that is
    neither for [isFile()] and [isDirectory()]. *)
#[warnings="-register-all"] Inductive Dirent : Type :=
| DirentFile (name : str)
| DirentDirectory (name : str) (entries : list Dirent)
| DirentOther (name : str).

(** [entry.name] *)
Definition direntName (entry : Dirent) : str :=
  match entry with
  | DirentFile name | DirentDirectory name _ | DirentOther name => name
  end.

Section Files.

(** [path.join] *)
Variable pathJoin : str -> str -> str.

(** The body of the loop of [listGoFiles] for one entry of [dirPath]. *)
Fixpoint listGoEntry (dirPath : str) (entry : Dirent) : list str :=
  let name := direntName entry in
  if startsWith name (L ".") then []
  else if str_eqb name (L "vendor") then []
  else
    let fullPath := pathJoin dirPath name in
    match entry with
    | DirentDirectory _ entries => flat_map (listGoEntry fullPath) entries
    | DirentFile _ =>
        if endsWith name (L ".go") && negb (endsWith name (L "_test.go"))
        then [fullPath]
        else []
    | DirentOther _ => []
    end.

(** [listGoFiles(dirPath)]; the directory is [None] when [existsSync] says
    that the path does not exist. *)
Definition listGoFiles (dirPath : str) (directory : option (list Dirent)) : list str :=
  match directory with
  | None => []
  | Some entries => flat_map (listGoEntry dirPath) entries
  end.

End Files.

(** A file named [file] stands in the tree below the directories [dirs],
    from the outermost on. *)
Inductive standsIn : list Dirent -> list str -> str -> Prop :=
| standsIn_here entries file :
    In (DirentFile file) entries -> standsIn entries [] file
| standsIn_below entries dir sub dirs file :
    In (DirentDirectory dir sub) entries -> standsIn sub dirs file ->
    standsIn entries (dir :: dirs) file.

(** A name the listing does not skip: no leading dot, and not [vendor]. *)
Definition isListedName (name : str) : Prop :=
  startsWith name (L ".") = false /\ name <> L "vendor".

(** A Go source file that is not a test. *)
Definition isGoSource (name : str) : Prop :=
  endsWith name (L ".go") = true /\ endsWith name (L "_test.go") = false.

(** A repository with a record, its constructor and a test file. *)
Definition tree_clients : SourceTree :=
  [ (L "client.go",
     L "package whatsmeow" ++ [LF] ++
     L "type Client struct {" ++ [LF] ++
     L "}" ++ [LF] ++
     L "func NewClient() int {" ++ [LF] ++
     L "func Connect(c *Client) error {") ].

Definition d_newClient : ExtractedType :=
  {| name := L "NewClient"; kind := K_function; exported := true;
     file := L "client.go"; module := L "root";
     signature := L "func NewClient() int {";
     fullSignature := None; properties := None; methods := None;
     docs := None; value := None; lineNumber := Some 4 |}.

(** The character before the position, after the run [w] has been read. *)
Definition prevAfter (prev : option ascii) (w : str) : option ascii :=
  last (map Some w) prev.

(** What follows the parameters in the method pattern. *)
Definition methodTail : regex :=
  RCat [lit ")"; RStar ws; RGroup 3 (RStar dot); REol].






(** [x] stands before [y] in a list: at a smaller position. *)
Definition comesBefore (A : Type) (l : list A) (x y : A) : Prop :=
  exists i j, i < j /\ nth_error l i = Some x /\ nth_error l j = Some y.

(* ================================================================== *)
(** * Properties *)
(* ================================================================== *)

(** ** Strings *)

Lemma str_eqb_eq (a b : str) : str_eqb a b = true <-> a = b.
Proof.
  revert b; induction a as [|x a IH]; intros [|y b]; simpl; split; intros H;
    try reflexivity; try discriminate.
  - apply andb_true_iff in H as [Hx Hab].
    apply Ascii.eqb_eq in Hx. apply IH in Hab. congruence.
  - injection H as -> ->. rewrite Ascii.eqb_refl. simpl. now apply IH.
Qed.

Lemma str_eqb_refl (a : str) : str_eqb a a = true.
Proof. now apply str_eqb_eq. Qed.

Lemma str_eqb_neq (a b : str) : str_eqb a b = false <-> a <> b.
Proof.
  split.
  - intros H E. apply str_eqb_eq in E. congruence.
  - intros H. destruct (str_eqb a b) eqn:E; [|reflexivity].
    apply str_eqb_eq in E. contradiction.
Qed.

Lemma Forall_dropWhile (A : Type) (P : A -> Prop) (p : A -> bool) (s : list A) :
  Forall P s -> Forall P (dropWhile p s).
Proof.
  induction 1 as [|c s Hc Hs IH]; simpl; [constructor|].
  destruct (p c); [exact IH | now constructor].
Qed.

Lemma Forall_trim (P : ascii -> Prop) (s : str) : Forall P s -> Forall P (trim s).
Proof.
  intros H. unfold trim.
  apply Forall_rev, Forall_dropWhile, Forall_rev, Forall_dropWhile, H.
Qed.

Lemma Forall_splitLinesAux (P : ascii -> Prop) (s cur : str) :
  Forall P cur -> Forall P s -> Forall (Forall P) (splitLinesAux cur s).
Proof.
  revert cur.
  induction s as [s IH] using (induction_ltof1 _ (@length ascii)).
  unfold ltof in IH. intros cur Hcur Hs. destruct s as [|c s]; simpl.
  - constructor; [now apply Forall_rev | constructor].
  - inversion Hs as [|? ? Hc Hs']; subst.
    destruct (isChar LF c).
    + constructor; [now apply Forall_rev|]. apply IH; simpl; auto.
    + destruct (isChar CR c).
      * destruct s as [|d s]; [apply IH; simpl; auto|].
        inversion Hs' as [|? ? Hd Hs'']; subst.
        destruct (isChar LF d).
        -- constructor; [now apply Forall_rev|]. apply IH; simpl; auto.
        -- apply IH; simpl; auto.
      * apply IH; simpl; auto.
Qed.

Lemma Forall_splitLines (P : ascii -> Prop) (s : str) :
  Forall P s -> Forall (Forall P) (splitLines s).
Proof. intros H. now apply Forall_splitLinesAux. Qed.

(** Lower-casing leaves no ASCII capital behind. *)
Lemma lowerChar_not_upper (c : ascii) : isUpperAZ (lowerChar c) = false.
Proof. destruct c as [[] [] [] [] [] [] [] []]; reflexivity. Qed.

Lemma toLowerCase_not_upper (s : str) :
  Forall (fun c => isUpperAZ c = false) (toLowerCase s).
Proof.
  unfold toLowerCase. apply Forall_forall. intros c Hc.
  apply in_map_iff in Hc as [x [<- _]]. apply lowerChar_not_upper.
Qed.

(** ** C1: the parents of a declaration *)

(** A line with no ASCII capital is not an embedded identifier. *)
Lemma R_embedded_needs_capital (s : str) :
  Forall (fun c => isUpperAZ c = false) s -> rxTest R_embedded s = false.
Proof.
  intros H. destruct s as [|c s]; [reflexivity|].
  inversion H as [|? ? Hc _]; subst.
  unfold rxTest, matchStart, R_embedded. simpl. now rewrite Hc.
Qed.

(** Whatever the index and the name asked for, [getTypeHierarchy] reports no
    parent: the block is lower-cased before its lines are tested against the
    pattern that asks for a leading capital. *)
Lemma getTypeHierarchy_parents_nil (localeCompare : str -> str -> Z)
  (all : list ExtractedType) (n : str) (h : HierarchyResult) :
  getTypeHierarchy localeCompare all n = Some h -> parents h = [].
Proof.
  unfold getTypeHierarchy. destruct (searchType all n) as [target|]; [|discriminate].
  intros H. injection H as <-. simpl.
  assert (E : filter (rxTest R_embedded)
                (map trim (splitLines (toLowerCase (fullText target)))) = []).
  { pose proof (Forall_splitLines (toLowerCase_not_upper (fullText target))) as F.
    induction F as [|l ls Hl _ IH]; simpl; [reflexivity|].
    rewrite (R_embedded_needs_capital (Forall_trim Hl)). exact IH. }
  rewrite E. now destruct (_ || _).
Qed.

(** C1, at a record whose block has the line [Base], a single bare capitalized
    identifier: the pattern accepts that line as it is in the block, and the
    parents reported for the record are empty all the same. *)
Theorem getTypeHierarchy_embedded_parent_lost :
  forall localeCompare : str -> str -> Z,
    (exists t, searchType (extractAllTypes tree_embedding) (L "User") = Some t /\
               kind t = K_struct /\
               In (L "Base") (filter (rxTest R_embedded)
                                (map trim (splitLines (fullText t))))) /\
    option_map parents
      (getTypeHierarchy localeCompare (extractAllTypes tree_embedding) (L "User")) = Some [].
Proof.
  intros localeCompare. split.
  - eexists. split; [vm_compute; reflexivity|]. split; [reflexivity|].
    vm_compute. auto.
  - destruct (getTypeHierarchy localeCompare (extractAllTypes tree_embedding) (L "User"))
      as [h|] eqn:E.
    + simpl. f_equal. exact (getTypeHierarchy_parents_nil _ _ _ E).
    + exfalso. revert E. unfold getTypeHierarchy.
      destruct (searchType (extractAllTypes tree_embedding) (L "User")) eqn:F;
        [discriminate|].
      vm_compute in F. discriminate.
Qed.

(** ** C5: the documentation walk *)

Lemma linesAbove_S (lines : list str) (n : nat) :
  linesAbove lines (S n) = nth n lines [] :: linesAbove lines n.
Proof. unfold linesAbove. rewrite seq_S, rev_app_distr. reflexivity. Qed.

(** One turn of the walk, in terms of the kind of line it reads. *)
Lemma docWalk_step (lines : list str) (n : nat) (docs : list str) :
  docWalk lines (S n) docs =
  if isBlankLine (nth n lines []) then
    match docs with [] => docWalk lines n docs | _ :: _ => docs end
  else if isCommentLine (nth n lines []) then
    docWalk lines n (commentText (nth n lines []) :: docs)
  else docs.
Proof.
  cbn [docWalk]. unfold isBlankLine, isCommentLine, commentText.
  destruct (truthy (trim (nth n lines []))); cbn [negb andb];
    [|destruct docs; reflexivity].
  destruct (startsWith (trim (nth n lines [])) (L "//")); cbn [orb]; [reflexivity|].
  destruct (isBlockCommentLine (trim (nth n lines []))); reflexivity.
Qed.

Lemma blank_not_comment (raw : str) : isBlankLine raw = true -> isCommentLine raw = false.
Proof.
  unfold isBlankLine, isCommentLine. now destruct (truthy (trim raw)).
Qed.

(** Once a comment has been collected the walk takes the run of comment lines
    that follows and stops at the first line that is not one. *)
Lemma docWalk_started (lines : list str) (n : nat) (d : str) (docs : list str) :
  docWalk lines n (d :: docs) =
  rev (map commentText (takeWhile isCommentLine (linesAbove lines n))) ++ d :: docs.
Proof.
  revert d docs. induction n as [|n IH]; intros d docs; [reflexivity|].
  rewrite linesAbove_S, docWalk_step. cbn [takeWhile].
  destruct (isBlankLine (nth n lines [])) eqn:B.
  - now rewrite (blank_not_comment _ B).
  - destruct (isCommentLine (nth n lines [])); [|reflexivity].
    rewrite IH. cbn [map rev]. now rewrite <- app_assoc.
Qed.

(** The claim as stated fails: with two blank lines between the comment and
    the declaration the walk still collects the comment, where a walk that
    skips one blank line at most collects nothing. *)
Lemma docWalk_skips_two_blanks :
  docWalk lines_two_blanks 3 [] = [L "Connect opens the socket."] /\
  docWalk_oneBlank lines_two_blanks 3 = [] /\
  extractDocAbove lines_two_blanks 3 = Some (L "Connect opens the socket.").
Proof. repeat split; vm_compute; reflexivity. Qed.

(** C5, amended: walking backward from a declaration line, every blank line
    met before a comment line has been collected is skipped, however many
    there are; then the run of consecutive comment lines is collected, oldest
    first, and the walk ends at the first line after it that is blank or is
    not a comment.  The documentation is the collected texts joined by single
    spaces and trimmed, or nothing when that is empty. *)
Theorem docWalk_skips_leading_blanks (lines : list str) (index : nat) :
  docWalk lines index [] =
    rev (map commentText
           (takeWhile isCommentLine (dropWhile isBlankLine (linesAbove lines index)))) /\
  extractDocAbove lines index =
    orUndefined
      (trim (join (L " ")
               (rev (map commentText
                       (takeWhile isCommentLine
                          (dropWhile isBlankLine (linesAbove lines index))))))).
Proof.
  assert (W : docWalk lines index [] =
              rev (map commentText
                     (takeWhile isCommentLine
                        (dropWhile isBlankLine (linesAbove lines index))))).
  { induction index as [|n IH]; [reflexivity|].
    rewrite linesAbove_S, docWalk_step. cbn [dropWhile].
    destruct (isBlankLine (nth n lines [])) eqn:B; [exact IH|].
    cbn [takeWhile].
    destruct (isCommentLine (nth n lines [])); [|reflexivity].
    rewrite docWalk_started. cbn [map rev]. reflexivity. }
  split; [exact W|]. unfold extractDocAbove. now rewrite W.
Qed.

(** ** Sorting *)

Lemma codeUnitCompare_consistent : ConsistentComparator codeUnitCompare.
Proof.
  split.
  - intros a. induction a as [|x a IH]; intros [|y b]; simpl; try lia.
    destruct (Nat.ltb_spec (code x) (code y)), (Nat.ltb_spec (code y) (code x));
      try lia. apply IH.
  - intros a. induction a as [|x a IH]; intros [|y b] [|z c]; simpl; try lia.
    destruct (Nat.ltb_spec (code x) (code y)), (Nat.ltb_spec (code y) (code x)),
      (Nat.ltb_spec (code y) (code z)), (Nat.ltb_spec (code z) (code y)),
      (Nat.ltb_spec (code x) (code z)), (Nat.ltb_spec (code z) (code x));
      try lia. apply IH.
Qed.

Section SortFacts.

Variable A : Type.
Variable cmp : A -> A -> Z.

Lemma insertSorted_perm (x : A) (l : list A) :
  Permutation (insertSorted cmp x l) (x :: l).
Proof.
  induction l as [|y l IH]; simpl; [reflexivity|].
  destruct (cmp x y <=? 0)%Z; [reflexivity|].
  rewrite IH. apply perm_swap.
Qed.

Lemma sortBy_perm (l : list A) : Permutation (sortBy cmp l) l.
Proof.
  induction l as [|x l IH]; simpl; [reflexivity|].
  rewrite insertSorted_perm. now constructor.
Qed.

Lemma sortBy_In (l : list A) (x : A) : In x (sortBy cmp l) <-> In x l.
Proof.
  split; apply Permutation_in; [|symmetry]; apply sortBy_perm.
Qed.

Lemma sortBy_NoDup (l : list A) : NoDup l -> NoDup (sortBy cmp l).
Proof. apply Permutation_NoDup. symmetry. apply sortBy_perm. Qed.

(** The sort orders its result by every transitive relation that holds
    where the comparator says "not after" and, reversed, where it says
    "after". *)
Section Order.

Variable R : A -> A -> Prop.
Hypothesis R_le : forall x y, (cmp x y <= 0)%Z -> R x y.
Hypothesis R_gt : forall x y, (0 < cmp x y)%Z -> R y x.
Hypothesis R_trans : forall x y z, R x y -> R y z -> R x z.

Lemma insertSorted_sorted (x : A) (l : list A) :
  StronglySorted R l -> StronglySorted R (insertSorted cmp x l).
Proof.
  induction 1 as [|y l Hl IH Hy]; simpl.
  - constructor; constructor.
  - destruct (Z.leb_spec (cmp x y) 0) as [Hxy|Hxy].
    + constructor; [now constructor|]. constructor; [now apply R_le|].
      eapply Forall_impl; [|exact Hy]. intros z Hz.
      eapply R_trans; [apply R_le, Hxy | exact Hz].
    + constructor; [exact IH|].
      rewrite Forall_forall. intros z Hz.
      apply (Permutation_in _ (insertSorted_perm x l)) in Hz.
      destruct Hz as [<-|Hz]; [now apply R_gt|].
      rewrite Forall_forall in Hy. now apply Hy.
Qed.

Lemma sortBy_sorted (l : list A) : StronglySorted R (sortBy cmp l).
Proof.
  induction l as [|x l IH]; simpl; [constructor|].
  now apply insertSorted_sorted.
Qed.

End Order.

(** A consistent comparator orders the result by itself. *)
Lemma sortBy_sorted_cmp (l : list A) :
  ConsistentComparator cmp ->
  StronglySorted (fun x y => (cmp x y <= 0)%Z) (sortBy cmp l).
Proof.
  intros [Hanti Htrans]. apply sortBy_sorted.
  - auto.
  - intros x y H. apply Hanti in H. lia.
  - intros x y z. apply Htrans.
Qed.

Lemma StronglySorted_nth (R : A -> A -> Prop) (l : list A) :
  StronglySorted R l ->
  forall i j x y, i < j -> nth_error l i = Some x -> nth_error l j = Some y -> R x y.
Proof.
  induction 1 as [|a l Hl IH Ha]; intros i j x y Hij Hi Hj.
  - destruct i; discriminate.
  - destruct j as [|j]; [lia|]. simpl in Hj. destruct i as [|i]; simpl in Hi.
    + injection Hi as <-. rewrite Forall_forall in Ha.
      eapply Ha, nth_error_In, Hj.
    + eapply IH; [|exact Hi|exact Hj]. lia.
Qed.

Lemma StronglySorted_impl_rel (R R' : A -> A -> Prop) (l : list A) :
  (forall x y, R x y -> R' x y) -> StronglySorted R l -> StronglySorted R' l.
Proof.
  intros H. induction 1 as [|x l Hl IH Hx]; constructor; [exact IH|].
  eapply Forall_impl; [|exact Hx]. intros y. apply H.
Qed.

(** Two ordered arrangements of the same elements are the same list, when
    no two distinct elements are each not after the other. *)
Lemma StronglySorted_unique (R : A -> A -> Prop) (l1 l2 : list A) :
  StronglySorted R l1 -> StronglySorted R l2 -> Permutation l1 l2 ->
  (forall x y, In x l1 -> In y l1 -> R x y -> R y x -> x = y) ->
  l1 = l2.
Proof.
  intros S1. revert l2. induction S1 as [|x l1 Hl1 IH Hx]; intros l2 S2 P Anti.
  - apply Permutation_nil in P. now subst.
  - destruct l2 as [|y l2].
    + symmetry in P. apply Permutation_nil in P. discriminate.
    + inversion S2 as [|? ? Hl2 Hy]; subst.
      rewrite Forall_forall in Hx, Hy.
      assert (E : x = y).
      { assert (Iy : In y (x :: l1))
          by (eapply Permutation_in; [symmetry; exact P | now left]).
        assert (Ix : In x (y :: l2))
          by (eapply Permutation_in; [exact P | now left]).
        destruct Iy as [Iy|Iy]; [exact Iy|].
        destruct Ix as [Ix|Ix]; [now symmetry|].
        apply Anti; [now left | now right | now apply Hx | now apply Hy]. }
      subst y. f_equal. apply IH; [exact Hl2 | |].
      * eapply Permutation_cons_inv, P.
      * intros a b Ha Hb. apply Anti; now right.
Qed.

End SortFacts.

Section LexFacts.

Variable A : Type.
Variable key : A -> Z.
Variable nm : A -> str.
Variable localeCompare : str -> str -> Z.
Hypothesis collation : ConsistentComparator localeCompare.

Lemma lexCompare_le (x y : A) :
  (lexCompare key nm localeCompare x y <= 0)%Z <-> lexBefore key nm localeCompare x y.
Proof.
  unfold lexCompare, lexBefore.
  destruct (Z.eqb_spec (key y) (key x)); simpl; lia.
Qed.

Lemma lexCompare_consistent : ConsistentComparator (lexCompare key nm localeCompare).
Proof.
  destruct collation as [Hanti Htrans]. split.
  - intros a b. unfold lexCompare.
    destruct (Z.eqb_spec (key b) (key a)), (Z.eqb_spec (key a) (key b));
      simpl; try lia. apply Hanti.
  - intros a b c. rewrite !lexCompare_le. unfold lexBefore.
    intros [H1|[H1 L1]] [H2|[H2 L2]]; try (left; lia).
    right. split; [lia|]. eapply Htrans; eassumption.
Qed.

Lemma sortBy_lexBefore (l : list A) :
  StronglySorted (lexBefore key nm localeCompare) (sortBy (lexCompare key nm localeCompare) l).
Proof.
  eapply StronglySorted_impl_rel; [|apply sortBy_sorted_cmp, lexCompare_consistent].
  intros x y. apply lexCompare_le.
Qed.

End LexFacts.

(** ** C9: the highlights of a module *)

Lemma highlightScore_interest (t : ExtractedType) : highlightScore t = interestScore t.
Proof.
  unfold highlightScore, interestScore.
  destruct (truthy (docsText t)), (kind_eqb (kind t) K_function || kind_eqb (kind t) K_method),
    (kind_eqb (kind t) K_interface || kind_eqb (kind t) K_struct),
    (length (name t) <=? 24); reflexivity.
Qed.

Lemma sliceMax1_length (A : Type) (n : Z) (l : list A) :
  length (sliceMax1 n l) <= Z.to_nat (Z.max 1 n).
Proof. unfold sliceMax1. rewrite length_firstn. lia. Qed.

(** The claim as stated fails at [highlightCount = 0]: the module [types] of
    the tree above has two declarations, and one of them is returned. *)
Lemma summarizeModule_zero_count_one_highlight :
  ~ (forall (localeCompare : str -> str -> Z) (all : list ExtractedType) (m : str) (hc : Z),
       (0 <= hc)%Z ->
       length (highlights (summarizeModule localeCompare all m hc)) <= Z.to_nat hc).
Proof.
  intros H.
  specialize (H codeUnitCompare (extractAllTypes tree_embedding) (L "types") 0%Z
                (Z.le_refl 0)).
  vm_compute in H. lia.
Qed.

(** C9, amended: for every module and every [highlightCount], the highlights
    are the first [max 1 highlightCount] declarations of the module in the
    order of the interest score (documented +2, function or method +4,
    contract or record +3, name of 24 characters at most +1), larger first,
    with ties broken by ascending name; so the list never has more than
    [max 1 highlightCount] elements, and never more than [highlightCount]
    when that is 1 or more. *)
Theorem summarizeModule_highlights_top (localeCompare : str -> str -> Z)
  (all : list ExtractedType) (m : str) (hc : Z) :
  ConsistentComparator localeCompare ->
  (forall t, highlightScore t = interestScore t) /\
  (exists ordered,
      Permutation ordered (getTypesFromModule all m) /\
      StronglySorted (lexBefore interestScore name localeCompare) ordered /\
      highlights (summarizeModule localeCompare all m hc)
      = firstn (Z.to_nat (Z.max 1 hc)) ordered) /\
  length (highlights (summarizeModule localeCompare all m hc)) <= Z.to_nat (Z.max 1 hc) /\
  ((1 <= hc)%Z ->
   length (highlights (summarizeModule localeCompare all m hc)) <= Z.to_nat hc).
Proof.
  intros Hlc. split; [exact highlightScore_interest|]. split; [|split].
  - exists (sortBy (compareHighlights localeCompare) (getTypesFromModule all m)).
    split; [apply sortBy_perm|]. split; [|reflexivity].
    change (compareHighlights localeCompare)
      with (lexCompare highlightScore name localeCompare).
    eapply StronglySorted_impl_rel; [|apply sortBy_lexBefore, Hlc].
    intros x y. unfold lexBefore. now rewrite !highlightScore_interest.
  - apply sliceMax1_length.
  - intros H. pose proof (sliceMax1_length hc
                            (sortBy (compareHighlights localeCompare)
                               (getTypesFromModule all m))) as B.
    simpl. lia.
Qed.

(** The module [types] of the tree with the embedded record, one highlight asked for. *)
Lemma summarizeModule_highlights_top_witness :
  ConsistentComparator codeUnitCompare /\
  (exists ordered,
      Permutation ordered (getTypesFromModule (extractAllTypes tree_embedding) (L "types")) /\
      StronglySorted (lexBefore interestScore name codeUnitCompare) ordered /\
      highlights (summarizeModule codeUnitCompare (extractAllTypes tree_embedding)
                    (L "types") 1)
      = firstn (Z.to_nat (Z.max 1 1)) ordered).
Proof.
  split; [exact codeUnitCompare_consistent|].
  exact (proj1 (proj2 (summarizeModule_highlights_top
                         (extractAllTypes tree_embedding) (L "types") 1
                         codeUnitCompare_consistent))).
Defined.

(** ** Sets *)

Lemma setHas_In (s : list str) (x : str) : setHas s x = true <-> In x s.
Proof.
  unfold setHas. rewrite existsb_exists. split.
  - intros [y [Hy E]]. apply str_eqb_eq in E. now subst.
  - intros H. exists x. split; [exact H | apply str_eqb_refl].
Qed.

Lemma setAdd_In (s : list str) (x y : str) : In y (setAdd s x) <-> In y s \/ y = x.
Proof.
  unfold setAdd. destruct (setHas s x) eqn:E.
  - apply setHas_In in E. split; [auto|]. intros [H| ->]; auto.
  - rewrite in_app_iff. simpl. intuition.
Qed.

Lemma setAdd_NoDup (s : list str) (x : str) : NoDup s -> NoDup (setAdd s x).
Proof.
  intros H. unfold setAdd. destruct (setHas s x) eqn:E; [exact H|].
  assert (N : ~ In x s) by (rewrite <- setHas_In; congruence).
  clear E. induction H as [|a s Ha Hs IH]; simpl.
  - constructor; [auto | constructor].
  - constructor.
    + rewrite in_app_iff. simpl. intros [F|[F|[]]]; [auto|]. subst. apply N. now left.
    + apply IH. intros F. apply N. now right.
Qed.

Lemma fold_setAdd_In (l s : list str) (y : str) :
  In y (fold_left setAdd l s) <-> In y s \/ In y l.
Proof.
  revert s. induction l as [|x l IH]; intros s; simpl; [tauto|].
  rewrite IH, setAdd_In. intuition.
Qed.

Lemma fold_setAdd_NoDup (l s : list str) : NoDup s -> NoDup (fold_left setAdd l s).
Proof.
  revert s. induction l as [|x l IH]; intros s H; simpl; [exact H|].
  apply IH, setAdd_NoDup, H.
Qed.

Lemma newSet_In (l : list str) (y : str) : In y (newSet l) <-> In y l.
Proof. unfold newSet. rewrite fold_setAdd_In. simpl. tauto. Qed.

Lemma newSet_NoDup (l : list str) : NoDup (newSet l).
Proof. apply fold_setAdd_NoDup. constructor. Qed.

(** ** The ranker *)

Lemma label_injective (s s' : Signal) : label s = label s' -> s = s'.
Proof.
  intros H. destruct s, s'; try reflexivity; vm_compute in H; discriminate.
Qed.

(** One turn of the loop over the terms adds the weights of the signals that
    count for the term and pushes their labels. *)
Lemma scoreTerm_fired (t : ExtractedType) (st : Tally) (term : str) :
  scoreTerm t st term =
  ((fst st + sumZ (map weight (firedSignals t term)))%Z,
   snd st ++ map label (firedSignals t term)).
Proof.
  destruct st as [sc labels].
  unfold scoreTerm, firedSignals, substringSignals, fieldMatches.
  destruct (str_eqb (toLowerCase (name t)) term); [reflexivity|].
  cbn [filter].
  destruct (includes (toLowerCase (name t)) term),
    (includes (toLowerCase (signature t)) term),
    (includes (toLowerCase (docsText t)) term),
    (includes (toLowerCase (file t)) term),
    (includes (toLowerCase (module t)) term),
    (includes (toLowerCase (kindName (kind t))) term);
    unfold hit; cbn [fst snd map sumZ fold_right weight];
    (apply f_equal2; [lia | rewrite <- ?app_assoc; try rewrite app_nil_r; reflexivity]).
Qed.

Lemma fold_scoreTerm (t : ExtractedType) (terms : list str) (st : Tally) :
  fold_left (scoreTerm t) terms st =
  ((fst st + sumZ (map (fun term => sumZ (map weight (firedSignals t term))) terms))%Z,
   snd st ++ flat_map (fun term => map label (firedSignals t term)) terms).
Proof.
  revert st. induction terms as [|term terms IH]; intros st; simpl.
  - rewrite Z.add_0_r, app_nil_r. now destruct st.
  - rewrite IH, scoreTerm_fired. cbn [fst snd]. f_equal; [lia|].
    now rewrite <- app_assoc.
Qed.

Lemma tally_eq (terms : list str) (t : ExtractedType) :
  tally terms t =
  (sumZ (map (fun term => sumZ (map weight (firedSignals t term))) terms),
   flat_map (fun term => map label (firedSignals t term)) terms).
Proof. unfold tally. rewrite fold_scoreTerm. reflexivity. Qed.

Lemma rankType_entry (terms : list str) (t : ExtractedType) (e : RankedTypeResult) :
  In e (rankType terms t) ->
  e = entryOf terms t /\ (terms = [] \/ (0 < score e)%Z).
Proof.
  unfold rankType. fold (tally terms t).
  destruct (Nat.eqb_spec (length terms) 0) as [E|E]; simpl.
  - intros [<-|[]]. split; [reflexivity|]. left. now destruct terms.
  - destruct (Z.ltb_spec 0 (fst (tally terms t))); [|intros []].
    intros [<-|[]]. split; [reflexivity|]. now right.
Qed.

Lemma rankType_kept (terms : list str) (t : ExtractedType) :
  (0 < fst (tally terms t))%Z -> rankType terms t = [entryOf terms t].
Proof.
  intros H. unfold rankType. fold (tally terms t).
  apply Z.ltb_lt in H. rewrite H, orb_true_r. reflexivity.
Qed.

Lemma In_firstn (A : Type) (n : nat) (l : list A) (x : A) : In x (firstn n l) -> In x l.
Proof.
  intros H. rewrite <- (firstn_skipn n l). apply in_or_app. now left.
Qed.

(** Every entry returned comes from a candidate that passed the filters. *)
Lemma searchByContext_entry (localeCompare : str -> str -> Z) (all : list ExtractedType)
  (query : str) (limit : Z) (filters : SearchFilters) (e : RankedTypeResult) :
  In e (searchByContext localeCompare all query limit filters) ->
  In (r_type e) (applyFilters filters all) /\
  e = entryOf (queryTerms query) (r_type e) /\
  (queryTerms query = [] \/ (0 < score e)%Z).
Proof.
  unfold searchByContext, sliceMax1. intros H.
  apply In_firstn, sortBy_In, in_flat_map in H as [t [Ht He]].
  apply rankType_entry in He as [-> Hs]. simpl. auto.
Qed.

(** The small index is the scan of the small tree. *)
Lemma index_small_scanned : extractAllTypes tree_small = index_small.
Proof. vm_compute. reflexivity. Qed.

(** ** C2: what a term adds to the score and to the labels *)

(** The claim as stated fails: for the query [client] the record [Client] is
    an exact match, its entry is returned, and the label [name] of the
    substring match is not among its labels. *)
Lemma searchByContext_exact_match_no_name_label :
  ~ (forall (localeCompare : str -> str -> Z) (all : list ExtractedType) (query : str)
       (limit : Z) (filters : SearchFilters) (e : RankedTypeResult) (term : str),
       In e (searchByContext localeCompare all query limit filters) ->
       In term (queryTerms query) ->
       toLowerCase (name (r_type e)) = term ->
       In (label NameSub) (matchedIn e)).
Proof.
  intros H.
  specialize (H codeUnitCompare index_small (L "client") 20%Z noFilters
                (entryOf [L "client"] d_client) (L "client")).
  assert (F : In (label NameSub) (matchedIn (entryOf [L "client"] d_client))).
  { apply H; vm_compute; auto. }
  vm_compute in F. destruct F as [F|[]]. discriminate F.
Qed.

(** C2, amended: for every query term and every candidate declaration, when
    the term equals the declaration's lower-cased name only the exact-match
    weight is added and only the label [name-exact] is recorded for that term
    (the substring checks are skipped for it); otherwise the term may match
    several of the six fields at once, and every matching field's weight is
    added to the score and its label recorded.  The labels of an entry are
    deduplicated. *)
Theorem searchByContext_term_scoring (localeCompare : str -> str -> Z)
  (all : list ExtractedType) (query : str) (limit : Z) (filters : SearchFilters)
  (e : RankedTypeResult) :
  In e (searchByContext localeCompare all query limit filters) ->
  score e
  = sumZ (map (fun term => sumZ (map weight (firedSignals (r_type e) term)))
            (queryTerms query)) /\
  (forall s, In (label s) (matchedIn e) <->
             exists term, In term (queryTerms query) /\ In s (firedSignals (r_type e) term)) /\
  NoDup (matchedIn e) /\
  (forall term, toLowerCase (name (r_type e)) = term ->
                firedSignals (r_type e) term = [NameExact]) /\
  (forall term, toLowerCase (name (r_type e)) <> term ->
                firedSignals (r_type e) term
                = filter (fun s => fieldMatches s (r_type e) term) substringSignals).
Proof.
  intros H. apply searchByContext_entry in H as [_ [E _]].
  destruct e as [t sc labels]. cbn [score matchedIn r_type] in *.
  unfold entryOf in E. injection E as -> ->.
  rewrite tally_eq. cbn [fst snd].
  split; [reflexivity|]. split; [|split; [apply newSet_NoDup|split]].
  - intros s. rewrite newSet_In, in_flat_map. split.
    + intros [term [Ht Hs]]. exists term. split; [exact Ht|].
      apply in_map_iff in Hs as [s' [Hl Hs']].
      apply label_injective in Hl. now subst.
    + intros [term [Ht Hs]]. exists term. split; [exact Ht|]. now apply in_map.
  - intros term Hn. unfold firedSignals. cbn [fieldMatches].
    apply str_eqb_eq in Hn. now rewrite Hn.
  - intros term Hn. unfold firedSignals. cbn [fieldMatches].
    apply str_eqb_neq in Hn. now rewrite Hn.
Qed.

(** The entry of the record [Client] for the query [client], in the small index. *)
Lemma searchByContext_term_scoring_witness :
  In (entryOf [L "client"] d_client)
    (searchByContext codeUnitCompare index_small (L "client") 20 noFilters) /\
  score (entryOf [L "client"] d_client)
  = sumZ (map (fun term => sumZ (map weight (firedSignals d_client term)))
            (queryTerms (L "client"))).
Proof.
  assert (H : In (entryOf [L "client"] d_client)
                (searchByContext codeUnitCompare index_small (L "client") 20 noFilters))
    by (vm_compute; auto).
  split; [exact H|].
  exact (proj1 (searchByContext_term_scoring _ _ _ _ _ _ H)).
Defined.

(** ** C3: the order of the weights and of the ranking *)

(** Whatever the collation, the sort puts the larger scores first. *)
Lemma ranked_sorted_by_score (localeCompare : str -> str -> Z) (l : list RankedTypeResult) :
  StronglySorted (fun x y => (score y <= score x)%Z) (sortBy (compareRanked localeCompare) l).
Proof.
  apply sortBy_sorted.
  - intros x y. unfold compareRanked.
    destruct (Z.eqb_spec (score y) (score x)); simpl; lia.
  - intros x y. unfold compareRanked.
    destruct (Z.eqb_spec (score y) (score x)); simpl; lia.
  - intros x y z. lia.
Qed.

Lemma ranked_higher_first (localeCompare : str -> str -> Z) (l : list RankedTypeResult)
  (i j : nat) (x y : RankedTypeResult) :
  nth_error (sortBy (compareRanked localeCompare) l) i = Some x ->
  nth_error (sortBy (compareRanked localeCompare) l) j = Some y ->
  (score y < score x)%Z -> i < j.
Proof.
  intros Hi Hj Hs. destruct (Nat.lt_trichotomy i j) as [H|[H|H]]; [exact H| |].
  - subst j. rewrite Hi in Hj. injection Hj as <-. lia.
  - pose proof (StronglySorted_nth (ranked_sorted_by_score localeCompare l) H Hj Hi).
    simpl in *. lia.
Qed.

(** A term found in the name brings 12 at least. *)
Lemma name_match_score (t : ExtractedType) (term : str) :
  fieldMatches NameSub t term = true -> (12 <= fst (tally [term] t))%Z.
Proof.
  intros H. rewrite tally_eq. cbn [fst map sumZ fold_right].
  unfold firedSignals, substringSignals. cbn [filter]. rewrite H.
  destruct (fieldMatches NameExact t term), (fieldMatches SignatureSub t term),
    (fieldMatches DocsSub t term), (fieldMatches FileSub t term),
    (fieldMatches ModuleSub t term), (fieldMatches KindSub t term);
    cbn [map sumZ fold_right weight]; lia.
Qed.

(** A term found in the file path and nowhere else brings 4. *)
Lemma file_only_score (t : ExtractedType) (term : str) :
  fieldMatches FileSub t term = true ->
  (forall s, fieldMatches s t term = true -> s = FileSub) ->
  fst (tally [term] t) = 4%Z.
Proof.
  intros H Only. rewrite tally_eq. cbn [fst map sumZ fold_right].
  unfold firedSignals, substringSignals. cbn [filter]. rewrite H.
  destruct (fieldMatches NameExact t term) eqn:E0;
    [specialize (Only _ E0); discriminate|].
  destruct (fieldMatches NameSub t term) eqn:E1;
    [specialize (Only _ E1); discriminate|].
  destruct (fieldMatches SignatureSub t term) eqn:E2;
    [specialize (Only _ E2); discriminate|].
  destruct (fieldMatches DocsSub t term) eqn:E3;
    [specialize (Only _ E3); discriminate|].
  destruct (fieldMatches ModuleSub t term) eqn:E4;
    [specialize (Only _ E4); discriminate|].
  destruct (fieldMatches KindSub t term) eqn:E5;
    [specialize (Only _ E5); discriminate|].
  reflexivity.
Qed.

Lemma rankType_length (terms : list str) (t : ExtractedType) : length (rankType terms t) <= 1.
Proof. unfold rankType. destruct (_ || _); simpl; lia. Qed.

Lemma flat_map_rankType_length (terms : list str) (l : list ExtractedType) :
  length (flat_map (rankType terms) l) <= length l.
Proof.
  induction l as [|t l IH]; simpl; [lia|].
  rewrite length_app. pose proof (rankType_length terms t). lia.
Qed.

Lemma filter_length_le (A : Type) (p : A -> bool) (l : list A) :
  length (filter p l) <= length l.
Proof. induction l as [|x l IH]; simpl; [lia|]. destruct (p x); simpl; lia. Qed.

Lemma applyFilters_length (filters : SearchFilters) (all : list ExtractedType) :
  length (applyFilters filters all) <= length all.
Proof.
  unfold applyFilters.
  assert (H : forall l (k : option ExtractedKind),
             length (match k with
                     | Some k' => filter (fun t => kind_eqb (kind t) k') l
                     | None => l
                     end) <= length l).
  { intros l [k'|]; [apply filter_length_le | lia]. }
  etransitivity; [apply H|].
  destruct (f_module filters) as [m|]; [|lia].
  destruct (truthy m); [apply filter_length_le | lia].
Qed.

(** C3: the weights are in the order name-exact > name > signature >
    module = documentation > file = kind; and for a query of one term, a
    candidate whose name contains the term (whatever else of it matches, so
    also one that matches only as a name substring) is ranked strictly before
    a candidate that matches only by its file path: at an earlier position
    whenever both are returned, returned whenever the other is, and both
    returned when the limit does not cut the list. *)
Theorem name_match_ranks_before_file_match (localeCompare : str -> str -> Z)
  (all : list ExtractedType) (query : str) (limit : Z) (filters : SearchFilters)
  (term : str) (a b : ExtractedType) :
  queryTerms query = [term] ->
  In a (applyFilters filters all) ->
  In b (applyFilters filters all) ->
  fieldMatches NameSub a term = true ->
  fieldMatches FileSub b term = true ->
  (forall s, fieldMatches s b term = true -> s = FileSub) ->
  ((weight NameExact > weight NameSub)%Z /\
   (weight NameSub > weight SignatureSub)%Z /\
   (weight SignatureSub > weight ModuleSub)%Z /\
   weight ModuleSub = weight DocsSub /\
   (weight DocsSub > weight FileSub)%Z /\
   weight FileSub = weight KindSub) /\
  (forall i j ea eb,
      nth_error (searchByContext localeCompare all query limit filters) i = Some ea ->
      r_type ea = a ->
      nth_error (searchByContext localeCompare all query limit filters) j = Some eb ->
      r_type eb = b ->
      i < j) /\
  ((exists eb, In eb (searchByContext localeCompare all query limit filters) /\ r_type eb = b) ->
   exists ea, In ea (searchByContext localeCompare all query limit filters) /\ r_type ea = a) /\
  ((Z.of_nat (length all) <= limit)%Z ->
   (exists ea, In ea (searchByContext localeCompare all query limit filters) /\ r_type ea = a) /\
   (exists eb, In eb (searchByContext localeCompare all query limit filters) /\ r_type eb = b)).
Proof.
  intros Hq Ha Hb Hname Hfile Honly.
  pose proof (name_match_score a term Hname) as Sa.
  pose proof (file_only_score b term Hfile Honly) as Sb.
  split; [cbn [weight]; lia|].
  assert (Score : forall e, In e (searchByContext localeCompare all query limit filters) ->
                            score e = fst (tally [term] (r_type e))).
  { intros e He. apply searchByContext_entry in He as [_ [E _]].
    rewrite Hq in E. rewrite E at 1. reflexivity. }
  set (ranked := flat_map (rankType [term]) (applyFilters filters all)).
  assert (Res : searchByContext localeCompare all query limit filters
                = firstn (Z.to_nat (Z.max 1 limit)) (sortBy (compareRanked localeCompare) ranked)).
  { unfold searchByContext, sliceMax1. now rewrite Hq. }
  assert (Ina : In (entryOf [term] a) (sortBy (compareRanked localeCompare) ranked)).
  { apply sortBy_In, in_flat_map. exists a. split; [exact Ha|].
    rewrite rankType_kept; [now left | lia]. }
  assert (Inb : In (entryOf [term] b) (sortBy (compareRanked localeCompare) ranked)).
  { apply sortBy_In, in_flat_map. exists b. split; [exact Hb|].
    rewrite rankType_kept; [now left | lia]. }
  split; [|split].
  - intros i j ea eb Hi Ea Hj Eb.
    pose proof (Score _ (nth_error_In _ _ Hi)) as Si.
    pose proof (Score _ (nth_error_In _ _ Hj)) as Sj.
    rewrite Ea in Si. rewrite Eb in Sj.
    rewrite Res, nth_error_firstn in Hi, Hj.
    destruct (i <? Z.to_nat (Z.max 1 limit)); [|discriminate].
    destruct (j <? Z.to_nat (Z.max 1 limit)); [|discriminate].
    eapply ranked_higher_first; [exact Hi | exact Hj | lia].
  - intros [eb [Heb Eb]].
    pose proof (Score _ Heb) as Sj. rewrite Eb in Sj.
    apply In_nth_error in Heb as [j Hj].
    rewrite Res, nth_error_firstn in Hj.
    destruct (Nat.ltb_spec j (Z.to_nat (Z.max 1 limit))) as [Hjk|]; [|discriminate].
    apply In_nth_error in Ina as [i Hi].
    assert (Hij : i < j).
    { eapply ranked_higher_first; [exact Hi | exact Hj |]. cbn [entryOf score]. lia. }
    exists (entryOf [term] a). split; [|reflexivity].
    apply nth_error_In with i. rewrite Res, nth_error_firstn.
    destruct (Nat.ltb_spec i (Z.to_nat (Z.max 1 limit))); [exact Hi | lia].
  - intros Hl.
    assert (All : searchByContext localeCompare all query limit filters
                  = sortBy (compareRanked localeCompare) ranked).
    { rewrite Res. apply firstn_all2.
      rewrite (Permutation_length (sortBy_perm (compareRanked localeCompare) ranked)).
      pose proof (flat_map_rankType_length [term] (applyFilters filters all)).
      pose proof (applyFilters_length filters all). fold ranked in H. lia. }
    rewrite All. split.
    + exists (entryOf [term] a). now split.
    + exists (entryOf [term] b). now split.
Qed.

(** The query [conn] on the small index: [Connect] has the term in its name,
    [Dial] only in its file path. *)
Lemma name_match_ranks_before_file_match_witness :
  queryTerms (L "conn") = [L "conn"] /\
  In d_connect (applyFilters noFilters index_small) /\
  In d_dial (applyFilters noFilters index_small) /\
  fieldMatches NameSub d_connect (L "conn") = true /\
  fieldMatches FileSub d_dial (L "conn") = true /\
  (forall s, fieldMatches s d_dial (L "conn") = true -> s = FileSub) /\
  (forall i j ea eb,
      nth_error (searchByContext codeUnitCompare index_small (L "conn") 20 noFilters) i
      = Some ea ->
      r_type ea = d_connect ->
      nth_error (searchByContext codeUnitCompare index_small (L "conn") 20 noFilters) j
      = Some eb ->
      r_type eb = d_dial ->
      i < j).
Proof.
  assert (Hq : queryTerms (L "conn") = [L "conn"]) by (vm_compute; reflexivity).
  assert (Ha : In d_connect (applyFilters noFilters index_small)) by (vm_compute; auto).
  assert (Hb : In d_dial (applyFilters noFilters index_small)) by (vm_compute; auto).
  assert (Hn : fieldMatches NameSub d_connect (L "conn") = true) by (vm_compute; reflexivity).
  assert (Hf : fieldMatches FileSub d_dial (L "conn") = true) by (vm_compute; reflexivity).
  assert (Ho : forall s, fieldMatches s d_dial (L "conn") = true -> s = FileSub).
  { intros s. destruct s; vm_compute; intros E; (reflexivity || discriminate E). }
  repeat (split; [assumption|]).
  exact (proj1 (proj2 (@name_match_ranks_before_file_match codeUnitCompare index_small
                         (L "conn") 20%Z noFilters (L "conn") d_connect d_dial
                         Hq Ha Hb Hn Hf Ho))).
Defined.

(** ** C8: the ranking and the order of the input *)

Lemma Permutation_filter (A : Type) (p : A -> bool) (l l' : list A) :
  Permutation l l' -> Permutation (filter p l) (filter p l').
Proof.
  induction 1 as [|x l l' _ IH|x y l|l l' l'' _ IH1 _ IH2]; simpl.
  - constructor.
  - destruct (p x); [now constructor | exact IH].
  - destruct (p x), (p y); try reflexivity. apply perm_swap.
  - etransitivity; eassumption.
Qed.

Lemma applyFilters_Permutation (filters : SearchFilters) (l l' : list ExtractedType) :
  Permutation l l' -> Permutation (applyFilters filters l) (applyFilters filters l').
Proof.
  intros P. unfold applyFilters.
  assert (P1 : Permutation
                 (match f_module filters with
                  | Some m =>
                      if truthy m
                      then filter (fun t => str_eqb (toLowerCase (module t)) (toLowerCase m)) l
                      else l
                  | None => l
                  end)
                 (match f_module filters with
                  | Some m =>
                      if truthy m
                      then filter (fun t => str_eqb (toLowerCase (module t)) (toLowerCase m)) l'
                      else l'
                  | None => l'
                  end)).
  { destruct (f_module filters) as [m|]; [|exact P].
    destruct (truthy m); [now apply Permutation_filter | exact P]. }
  destruct (f_kind filters); [now apply Permutation_filter | exact P1].
Qed.

(** The claim as stated fails: two methods named [String] both match the
    query [string] exactly, tie on score and on name, and come out in the
    order they came in. *)
Lemma searchByContext_order_dependent :
  ~ (forall (localeCompare : str -> str -> Z) (all all' : list ExtractedType)
       (query : str) (limit : Z) (filters : SearchFilters),
       ConsistentComparator localeCompare ->
       Permutation all all' ->
       searchByContext localeCompare all query limit filters
       = searchByContext localeCompare all' query limit filters).
Proof.
  intros H.
  specialize (H codeUnitCompare [d_string_jid; d_string_msg] [d_string_msg; d_string_jid]
                (L "string") 20%Z noFilters codeUnitCompare_consistent (perm_swap _ _ _)).
  apply (f_equal (map (fun e => file (r_type e)))) in H.
  vm_compute in H. discriminate H.
Qed.

(** The same two inputs under any collation at all: the comparator is asked
    about two equal names, and whatever it answers the two outputs differ. *)
Lemma same_name_tie_any_collation (localeCompare : str -> str -> Z) :
  map (fun e => file (r_type e))
    (searchByContext localeCompare [d_string_jid; d_string_msg] (L "string") 20 noFilters)
  <> map (fun e => file (r_type e))
       (searchByContext localeCompare [d_string_msg; d_string_jid] (L "string") 20 noFilters).
Proof.
  vm_compute. destruct (localeCompare _ _); discriminate.
Qed.


(** ** Blocks *)

Lemma captureLoop_spec (open close : ascii) (rest : list str) (index : nat)
  (st : Z * bool) (chunk : list str) :
  match captureLoop open close rest index st chunk with
  | (c, Some e) =>
      exists n, n < length rest /\ e = index + n /\ c = chunk ++ firstn (S n) rest
  | (c, None) => c = chunk ++ rest
  end.
Proof.
  revert index st chunk. induction rest as [|line rest IH]; intros index st chunk.
  - simpl. now rewrite app_nil_r.
  - cbn [captureLoop].
    destruct (snd (countDelims open close line st)
              && (fst (countDelims open close line st) =? 0)%Z).
    + exists 0. simpl. split; [lia|]. split; [lia|reflexivity].
    + specialize (IH (S index) (countDelims open close line st) (chunk ++ [line])).
      destruct (captureLoop open close rest (S index) (countDelims open close line st)
                  (chunk ++ [line])) as [c [e|]].
      * destruct IH as [n [Hn [He Hc]]]. exists (S n). simpl. split; [lia|].
        split; [lia|]. rewrite Hc, <- app_assoc. reflexivity.
      * rewrite IH, <- app_assoc. reflexivity.
  Qed.


Lemma captureDelimited_endLine (open close : ascii) (lines : list str) (startLine : nat) :
  startLine < length lines ->
  startLine <= endLine (captureDelimited open close lines startLine).
Proof.
  intros H. unfold captureDelimited.
  pose proof (captureLoop_spec open close (skipn startLine lines) startLine (0%Z, false) [])
    as Spec.
  destruct (captureLoop open close (skipn startLine lines) startLine (0%Z, false) [])
    as [c [e|]]; simpl.
  - destruct Spec as [n [_ [-> _]]]. lia.
  - lia.
Qed.

(** ** The turns of the scanner *)

Lemma flat_map_nil (A B : Type) (f : A -> list B) (l : list A) :
  (forall x, In x l -> f x = []) -> flat_map f l = [].
Proof.
  induction l as [|x l IH]; intros H; simpl; [reflexivity|].
  rewrite (H x) by now left. apply IH. intros y Hy. apply H. now right.
Qed.

(** A case for every test a turn makes. *)
Ltac destruct_matches :=
  repeat match goal with
         | |- context [match ?x with _ => _ end] => destruct x eqn:?
         end.

Ltac scanLine_cases := unfold scanLine; destruct_matches.

Lemma nonblank_in_range (lines : list str) (index : nat) :
  truthy (trim (nth index lines [])) = true -> index < length lines.
Proof.
  intros H. destruct (Nat.lt_ge_cases index (length lines)) as [L|G]; [exact L|].
  rewrite (nth_overflow _ _ G) in H. discriminate.
Qed.

Section ScannerFacts.

(** The path and the module of the file being scanned. *)
Variable rf : str.
Variable mn : str.

(** A turn never ends before the line it started on. *)
Lemma scanLine_snd_ge (lines : list str) (index : nat) :
  index <= snd (scanLine rf mn lines index).
Proof.
  destruct (truthy (trim (nth index lines []))) eqn:T.
  - apply nonblank_in_range in T.
    scanLine_cases; cbn [snd]; try lia;
      apply captureDelimited_endLine; exact T.
  - unfold scanLine. rewrite T. simpl. lia.
Qed.

Lemma turnIndex_lt_S (lines : list str) (k : nat) : turnIndex rf mn lines k < turnIndex rf mn lines (S k).
Proof. cbn [turnIndex]. pose proof (scanLine_snd_ge lines (turnIndex rf mn lines k)). lia. Qed.

Lemma turnIndex_mono (lines : list str) (k k' : nat) :
  k < k' -> turnIndex rf mn lines k < turnIndex rf mn lines k'.
Proof.
  induction 1 as [|k' _ IH].
  - apply turnIndex_lt_S.
  - pose proof (turnIndex_lt_S lines k'). lia.
Qed.

Lemma turnIndex_ge (lines : list str) (k : nat) : k <= turnIndex rf mn lines k.
Proof.
  induction k as [|k IH]; [simpl; lia|].
  pose proof (turnIndex_lt_S lines k). lia.
Qed.

(** The loop, turn by turn: with fuel enough to reach the end of the lines it
    pushes what each turn inside the file pushes, in order. *)
Lemma scanLoop_turns (lines : list str) (fuel k : nat) :
  length lines <= fuel + turnIndex rf mn lines k ->
  scanLoop rf mn fuel lines (turnIndex rf mn lines k) =
  flat_map (fun k' => if turnIndex rf mn lines k' <? length lines
                      then fst (scanLine rf mn lines (turnIndex rf mn lines k')) else [])
    (seq k fuel).
Proof.
  revert k. induction fuel as [|fuel IH]; intros k H; [reflexivity|].
  cbn [scanLoop seq flat_map].
  destruct (Nat.ltb_spec (turnIndex rf mn lines k) (length lines)) as [L|G].
  - destruct (scanLine rf mn lines (turnIndex rf mn lines k)) as [pushed index'] eqn:E.
    cbn [fst]. f_equal.
    replace (S index') with (turnIndex rf mn lines (S k))
      by (cbn [turnIndex]; now rewrite E).
    apply IH. pose proof (turnIndex_lt_S lines k). lia.
  - simpl. symmetry. apply flat_map_nil.
    intros k' Hk'. apply in_seq in Hk'.
    destruct (Nat.ltb_spec (turnIndex rf mn lines k') (length lines)) as [L'|]; [|reflexivity].
    assert (turnIndex rf mn lines k < turnIndex rf mn lines k') by (apply turnIndex_mono; lia). lia.
Qed.

(** What the scanner returns for a file is what the turns inside the file
    push. *)
Lemma extractFromLines_In (lines : list str) (d : ExtractedType) :
  In d (extractFromLines rf mn lines) <->
  exists k, turnIndex rf mn lines k < length lines /\
            In d (fst (scanLine rf mn lines (turnIndex rf mn lines k))).
Proof.
  unfold extractFromLines.
  change 0 with (turnIndex rf mn lines 0) at 1.
  rewrite scanLoop_turns by (simpl; lia). rewrite in_flat_map. split.
  - intros [k [_ H]].
    destruct (Nat.ltb_spec (turnIndex rf mn lines k) (length lines)); [|destruct H].
    now exists k.
  - intros [k [L H]]. exists k. split.
    + apply in_seq. pose proof (turnIndex_ge lines k). lia.
    + apply Nat.ltb_lt in L. now rewrite L.
Qed.

End ScannerFacts.

(** ** C7: line numbers *)

(** The line number of a member of a grouped block is its index in the text
    of the block, plus one: it never exceeds the number of lines of the
    block, wherever the block is in the file. *)
Lemma blockDeclarations_lineNumber (rf mn : str) (k : ExtractedKind) (d0 : option str)
  (blockText : str) (d : ExtractedType) :
  In d (blockDeclarations rf mn k d0 blockText) ->
  exists i, 1 <= i /\ i + 1 < length (splitLines blockText) /\
            lineNumber d = Some (i + 1) /\
            signature d = trim (rxRemove R_trailingComment (nth i (splitLines blockText) [])).
Proof.
  unfold blockDeclarations, parseConstVarBlockMembers. intros H.
  apply in_flat_map in H as [m [Hm Hd]].
  apply in_flat_map in Hm as [i [Hi Hm]]. apply in_seq in Hi.
  unfold parseBlockMemberAt in Hm.
  destruct (negb (truthy (trim (rxRemove R_trailingComment (nth i (splitLines blockText) [])))));
    [destruct Hm|].
  destruct (rxMatch R_blockMember _); [|destruct Hm].
  destruct Hm as [<-|[]]. cbn [m_name m_signature m_value m_lineNumber] in Hd.
  destruct (negb (rxTest R_capitalStart _)); [destruct Hd|].
  destruct Hd as [<-|[]]. exists i. cbn [lineNumber signature declaration].
  repeat split; lia.
Qed.

(** Outside the grouped blocks the line number is the line of the file. *)
Lemma line_declaration_lineNumber (rf mn : str) (lines : list str) (index : nat)
  (d : ExtractedType) :
  rxTest R_constBlock (trim (nth index lines [])) = false ->
  rxTest R_varBlock (trim (nth index lines [])) = false ->
  In d (fst (scanLine rf mn lines index)) ->
  lineNumber d = Some (index + 1).
Proof.
  intros Hc Hv. unfold scanLine. rewrite Hc, Hv.
  destruct_matches;
    cbn [fst]; intros H; try destruct H as [<-|[]]; try destruct H; reflexivity.
Qed.

(** C7, at a grouped block that does not start on the first line of its file:
    the two constants stand on lines 6 and 7 of the file, and the scanner
    gives them the line numbers 3 and 4, their places in the block. *)
Theorem block_member_lineNumber_is_block_relative :
  nth_error (splitLines file_presence) 5 = Some (L "	PresenceAvailable = 1") /\
  nth_error (splitLines file_presence) 6 = Some (L "	PresenceUnavailable = 2") /\
  map (fun d => (name d, kind d, lineNumber d))
    (extractFromContent (L "types/presence.go") file_presence)
  = [ (L "PresenceAvailable", K_const, Some 3); (L "PresenceUnavailable", K_const, Some 4) ].
Proof. repeat split; vm_compute; reflexivity. Qed.

(** ** C10: the documentation of the members of a grouped block *)

Lemma constBlock_first_char (s : str) :
  rxTest R_constBlock s = true -> exists s', s = "c"%char :: s'.
Proof.
  destruct s as [|c s']; [discriminate|].
  unfold rxTest, matchStart, R_constBlock.
  cbn [rmatch RCat lit RLit L list_ascii_of_string].
  destruct (isChar "c" c) eqn:E; [|discriminate].
  intros _. apply Ascii.eqb_eq in E. subst. eauto.
Qed.

Lemma varBlock_first_char (s : str) :
  rxTest R_varBlock s = true -> exists s', s = "v"%char :: s'.
Proof.
  destruct s as [|c s']; [discriminate|].
  unfold rxTest, matchStart, R_varBlock.
  cbn [rmatch RCat lit RLit L list_ascii_of_string].
  destruct (isChar "v" c) eqn:E; [|discriminate].
  intros _. apply Ascii.eqb_eq in E. subst. eauto.
Qed.

(** On a line that opens a grouped block the turn is the block's turn. *)
Lemma scanLine_block (rf mn : str) (lines : list str) (index : nat) (k : ExtractedKind) :
  (k = K_const /\ rxTest R_constBlock (trim (nth index lines [])) = true) \/
  (k = K_variable /\ rxTest R_varBlock (trim (nth index lines [])) = true) ->
  scanLine rf mn lines index =
  (blockDeclarations rf mn k (extractDocAbove lines index)
     (text (captureParenBlock lines index)),
   endLine (captureParenBlock lines index)).
Proof.
  intros [[-> H]|[-> H]]; unfold scanLine.
  - rewrite H. destruct (constBlock_first_char _ H) as [s' E]. rewrite E.
    change (rxMatch R_interface ("c"%char :: s')) with (@None captures).
    change (rxMatch R_struct ("c"%char :: s')) with (@None captures).
    change (rxMatch R_type ("c"%char :: s')) with (@None captures).
    change (rxMatch R_method ("c"%char :: s')) with (@None captures).
    change (rxMatch R_function ("c"%char :: s')) with (@None captures).
    cbn [truthy negb]. now destruct (_ && _).
  - rewrite H. destruct (varBlock_first_char _ H) as [s' E]. rewrite E.
    change (rxMatch R_interface ("v"%char :: s')) with (@None captures).
    change (rxMatch R_struct ("v"%char :: s')) with (@None captures).
    change (rxMatch R_type ("v"%char :: s')) with (@None captures).
    change (rxMatch R_method ("v"%char :: s')) with (@None captures).
    change (rxMatch R_function ("v"%char :: s')) with (@None captures).
    change (rxTest R_constBlock ("v"%char :: s')) with false.
    cbn [truthy negb]. now destruct (_ && _).
Qed.

Lemma blockDeclarations_docs (rf mn : str) (k : ExtractedKind) (d0 : option str)
  (blockText : str) (d : ExtractedType) :
  In d (blockDeclarations rf mn k d0 blockText) -> kind d = k /\ docs d = d0.
Proof.
  unfold blockDeclarations. intros H. apply in_flat_map in H as [m [_ Hd]].
  destruct (negb (rxTest R_capitalStart (m_name m))); [destruct Hd|].
  destruct Hd as [<-|[]]. now split.
Qed.

(** C10: on a line that opens a grouped const or var block the scanner pushes
    the exported members of the block, all of them in that one turn, each
    with the documentation collected above the opening line of the block; so
    any two of them carry the same documentation, and since the scan goes on
    after the last line of the block no line inside it gets a turn, and a
    documentation, of its own. *)
Theorem grouped_block_members_share_docs (rf mn : str) (lines : list str) (index : nat)
  (k : ExtractedKind) :
  (k = K_const /\ rxTest R_constBlock (trim (nth index lines [])) = true) \/
  (k = K_variable /\ rxTest R_varBlock (trim (nth index lines [])) = true) ->
  scanLine rf mn lines index =
    (blockDeclarations rf mn k (extractDocAbove lines index)
       (text (captureParenBlock lines index)),
     endLine (captureParenBlock lines index)) /\
  (forall d, In d (fst (scanLine rf mn lines index)) ->
             kind d = k /\ docs d = extractDocAbove lines index) /\
  (forall d1 d2, In d1 (fst (scanLine rf mn lines index)) ->
                 In d2 (fst (scanLine rf mn lines index)) ->
                 docs d1 = docs d2) /\
  (forall j t, turnIndex rf mn lines t = index ->
               ~ (index < turnIndex rf mn lines j
                  <= endLine (captureParenBlock lines index))).
Proof.
  intros H. pose proof (scanLine_block rf mn lines index H) as E.
  split; [exact E|]. rewrite E. cbn [fst].
  split; [|split].
  - intros d. apply blockDeclarations_docs.
  - intros d1 d2 H1 H2.
    apply blockDeclarations_docs in H1 as [_ ->].
    apply blockDeclarations_docs in H2 as [_ ->]. reflexivity.
  - intros j t Ht [L U].
    destruct (Nat.lt_ge_cases t j) as [Lt|Ge].
    + assert (M : turnIndex rf mn lines (S t) <= turnIndex rf mn lines j).
      { destruct (Nat.eq_dec (S t) j) as [<-|N]; [lia|].
        apply Nat.lt_le_incl, turnIndex_mono. lia. }
      cbn [turnIndex] in M. rewrite Ht, E in M. cbn [snd] in M. lia.
    + assert (M : turnIndex rf mn lines j <= turnIndex rf mn lines t).
      { destruct (Nat.eq_dec j t) as [<-|N]; [lia|].
        apply Nat.lt_le_incl, turnIndex_mono. lia. }
      lia.
Qed.

(** The grouped block of [file_presence], which opens on the fourth line: both
    members carry the comment above the block, and the comment inside the
    block goes to neither. *)
Lemma grouped_block_members_share_docs_witness :
  rxTest R_constBlock (trim (nth 3 (splitLines file_presence) [])) = true /\
  map name (fst (scanLine (L "types/presence.go") (L "types") (splitLines file_presence) 3))
  = [L "PresenceAvailable"; L "PresenceUnavailable"] /\
  extractDocAbove (splitLines file_presence) 3 = Some (L "Presence values.") /\
  (forall d,
      In d (fst (scanLine (L "types/presence.go") (L "types") (splitLines file_presence) 3)) ->
      kind d = K_const /\ docs d = extractDocAbove (splitLines file_presence) 3).
Proof.
  assert (H : rxTest R_constBlock (trim (nth 3 (splitLines file_presence) [])) = true)
    by (vm_compute; reflexivity).
  split; [exact H|]. split; [vm_compute; reflexivity|]. split; [vm_compute; reflexivity|].
  exact (proj1 (proj2 (@grouped_block_members_share_docs (L "types/presence.go") (L "types")
                         (splitLines file_presence) 3 K_const
                         (or_introl (conj eq_refl H))))).
Defined.

(** ** Lines joined and split again *)

Lemma splitLinesAux_noLF (s cur : str) :
  Forall (fun c => isChar LF c = false) cur ->
  Forall (Forall (fun c => isChar LF c = false)) (splitLinesAux cur s).
Proof.
  revert cur.
  induction s as [s IH] using (induction_ltof1 _ (@length ascii)).
  unfold ltof in IH. intros cur Hcur. destruct s as [|c s]; simpl.
  - constructor; [now apply Forall_rev | constructor].
  - destruct (isChar LF c) eqn:E.
    + constructor; [now apply Forall_rev|]. apply IH; simpl; auto.
    + destruct (isChar CR c).
      * destruct s as [|d s]; [apply IH; simpl; auto|].
        destruct (isChar LF d).
        -- constructor; [now apply Forall_rev|]. apply IH; simpl; auto.
        -- apply IH; simpl; auto.
      * apply IH; simpl; auto.
Qed.

(** The lines of a file hold no line feed. *)
Lemma splitLines_noLF (s : str) :
  Forall (Forall (fun c => isChar LF c = false)) (splitLines s).
Proof. apply splitLinesAux_noLF. constructor. Qed.

Lemma splitLinesAux_last (l cur : str) :
  Forall (fun c => isChar LF c = false) l ->
  splitLinesAux cur l = [rev cur ++ l].
Proof.
  revert cur. induction l as [|c l IH]; intros cur H; simpl.
  - now rewrite app_nil_r.
  - inversion H as [|? ? Hc Hl]; subst. rewrite Hc.
    assert (E : splitLinesAux (c :: cur) l = [rev cur ++ c :: l]).
    { rewrite IH by exact Hl. simpl. now rewrite <- app_assoc. }
    destruct (isChar CR c); [|exact E].
    destruct l as [|d l]; [exact E|].
    inversion Hl as [|? ? Hd _]; subst. rewrite Hd. exact E.
Qed.

Lemma splitLinesAux_line (l cur rest : str) :
  Forall (fun c => isChar LF c = false) l ->
  splitLinesAux cur (l ++ LF :: rest) = (rev cur ++ chopCR l) :: splitLinesAux [] rest.
Proof.
  revert cur. induction l as [|c l IH]; intros cur H.
  - simpl. change (isChar LF LF) with true. cbn iota. now rewrite app_nil_r.
  - inversion H as [|? ? Hc Hl]; subst.
    cbn [app splitLinesAux]. rewrite Hc.
    destruct l as [|d l].
    + pose proof (IH (c :: cur) Hl) as E. cbn [app chopCR rev] in E.
      cbn [app chopCR]. change (isChar LF LF) with true. cbn iota.
      destruct (isChar CR c).
      * now rewrite app_nil_r.
      * rewrite E. now rewrite app_nil_r.
    + inversion Hl as [|? ? Hd _]; subst.
      cbn [app]. rewrite Hd.
      assert (E : splitLinesAux (c :: cur) (d :: l ++ LF :: rest)
                  = (rev cur ++ chopCR (c :: d :: l)) :: splitLinesAux [] rest).
      { change (d :: l ++ LF :: rest) with ((d :: l) ++ LF :: rest).
        rewrite (IH (c :: cur) Hl). cbn [rev]. rewrite <- app_assoc. reflexivity. }
      destruct (isChar CR c); exact E.
Qed.

Lemma splitLines_join (chunk : list str) (x : str) :
  Forall (Forall (fun c => isChar LF c = false)) (x :: chunk) ->
  splitLines (join [LF] (x :: chunk))
  = map chopCR (removelast (x :: chunk)) ++ [last (x :: chunk) []].
Proof.
  revert x. induction chunk as [|y chunk IH]; intros x H.
  - inversion H; subst. unfold splitLines. cbn [join removelast map last app].
    now rewrite splitLinesAux_last.
  - inversion H as [|? ? Hx Hr]; subst.
    change (join [LF] (x :: y :: chunk)) with (x ++ [LF] ++ join [LF] (y :: chunk)).
    unfold splitLines. cbn [app]. rewrite splitLinesAux_line by exact Hx.
    fold (splitLines (join [LF] (y :: chunk))). rewrite (IH y Hr).
    reflexivity.
Qed.


Lemma dropWhile_snoc (A : Type) (p : A -> bool) (x : list A) (c : A) :
  p c = true ->
  (dropWhile p (x ++ [c]) = [] /\ dropWhile p x = []) \/
  dropWhile p (x ++ [c]) = dropWhile p x ++ [c].
Proof.
  intros H. induction x as [|a x IH]; simpl.
  - rewrite H. now left.
  - destruct (p a); [exact IH | now right].
Qed.

Lemma chopCR_cases (l : str) : chopCR l = l \/ l = chopCR l ++ [CR].
Proof.
  induction l as [|c l IH]; [now left|].
  destruct l as [|d l].
  - cbn [chopCR]. destruct (isChar CR c) eqn:E; [|now left].
    right. apply Ascii.eqb_eq in E. now subst.
  - change (chopCR (c :: d :: l)) with (c :: chopCR (d :: l)).
    destruct IH as [-> | E]; [now left|]. right. cbn [app]. f_equal. exact E.
Qed.

Lemma trim_chopCR (l : str) : trim (chopCR l) = trim l.
Proof.
  destruct (chopCR_cases l) as [-> | E]; [reflexivity|].
  rewrite E at 2. unfold trim.
  destruct (dropWhile_snoc isSpace (chopCR l) CR eq_refl) as [[-> ->] | ->].
  - reflexivity.
  - rewrite rev_app_distr. reflexivity.
Qed.

(** ** The interior lines of a block *)



Lemma skipn_nth (A : Type) (d : A) (l : list A) (n : nat) :
  n < length l -> skipn n l = nth n l d :: skipn (S n) l.
Proof.
  revert l. induction n as [|n IH]; intros [|x l] H; simpl in H; try lia.
  - reflexivity.
  - cbn [skipn nth]. apply IH. lia.
Qed.





(** ** Maps *)

Lemma mapGet_mapSet (V : Type) (m : list (str * V)) (k : str) (v : V) (k' : str) :
  mapGet (mapSet m k v) k' = if str_eqb k k' then Some v else mapGet m k'.
Proof.
  induction m as [|[k0 w] m IH]; simpl; [reflexivity|].
  destruct (str_eqb k0 k) eqn:E0; simpl.
  - apply str_eqb_eq in E0. subst k0. now destruct (str_eqb k k').
  - rewrite IH. destruct (str_eqb k0 k') eqn:E1; [|reflexivity].
    apply str_eqb_eq in E1. subst k'.
    destruct (str_eqb k k0) eqn:E2; [|reflexivity].
    apply str_eqb_eq in E2. subst k0. rewrite str_eqb_refl in E0. discriminate.
Qed.

Lemma mapSet_keys (V : Type) (m : list (str * V)) (k : str) (v : V) (k' : str) :
  In k' (map fst (mapSet m k v)) <-> k' = k \/ In k' (map fst m).
Proof.
  induction m as [|[k0 w] m IH]; simpl; [intuition|].
  destruct (str_eqb k0 k) eqn:E0; simpl.
  - apply str_eqb_eq in E0. subst k0. intuition.
  - rewrite IH. intuition.
Qed.

Lemma mapSet_NoDup (V : Type) (m : list (str * V)) (k : str) (v : V) :
  NoDup (map fst m) -> NoDup (map fst (mapSet m k v)).
Proof.
  induction m as [|[k0 w] m IH]; simpl; intros H.
  - constructor; [auto | constructor].
  - inversion H as [|? ? Hk Hm]; subst.
    destruct (str_eqb k0 k) eqn:E0; simpl.
    + now constructor.
    + constructor; [|now apply IH].
      rewrite mapSet_keys. intros [F|F]; [|contradiction].
      subst k0. rewrite str_eqb_refl in E0. discriminate.
Qed.

Lemma In_mapGet (V : Type) (m : list (str * V)) (k : str) (v : V) :
  NoDup (map fst m) -> In (k, v) m -> mapGet m k = Some v.
Proof.
  induction m as [|[k0 w] m IH]; simpl; intros H I; [destruct I|].
  destruct I as [E|I].
  - injection E as -> ->. now rewrite str_eqb_refl.
  - inversion H as [|? ? Hk Hm]; subst.
    destruct (str_eqb k0 k) eqn:E0; [|now apply IH].
    apply str_eqb_eq in E0. subst k0. exfalso. apply Hk.
    apply in_map_iff. now exists (k, v).
Qed.

(** ** C6: the exports and imports of a module *)

(** The loop of [extractImports] reads one line at least per turn, so the
    number of lines is fuel enough: more fuel changes nothing. *)
Lemma importLoop_fuel (n fuel1 fuel2 : nat) (rest : list str) :
  length rest <= n -> n <= fuel1 -> n <= fuel2 ->
  importLoop fuel1 rest = importLoop fuel2 rest.
Proof.
  revert fuel1 fuel2 rest.
  induction n as [|n IH]; intros fuel1 fuel2 rest Hl H1 H2.
  - destruct rest; [|simpl in Hl; lia]. now destruct fuel1, fuel2.
  - destruct rest as [|raw rest]; [now destruct fuel1, fuel2|].
    destruct fuel1 as [|fuel1]; [lia|]. destruct fuel2 as [|fuel2]; [lia|].
    simpl in Hl. cbn [importLoop].
    destruct (rxMatch R_importSingle (trim raw)).
    + f_equal. apply IH; lia.
    + destruct (rxTest R_importBlock (trim raw)); [|apply IH; lia].
      destruct (importBlockLoop rest 0) as [found [read|]].
      * f_equal. apply IH; try lia. rewrite length_skipn. lia.
      * f_equal. apply IH; lia.
Qed.

Lemma addFile_NoDup (m : list (str * ModuleEntry)) (f : str * str) :
  NoDup (map fst m) -> NoDup (map fst (addFile m f)).
Proof.
  intros H. unfold addFile.
  destruct (negb (mapHas m (getModuleName (fst f)))).
  - destruct (mapGet _ _); [apply mapSet_NoDup|]; now apply mapSet_NoDup.
  - destruct (mapGet _ _); [now apply mapSet_NoDup | exact H].
Qed.

Lemma addExport_NoDup (m : list (str * ModuleEntry)) (t : ExtractedType) :
  NoDup (map fst m) -> NoDup (map fst (addExport m t)).
Proof.
  intros H. unfold addExport.
  destruct (mapGet _ _); [now apply mapSet_NoDup | exact H].
Qed.

Lemma fold_addFile_NoDup (files : SourceTree) (m : list (str * ModuleEntry)) :
  NoDup (map fst m) -> NoDup (map fst (fold_left addFile files m)).
Proof.
  revert m. induction files as [|f files IH]; intros m H; simpl; [exact H|].
  apply IH, addFile_NoDup, H.
Qed.

Lemma fold_addExport_NoDup (types : list ExtractedType) (m : list (str * ModuleEntry)) :
  NoDup (map fst m) -> NoDup (map fst (fold_left addExport types m)).
Proof.
  revert m. induction types as [|t types IH]; intros m H; simpl; [exact H|].
  apply IH, addExport_NoDup, H.
Qed.

(** What a file does to the entry of a module. *)
Lemma mapGet_addFile (m : list (str * ModuleEntry)) (f : str * str) (k : str) :
  mapGet (addFile m f) k =
  if str_eqb (getModuleName (fst f)) k then
    Some {| e_imports :=
              fold_left setAdd (extractImports (snd f))
                (e_imports (match mapGet m k with Some e => e | None => emptyEntry end));
            e_exports :=
              e_exports (match mapGet m k with Some e => e | None => emptyEntry end) |}
  else mapGet m k.
Proof.
  unfold addFile, mapHas.
  destruct (str_eqb (getModuleName (fst f)) k) eqn:E.
  - apply str_eqb_eq in E. rewrite E.
    destruct (mapGet m k) as [e|] eqn:G; cbn [negb].
    + rewrite G, mapGet_mapSet, str_eqb_refl. reflexivity.
    + rewrite mapGet_mapSet, str_eqb_refl. cbn iota beta.
      rewrite mapGet_mapSet, str_eqb_refl. reflexivity.
  - destruct (mapGet m (getModuleName (fst f))) as [e|] eqn:G; cbn [negb].
    + rewrite G, mapGet_mapSet, E. reflexivity.
    + rewrite mapGet_mapSet, str_eqb_refl. cbn iota beta.
      rewrite !mapGet_mapSet, E. reflexivity.
Qed.

Lemma mapGet_fold_addFile (files : SourceTree) (m : list (str * ModuleEntry)) (k : str)
  (e : ModuleEntry) :
  mapGet (fold_left addFile files m) k = Some e ->
  e_imports e
  = fold_left setAdd (importsOf files k)
      (e_imports (match mapGet m k with Some e0 => e0 | None => emptyEntry end)) /\
  e_exports e = e_exports (match mapGet m k with Some e0 => e0 | None => emptyEntry end).
Proof.
  revert m. induction files as [|f files IH]; intros m H.
  - simpl in H. rewrite H. now split.
  - simpl in H. apply IH in H. rewrite mapGet_addFile in H.
    unfold importsOf. cbn [flat_map]. fold (importsOf files k).
    destruct (str_eqb (getModuleName (fst f)) k).
    + cbn [e_imports e_exports] in H. now rewrite fold_left_app.
    + exact H.
Qed.

Lemma mapGet_addExport (m : list (str * ModuleEntry)) (t : ExtractedType) (k : str) :
  mapGet (addExport m t) k =
  if str_eqb (module t) k then
    option_map (fun e => {| e_imports := e_imports e;
                            e_exports := setAdd (e_exports e) (name t) |})
      (mapGet m k)
  else mapGet m k.
Proof.
  unfold addExport.
  destruct (str_eqb (module t) k) eqn:E.
  - apply str_eqb_eq in E. rewrite E.
    destruct (mapGet m k) as [e|] eqn:G; [|now rewrite G].
    rewrite mapGet_mapSet, str_eqb_refl. reflexivity.
  - destruct (mapGet m (module t)) as [e|]; [|reflexivity].
    now rewrite mapGet_mapSet, E.
Qed.

Lemma mapGet_fold_addExport (types : list ExtractedType) (m : list (str * ModuleEntry))
  (k : str) (e : ModuleEntry) :
  mapGet (fold_left addExport types m) k = Some e ->
  exists e0, mapGet m k = Some e0 /\
             e_imports e = e_imports e0 /\
             e_exports e = fold_left setAdd (namesOf types k) (e_exports e0).
Proof.
  revert m. induction types as [|t types IH]; intros m H.
  - simpl in H. exists e. now repeat split.
  - simpl in H. apply IH in H as [e1 [G [Hi He]]].
    rewrite mapGet_addExport in G.
    unfold namesOf. cbn [flat_map]. fold (namesOf types k).
    destruct (str_eqb (module t) k).
    + destruct (mapGet m k) as [e0|]; [|discriminate].
      injection G as <-. exists e0. cbn [e_imports e_exports] in *.
      now repeat split.
    + exists e1. now repeat split.
Qed.

Lemma namesOf_In (types : list ExtractedType) (k n : str) :
  In n (namesOf types k) <-> exists t, In t types /\ module t = k /\ name t = n.
Proof.
  unfold namesOf. rewrite in_flat_map. split.
  - intros [t [Ht H]]. destruct (str_eqb (module t) k) eqn:E; [|destruct H].
    destruct H as [<-|[]]. apply str_eqb_eq in E. now exists t.
  - intros [t [Ht [<- <-]]]. exists t. split; [exact Ht|].
    rewrite str_eqb_refl. now left.
Qed.

Lemma importsOf_In (files : SourceTree) (k i : str) :
  In i (importsOf files k) <->
  exists f, In f files /\ getModuleName (fst f) = k /\ In i (extractImports (snd f)).
Proof.
  unfold importsOf. rewrite in_flat_map. split.
  - intros [f [Hf H]]. destruct (str_eqb (getModuleName (fst f)) k) eqn:E; [|destruct H].
    apply str_eqb_eq in E. now exists f.
  - intros [f [Hf [<- H]]]. exists f. split; [exact Hf|]. now rewrite str_eqb_refl.
Qed.

(** C6: for every module reported by [analyzeDependencies], the exports are
    exactly the names of the declarations of the index whose module field is
    that module, and the imports are what the files of that module import;
    both lists are without duplicates and sorted by the collation. *)
Theorem analyzeDependencies_exports (localeCompare : str -> str -> Z)
  (files : SourceTree) (all : list ExtractedType) (info : DependencyInfo) :
  ConsistentComparator localeCompare ->
  In info (analyzeDependencies localeCompare files all) ->
  (forall n, In n (exports info) <->
             exists t, In t all /\ module t = d_module info /\ name t = n) /\
  (forall i, In i (imports info) <->
             exists f, In f files /\ getModuleName (fst f) = d_module info /\
                       In i (extractImports (snd f))) /\
  NoDup (exports info) /\
  NoDup (imports info) /\
  StronglySorted (fun a b => (localeCompare a b <= 0)%Z) (exports info) /\
  StronglySorted (fun a b => (localeCompare a b <= 0)%Z) (imports info).
Proof.
  intros Hlc H. unfold analyzeDependencies in H.
  apply sortBy_In, in_map_iff in H as [[k e] [<- Hin]].
  cbn [fst snd d_module imports exports].
  apply In_mapGet in Hin;
    [|apply fold_addExport_NoDup, fold_addFile_NoDup; constructor].
  apply mapGet_fold_addExport in Hin as [e0 [G [Hi He]]].
  apply mapGet_fold_addFile in G as [Gi Ge]. cbn [mapGet emptyEntry e_imports e_exports] in *.
  rewrite He, Ge, Hi, Gi.
  change (fold_left setAdd (namesOf all k) []) with (newSet (namesOf all k)).
  change (fold_left setAdd (importsOf files k) []) with (newSet (importsOf files k)).
  repeat split.
  - intros Hn. apply sortBy_In, newSet_In, namesOf_In in Hn. exact Hn.
  - intros Hn. apply sortBy_In, newSet_In, namesOf_In. exact Hn.
  - intros Hn. apply sortBy_In, newSet_In, importsOf_In in Hn. exact Hn.
  - intros Hn. apply sortBy_In, newSet_In, importsOf_In. exact Hn.
  - apply sortBy_NoDup, newSet_NoDup.
  - apply sortBy_NoDup, newSet_NoDup.
  - now apply sortBy_sorted_cmp.
  - now apply sortBy_sorted_cmp.
Qed.

(** The tree of three files in the modules [store] and [types]. *)
Lemma analyzeDependencies_exports_witness :
  ConsistentComparator codeUnitCompare /\
  map (fun info => (d_module info, exports info, imports info))
    (analyzeDependencies codeUnitCompare tree_three_files (extractAllTypes tree_three_files))
  = [ (L "store", [L "DeviceStore"; L "NewStore"], []);
      (L "types",
       [L "PresenceAvailable"; L "PresenceUnavailable"; L "String"; L "User"],
       [L "example.org/store"; L "fmt"]) ] /\
  Forall (fun info =>
            forall n, In n (exports info) <->
                      exists t, In t (extractAllTypes tree_three_files) /\
                                module t = d_module info /\ name t = n)
    (analyzeDependencies codeUnitCompare tree_three_files (extractAllTypes tree_three_files)).
Proof.
  split; [exact codeUnitCompare_consistent|]. split; [vm_compute; reflexivity|].
  apply Forall_forall. intros info H.
  exact (proj1 (@analyzeDependencies_exports codeUnitCompare tree_three_files
                  (extractAllTypes tree_three_files) info codeUnitCompare_consistent H)).
Defined.

(** * Further properties *)

(** ** The matcher and what a match is *)

(** Whatever the matcher returns, it returns for a match: the rest of the
    pattern was run on a state that a match of [r] leaves. *)
Lemma rmatch_sound (A : Type) (r : regex) :
  forall (prev : option ascii) (s : str) (c : captures)
         (k : option ascii -> str -> captures -> option A) (x : A),
    rmatch r prev s c k = Some x ->
    exists p' s' c', rsem r prev s c p' s' c' /\ k p' s' c' = Some x.
Proof.
  induction r as [p| |r1 IH1 r2 IH2|r1 IH1 r2 IH2|r1 IH1|n r1 IH1| | |];
    intros prev s c k x H.
  all: try match goal with
           | H : rmatch (RStar _) _ _ _ _ = _ |- _ => idtac
           | H : rmatch _ _ _ _ _ = _ |- _ => cbn [rmatch] in H
           end.
  - destruct s as [|a s]; [discriminate|].
    destruct (p a) eqn:E; [|discriminate].
    exists (Some a), s, c. split; [now constructor | exact H].
  - exists prev, s, c. split; [constructor | exact H].
  - apply IH1 in H as [p1 [s1 [c1 [H1 H]]]].
    apply IH2 in H as [p2 [s2 [c2 [H2 H]]]].
    exists p2, s2, c2. split; [econstructor; eassumption | exact H].
  - destruct (rmatch r1 prev s c k) as [y|] eqn:E.
    + injection H as <-. apply IH1 in E as [p1 [s1 [c1 [H1 E]]]].
      exists p1, s1, c1. split; [now apply rsem_alt_l | exact E].
    + apply IH2 in H as [p1 [s1 [c1 [H1 H]]]].
      exists p1, s1, c1. split; [now apply rsem_alt_r | exact H].
  - assert (G : forall fuel prev s c,
               (fix star (fuel : nat) (prev : option ascii) (s : str) (c : captures)
                  : option A :=
                  match fuel with
                  | O => k prev s c
                  | S fuel' =>
                      match rmatch r1 prev s c
                              (fun prev' s' c' =>
                                 if length s' <? length s then star fuel' prev' s' c'
                                 else None) with
                      | Some y => Some y
                      | None => k prev s c
                      end
                  end) fuel prev s c = Some x ->
               exists p' s' c', rsem (RStar r1) prev s c p' s' c' /\ k p' s' c' = Some x).
    { clear prev s c H. induction fuel as [|fuel IHf]; intros prev s c H.
      - exists prev, s, c. split; [constructor | exact H].
      - match type of H with
        | match ?m with _ => _ end = _ => destruct m as [y|] eqn:E
        end.
        + injection H as <-. apply IH1 in E as [p1 [s1 [c1 [H1 E]]]].
          destruct (length s1 <? length s); [|discriminate].
          apply IHf in E as [p2 [s2 [c2 [H2 E]]]].
          exists p2, s2, c2. split; [econstructor; eassumption | exact E].
        + exists prev, s, c. split; [constructor | exact H]. }
    exact (G (S (length s)) prev s c H).
  - apply IH1 in H as [p1 [s1 [c1 [H1 H]]]].
    eexists _, _, _. split; [constructor; exact H1 | exact H].
  - destruct prev; [discriminate|]. exists None, s, c. split; [constructor | exact H].
  - destruct s; [|discriminate]. exists prev, [], c. split; [constructor | exact H].
  - destruct (xorb (isWordOpt prev) (isWordOpt (hd_error s))) eqn:E; [|discriminate].
    exists prev, s, c. split; [now constructor | exact H].
Qed.

(** A successful [match] is a match of the pattern from the start of the
    text. *)
Lemma rxMatch_sound (r : regex) (s : str) (m : captures) :
  rxMatch r s = Some m -> exists p' s', rsem r None s [] p' s' m.
Proof.
  unfold rxMatch, matchStart. intros H.
  destruct (rmatch r None s [] (fun _ s' c => Some (c, s'))) as [[c rest]|] eqn:E;
    [|discriminate].
  injection H as <-. apply rmatch_sound in E as [p' [s' [c' [H E]]]].
  injection E as <- <-. eauto.
Qed.

(** A match reads a prefix of the text. *)
Lemma rsem_prefix (r : regex) prev s c p' s' c' :
  rsem r prev s c p' s' c' -> exists w, s = w ++ s'.
Proof.
  induction 1;
    repeat match goal with
           | H : exists _, _ |- _ => destruct H as [? H]
           end; subst.
  - now exists [x].
  - now exists [].
  - eexists. now rewrite app_assoc.
  - eauto.
  - eauto.
  - now exists [].
  - eexists. now rewrite app_assoc.
  - eauto.
  - now exists [].
  - now exists [].
  - now exists [].
Qed.

(** A match adds captures in front, for groups of the pattern only. *)
Lemma rsem_captures (r : regex) prev s c p' s' c' :
  rsem r prev s c p' s' c' ->
  exists new, c' = new ++ c /\ forall n w, In (n, w) new -> In n (groupIds r).
Proof.
  induction 1; cbn [groupIds];
    repeat match goal with
           | H : exists _, _ /\ _ |- _ => destruct H as [? [? ?]]
           end; subst;
    try (exists []; split; [reflexivity | intros ? ? []]).
  - eexists. split; [now rewrite app_assoc|].
    intros n w Hn. apply in_app_iff. apply in_app_iff in Hn as [Hn|Hn]; eauto.
  - eexists. split; [reflexivity|]. intros n w Hn. apply in_app_iff. eauto.
  - eexists. split; [reflexivity|]. intros n w Hn. apply in_app_iff. eauto.
  - eexists. split; [now rewrite app_assoc|].
    intros n w Hn. apply in_app_iff in Hn as [Hn|Hn]; eauto.
  - eexists ((n, _) :: _). split; [reflexivity|].
    intros m w [E|Hn]; [injection E as <- _; now left | right; eauto].
Qed.

Lemma capture_app_skip (n : nat) (new c : captures) :
  (forall m w, In (m, w) new -> m <> n) -> capture n (new ++ c) = capture n c.
Proof.
  induction new as [|[m w] new IH]; intros H; [reflexivity|].
  cbn [app capture]. destruct (Nat.eqb_spec n m) as [E|E].
  - exfalso. apply (H m w); [now left | congruence].
  - apply IH. intros m' w' Hin. apply (H m' w'). now right.
Qed.

(** The text a group captured, when the groups after it have other numbers:
    it is what its pattern matched. *)
Lemma rsem_group_then (n : nat) (g post : regex) prev s c p' s' c' :
  rsem (RSeq (RGroup n g) post) prev s c p' s' c' ->
  ~ In n (groupIds post) ->
  exists w rest pg cg, s = w ++ rest /\ rsem g prev s c pg rest cg /\ capture n c' = Some w.
Proof.
  intros H Hn. inversion H as [| |? ? ? ? ? p1 s1 c1 ? ? ? Hg Hp| | | | | | | |]; subst.
  inversion Hg as [| | | | | | |? ? ? ? ? pg sg cg Hg'| | |]; subst.
  destruct (rsem_prefix Hg') as [w Ew].
  destruct (rsem_captures Hp) as [new [-> Hnew]].
  exists w, s1, p1, cg. split; [exact Ew|]. split; [exact Hg'|].
  rewrite capture_app_skip.
  - cbn [capture]. rewrite Nat.eqb_refl. f_equal. subst s.
    rewrite length_app, Nat.add_sub, firstn_app, Nat.sub_diag, firstn_all. cbn [firstn].
    now rewrite app_nil_r.
  - intros m w' Hin E. subst m. apply Hn. eauto.
Qed.

(** What comes after the first piece of a sequence is matched too. *)
Lemma rsem_seq_tail (a rest : regex) prev s c p' s' c' :
  rsem (RSeq a rest) prev s c p' s' c' ->
  exists p1 s1 c1, rsem rest p1 s1 c1 p' s' c'.
Proof.
  intros H. inversion H; subst. eauto.
Qed.

(** A run of characters of one class. *)
Lemma rsem_star_class (p : ascii -> bool) prev s c p' s' c' :
  rsem (RStar (RClass p)) prev s c p' s' c' ->
  c' = c /\ exists w, s = w ++ s' /\ Forall (fun ch => p ch = true) w.
Proof.
  intros H. remember (RStar (RClass p)) as r eqn:Er.
  induction H; try discriminate; injection Er as ->.
  - split; [reflexivity|]. exists []. split; [reflexivity | constructor].
  - inversion H; subst.
    destruct (IHrsem2 eq_refl) as [-> [w [-> Hw]]].
    split; [reflexivity|]. exists (x :: w). split; [reflexivity | now constructor].
Qed.

Lemma rsem_exportedIdent prev s c p' s' c' :
  rsem exportedIdent prev s c p' s' c' ->
  exists w, s = w ++ s' /\ isExportedName w.
Proof.
  unfold exportedIdent, word. intros H. inversion H; subst.
  match goal with H1 : rsem (RClass _) _ _ _ _ _ _ |- _ => inversion H1; subst end.
  match goal with H2 : rsem (RStar _) _ _ _ _ _ _ |- _ =>
    apply rsem_star_class in H2 as [_ [w [-> Hw]]] end.
  exists (x :: w). split; [reflexivity|]. exists x, w. auto.
Qed.

Lemma rsem_ident prev s c p' s' c' :
  rsem ident prev s c p' s' c' ->
  exists w, s = w ++ s' /\ isIdentName w.
Proof.
  unfold ident, word. intros H. inversion H; subst.
  match goal with H1 : rsem (RClass _) _ _ _ _ _ _ |- _ => inversion H1; subst end.
  match goal with H2 : rsem (RStar _) _ _ _ _ _ _ |- _ =>
    apply rsem_star_class in H2 as [_ [w [-> Hw]]] end.
  exists (x :: w). split; [reflexivity|]. exists x, w. auto.
Qed.

(** ** What the scanner pushes *)

Lemma blockDeclarations_pushed (rf mn : str) (lines : list str) (index : nat)
  (k : ExtractedKind) (d : ExtractedType) :
  (k = K_const /\ rxTest R_constBlock (trim (nth index lines [])) = true) \/
  (k = K_variable /\ rxTest R_varBlock (trim (nth index lines [])) = true) ->
  In d (blockDeclarations rf mn k (extractDocAbove lines index)
          (text (captureParenBlock lines index))) ->
  pushedAt rf mn lines index d.
Proof.
  intros Hk H. unfold blockDeclarations in H. apply in_flat_map in H as [member [Hm Hd]].
  destruct (rxTest R_capitalStart (m_name member)) eqn:E; cbn [negb] in Hd; [|destruct Hd].
  destruct Hd as [<-|[]]. now apply pushed_member.
Qed.

Lemma if_Some (A : Type) (b : bool) (x : option A) (y : A) :
  (if b then x else None) = Some y -> x = Some y.
Proof. now destruct b. Qed.

(** Every declaration a turn pushes is pushed by one of the branches, on a line
    that is not blank and so inside the file. *)
Lemma scanLine_pushed (rf mn : str) (lines : list str) (index : nat) (d : ExtractedType) :
  In d (fst (scanLine rf mn lines index)) ->
  truthy (trim (nth index lines [])) = true /\ index < length lines /\
  pushedAt rf mn lines index d.
Proof.
  unfold scanLine.
  destruct (truthy (trim (nth index lines []))) eqn:T; cbn [negb fst]; [|intros []].
  intros H. split; [reflexivity|]. split; [now apply nonblank_in_range|].
  destruct (rxMatch R_interface _) as [m|] eqn:E1;
    [destruct H as [<-|[]]; now apply pushed_interface|].
  destruct (rxMatch R_struct _) as [m|] eqn:E2;
    [destruct H as [<-|[]]; now apply pushed_struct|].
  match type of H with
  | context [match ?x with Some _ => _ | None => _ end] => destruct x as [m|] eqn:E3
  end; [destruct H as [<-|[]]; apply if_Some in E3; now apply pushed_type|].
  destruct (rxMatch R_method _) as [m|] eqn:E4;
    [destruct H as [<-|[]]; now apply pushed_method|].
  destruct (rxMatch R_function _) as [m|] eqn:E5;
    [destruct H as [<-|[]]; now apply pushed_function|].
  destruct (rxTest R_constBlock _) eqn:Ec;
    [apply blockDeclarations_pushed with K_const; auto|].
  destruct (rxTest R_varBlock _) eqn:Ev;
    [apply blockDeclarations_pushed with K_variable; auto|].
  destruct (rxMatch R_constSingle _) as [m|] eqn:E6;
    [destruct H as [<-|[]]; now apply pushed_const|].
  destruct (rxMatch R_varSingle _) as [m|] eqn:E7;
    [destruct H as [<-|[]]; now apply pushed_var | destruct H].
Qed.

(** So is every declaration of a file. *)
Lemma extractFromContent_pushed (rf content : str) (d : ExtractedType) :
  In d (extractFromContent rf content) ->
  exists index, index < length (splitLines content) /\
                truthy (trim (nth index (splitLines content) [])) = true /\
                pushedAt rf (getModuleName rf) (splitLines content) index d.
Proof.
  unfold extractFromContent. intros H.
  apply extractFromLines_In in H as [k [_ H]].
  apply scanLine_pushed in H as [T [L P]]. eauto.
Qed.

(** ** Substrings and trimming *)

Lemma startsWith_app (s p : str) : startsWith s p = true <-> exists b, s = p ++ b.
Proof.
  revert s. induction p as [|x p IH]; intros s.
  - split; [intros _; now exists s | now destruct s].
  - destruct s as [|y s].
    + split; [discriminate | intros [b E]; discriminate].
    + cbn [startsWith]. rewrite andb_true_iff, IH. split.
      * intros [E [b ->]]. apply Ascii.eqb_eq in E. subst. now exists b.
      * intros [b E]. injection E as -> ->. split; [apply Ascii.eqb_refl | now exists b].
Qed.

(** [includes] finds exactly the substrings. *)
Lemma includes_app (s t : str) : includes s t = true <-> exists a b, s = a ++ t ++ b.
Proof.
  induction s as [|y s IH].
  - cbn [includes]. rewrite orb_false_r, startsWith_app. split.
    + intros [b E]. now exists [], b.
    + intros [a [b E]]. destruct a; [now exists b | discriminate].
  - cbn [includes]. rewrite orb_true_iff, startsWith_app, IH. split.
    + intros [[b E] | [a [b E]]].
      * now exists [], b.
      * exists (y :: a), b. now rewrite E.
    + intros [a [b E]]. destruct a as [|z a].
      * left. now exists b.
      * right. injection E as -> ->. now exists a, b.
Qed.

Lemma includes_trans (s t u : str) :
  includes s t = true -> includes t u = true -> includes s u = true.
Proof.
  rewrite !includes_app. intros [a [b ->]] [a' [b' ->]].
  exists (a ++ a'), (b' ++ b). now rewrite <- !app_assoc.
Qed.

Lemma includes_toLowerCase (s t : str) :
  includes s t = true -> includes (toLowerCase s) (toLowerCase t) = true.
Proof.
  rewrite !includes_app. intros [a [b ->]].
  exists (toLowerCase a), (toLowerCase b). unfold toLowerCase. now rewrite !map_app.
Qed.

Lemma dropWhile_head (A : Type) (p : A -> bool) (l : list A) :
  match dropWhile p l with [] => True | x :: _ => p x = false end.
Proof.
  induction l as [|a l IH]; simpl; [exact I|].
  destruct (p a) eqn:E; [exact IH | exact E].
Qed.

Lemma dropWhile_fixed (A : Type) (p : A -> bool) (l : list A) :
  match l with [] => True | x :: _ => p x = false end -> dropWhile p l = l.
Proof. destruct l as [|x l]; [reflexivity|]. simpl. now intros ->. Qed.

Lemma dropWhile_idem (A : Type) (p : A -> bool) (l : list A) :
  dropWhile p (dropWhile p l) = dropWhile p l.
Proof. apply dropWhile_fixed, dropWhile_head. Qed.

Lemma dropWhile_snoc_keep (A : Type) (p : A -> bool) (l : list A) (y : A) :
  p y = false -> exists u, dropWhile p (l ++ [y]) = u ++ [y].
Proof.
  intros H. induction l as [|a l IH]; simpl.
  - rewrite H. now exists [].
  - destruct (p a); [exact IH | now exists (a :: l)].
Qed.

(** A trimmed text is empty or starts with a character that is not white
    space. *)
Lemma trim_head (s : str) :
  match trim s with [] => True | x :: _ => isSpace x = false end.
Proof.
  unfold trim. pose proof (dropWhile_head isSpace s) as H.
  destruct (dropWhile isSpace s) as [|y t]; [exact I|].
  cbn [rev]. destruct (dropWhile_snoc_keep isSpace (rev t) y H) as [u ->].
  rewrite rev_app_distr. exact H.
Qed.

(** Trimming twice is trimming once. *)
Lemma trim_idem (s : str) : trim (trim s) = trim s.
Proof.
  pose proof (trim_head s) as H. unfold trim at 1.
  rewrite (dropWhile_fixed isSpace (trim s) H). unfold trim.
  now rewrite rev_involutive, dropWhile_idem.
Qed.

Lemma truthy_nonempty (s : str) : truthy s = true <-> s <> [].
Proof. destruct s; simpl; split; congruence. Qed.

Lemma join_cons_app (sep x : str) (l : list str) :
  exists tail, join sep (x :: l) = x ++ tail.
Proof.
  destruct l as [|y l]; [exists []; simpl; now rewrite app_nil_r|].
  now exists (sep ++ join sep (y :: l)).
Qed.

(** ** Block capture *)


Lemma captureDelimited_span (open close : ascii) (lines : list str) (startLine : nat) :
  startLine < length lines ->
  startLine <= endLine (captureDelimited open close lines startLine) < length lines /\
  text (captureDelimited open close lines startLine)
  = join [LF]
      (firstn (S (endLine (captureDelimited open close lines startLine) - startLine))
         (skipn startLine lines)).
Proof.
  intros Hs. unfold captureDelimited.
  pose proof (captureLoop_spec open close (skipn startLine lines) startLine (0%Z, false) [])
    as Spec.
  destruct (captureLoop open close (skipn startLine lines) startLine (0%Z, false) [])
    as [chunk [e|]]; cbn [snd text endLine] in *.
  - destruct Spec as [n [Hn [-> ->]]]. rewrite length_skipn in Hn.
    replace (startLine + n - startLine) with n by lia. split; [lia|reflexivity].
  - subst chunk.
    replace (S (length lines - 1 - startLine)) with (length lines - startLine) by lia.
    split; [lia|]. rewrite firstn_all2 by (rewrite length_skipn; lia). reflexivity.
Qed.



(** ** Function signatures *)

Lemma signatureLoop_spec (rest : list str) (offset : nat) (parenBalance : Z)
  (chunk : list str) :
  exists n,
    signatureLoop rest offset parenBalance chunk = chunk ++ map trim (firstn n rest) /\
    n <= length rest /\
    (rest <> [] -> 1 <= n) /\
    (n <= 14 - offset \/ n <= 1) /\
    Forall (fun line => includes line (L "{") = false) (firstn (n - 1) rest).
Proof.
  revert offset parenBalance chunk.
  induction rest as [|line rest IH]; intros offset parenBalance chunk.
  - exists 0. simpl. rewrite app_nil_r. repeat split; try lia; auto. congruence.
  - cbn [signatureLoop].
    set (pb := fold_left _ line parenBalance).
    destruct (includes line (L "{")) eqn:B.
    + exists 1. simpl. repeat split; try lia; auto.
    + destruct ((pb <=? 0)%Z && endsWith (trim line) (L ")")).
      * exists 1. simpl. repeat split; try lia; auto.
      * destruct (Nat.ltb_spec 12 offset) as [G|G].
        -- exists 1. simpl. repeat split; try lia; auto.
        -- destruct (IH (S offset) pb (chunk ++ [trim line]))
             as [n [E [Hn [H1 [H14 Hb]]]]].
           exists (S n). rewrite E, <- app_assoc. cbn [firstn map app length].
           split; [reflexivity|]. split; [lia|]. split; [lia|]. split.
           ++ destruct H14 as [H14|H14]; [left; lia|].
              left. lia.
           ++ replace (S n - 1) with n by lia.
              destruct n as [|n]; [constructor|].
              cbn [firstn]. constructor; [exact B|].
              replace (S n - 1) with n in Hb by lia. exact Hb.
Qed.

(** X2: [captureFunctionSignature] joins with single spaces the trimmed lines from
    the declaration line on: one line at least, fourteen at most, and none
    after the first that holds an opening brace. *)
Theorem captureFunctionSignature_lines (lines : list str) (startLine : nat) :
  startLine < length lines ->
  exists n,
    1 <= n <= 14 /\ startLine + n <= length lines /\
    captureFunctionSignature lines startLine
    = join (L " ") (map trim (firstn n (skipn startLine lines))) /\
    Forall (fun line => includes line (L "{") = false)
      (firstn (n - 1) (skipn startLine lines)).
Proof.
  intros Hs. unfold captureFunctionSignature.
  destruct (signatureLoop_spec (skipn startLine lines) 0 0%Z [])
    as [n [E [Hn [H1 [H14 Hb]]]]].
  rewrite length_skipn in Hn.
  assert (N : skipn startLine lines <> []).
  { intros F. apply (f_equal (@length str)) in F. rewrite length_skipn in F. simpl in F. lia. }
  specialize (H1 N).
  exists n. rewrite E. cbn [app]. repeat split; try lia; auto.
Qed.

Lemma captureFunctionSignature_lines_witness :
  7 < length (splitLines file_store) /\
  captureFunctionSignature (splitLines file_store) 7 = L "func NewStore() DeviceStore {" /\
  exists n,
    1 <= n <= 14 /\ 7 + n <= length (splitLines file_store) /\
    captureFunctionSignature (splitLines file_store) 7
    = join (L " ") (map trim (firstn n (skipn 7 (splitLines file_store)))) /\
    Forall (fun line => includes line (L "{") = false)
      (firstn (n - 1) (skipn 7 (splitLines file_store))).
Proof.
  assert (H : 7 < length (splitLines file_store)) by (vm_compute; lia).
  split; [exact H|]. split; [vm_compute; reflexivity|].
  exact (@captureFunctionSignature_lines (splitLines file_store) 7 H).
Defined.

(** ** The names of the declarations *)

Lemma rsem_seq_split (a rest : regex) prev s c p' s' c' :
  rsem (RSeq a rest) prev s c p' s' c' ->
  exists w p1 s1 c1, s = w ++ s1 /\ rsem rest p1 s1 c1 p' s' c'.
Proof.
  intros H. inversion H; subst.
  match goal with H1 : rsem a _ _ _ _ _ _ |- _ => destruct (rsem_prefix H1) as [w ->] end.
  eauto 6.
Qed.

Lemma includes_prefix (t b : str) : includes (t ++ b) t = true.
Proof. apply includes_app. now exists [], b. Qed.

Lemma includes_skip (w s t : str) : includes s t = true -> includes (w ++ s) t = true.
Proof.
  rewrite !includes_app. intros [a [b ->]]. exists (w ++ a), b. now rewrite <- app_assoc.
Qed.

(** From a successful match to the text of group [n]: the pieces of the
    pattern before the group are walked over one by one. *)
Ltac name_group n H :=
  apply rxMatch_sound in H as (? & ? & H);
  repeat first
    [ apply (@rsem_group_then n) in H;
      [ | cbn [groupIds app]; cbn; intuition discriminate ]
    | apply rsem_seq_split in H as (? & ? & ? & ? & ? & H) ].

Ltac found_in_line := subst; repeat first [ apply includes_prefix | apply includes_skip ].

Lemma group_of_capture (n : nat) (m : captures) (w : str) :
  capture n m = Some w -> group n m = w.
Proof. unfold group. now intros ->. Qed.

Lemma exported_capture (n : nat) (m : captures) prev s c (w rest : str) pg cg :
  s = w ++ rest -> rsem exportedIdent prev s c pg rest cg -> capture n m = Some w ->
  isExportedName (group n m).
Proof.
  intros E H C. rewrite (group_of_capture _ _ C).
  apply rsem_exportedIdent in H as [w' [E' Hw]].
  rewrite E in E'. apply app_inv_tail in E'. now subst.
Qed.

Lemma R_interface_name (line : str) (m : captures) :
  rxMatch R_interface line = Some m ->
  isExportedName (group 1 m) /\ includes line (group 1 m) = true.
Proof.
  intros H. unfold R_interface, RCat in H. name_group 1 H.
  destruct H as (w & rest & pg & cg & E & G & C).
  split; [eapply exported_capture; eassumption|].
  rewrite (group_of_capture _ _ C). found_in_line.
Qed.

Lemma R_struct_name (line : str) (m : captures) :
  rxMatch R_struct line = Some m ->
  isExportedName (group 1 m) /\ includes line (group 1 m) = true.
Proof.
  intros H. unfold R_struct, RCat in H. name_group 1 H.
  destruct H as (w & rest & pg & cg & E & G & C).
  split; [eapply exported_capture; eassumption|].
  rewrite (group_of_capture _ _ C). found_in_line.
Qed.

Lemma R_type_name (line : str) (m : captures) :
  rxMatch R_type line = Some m ->
  isExportedName (group 1 m) /\ includes line (group 1 m) = true.
Proof.
  intros H. unfold R_type, RCat in H. name_group 1 H.
  destruct H as (w & rest & pg & cg & E & G & C).
  split; [eapply exported_capture; eassumption|].
  rewrite (group_of_capture _ _ C). found_in_line.
Qed.

Lemma R_method_name (line : str) (m : captures) :
  rxMatch R_method line = Some m ->
  isExportedName (group 2 m) /\ includes line (group 2 m) = true.
Proof.
  intros H. unfold R_method, RCat in H. name_group 2 H.
  destruct H as (w & rest & pg & cg & E & G & C).
  split; [eapply exported_capture; eassumption|].
  rewrite (group_of_capture _ _ C). found_in_line.
Qed.

Lemma R_function_name (line : str) (m : captures) :
  rxMatch R_function line = Some m ->
  isExportedName (group 1 m) /\ includes line (group 1 m) = true.
Proof.
  intros H. unfold R_function, RCat in H. name_group 1 H.
  destruct H as (w & rest & pg & cg & E & G & C).
  split; [eapply exported_capture; eassumption|].
  rewrite (group_of_capture _ _ C). found_in_line.
Qed.

Lemma R_constSingle_name (line : str) (m : captures) :
  rxMatch R_constSingle line = Some m ->
  isExportedName (group 1 m) /\ includes line (group 1 m) = true.
Proof.
  intros H. unfold R_constSingle, RCat in H. name_group 1 H.
  destruct H as (w & rest & pg & cg & E & G & C).
  split; [eapply exported_capture; eassumption|].
  rewrite (group_of_capture _ _ C). found_in_line.
Qed.

Lemma R_varSingle_name (line : str) (m : captures) :
  rxMatch R_varSingle line = Some m ->
  isExportedName (group 1 m) /\ includes line (group 1 m) = true.
Proof.
  intros H. unfold R_varSingle, RCat in H. name_group 1 H.
  destruct H as (w & rest & pg & cg & E & G & C).
  split; [eapply exported_capture; eassumption|].
  rewrite (group_of_capture _ _ C). found_in_line.
Qed.

Lemma R_blockMember_name (line : str) (m : captures) :
  rxMatch R_blockMember line = Some m ->
  isIdentName (group 1 m) /\ startsWith line (group 1 m) = true.
Proof.
  intros H. unfold R_blockMember, RCat in H.
  apply rxMatch_sound in H as (? & ? & H).
  inversion H as [| |? ? ? ? ? p1 s1 c1 ? ? ? Hb Hrest| | | | | | | |]; subst.
  inversion Hb; subst.
  apply (@rsem_group_then 1) in Hrest; [|cbn; intuition discriminate].
  destruct Hrest as (w & rest & pg & cg & E & G & C).
  rewrite (group_of_capture _ _ C).
  apply rsem_ident in G as [w' [E' Hw]].
  rewrite E in E'. apply app_inv_tail in E'. subst w'. split; [exact Hw|].
  apply startsWith_app. now exists rest.
Qed.

(** The members of a grouped block: the name is an identifier and the
    signature starts with it. *)
Lemma blockMember_name (blockText : str) (member : BlockMember) :
  In member (parseConstVarBlockMembers blockText) ->
  isIdentName (m_name member) /\ startsWith (m_signature member) (m_name member) = true.
Proof.
  unfold parseConstVarBlockMembers. intros H. apply in_flat_map in H as [i [_ H]].
  unfold parseBlockMemberAt in H.
  destruct (negb (truthy _)); [destruct H|].
  destruct (rxMatch R_blockMember _) as [m|] eqn:E; [|destruct H].
  destruct H as [<-|[]]. cbn [m_name m_signature]. eapply R_blockMember_name, E.
Qed.

Lemma capitalStart_exported (s : str) :
  isIdentName s -> rxTest R_capitalStart s = true -> isExportedName s.
Proof.
  intros (x & rest & -> & _ & Hrest) H. exists x, rest. split; [reflexivity|].
  split; [|exact Hrest].
  unfold rxTest, matchStart, R_capitalStart in H. cbn [RCat rmatch] in H.
  now destruct (isUpperAZ x).
Qed.

Lemma pushedAt_name (rf mn : str) (lines : list str) (index : nat) (d : ExtractedType) :
  pushedAt rf mn lines index d -> isExportedName (name d).
Proof.
  intros H. destruct H; cbn [name declaration].
  - eapply R_interface_name; eassumption.
  - eapply R_struct_name; eassumption.
  - eapply R_type_name; eassumption.
  - eapply R_method_name; eassumption.
  - eapply R_function_name; eassumption.
  - eapply capitalStart_exported; [eapply blockMember_name|]; eassumption.
  - eapply R_constSingle_name; eassumption.
  - eapply R_varSingle_name; eassumption.
Qed.

(** ** The declarations of a file *)

Lemma pushedAt_fields (rf mn : str) (lines : list str) (index : nat) (d : ExtractedType) :
  pushedAt rf mn lines index d ->
  file d = rf /\ module d = mn /\ exported d = true /\
  docs d = extractDocAbove lines index /\
  (methods d <> None <-> kind d = K_interface) /\
  (properties d <> None <-> kind d = K_struct) /\
  (fullSignature d <> None <-> kind d = K_interface \/ kind d = K_struct) /\
  (value d <> None -> kind d = K_type \/ kind d = K_const \/ kind d = K_variable).
Proof.
  intros H. destruct H; cbn [file module exported docs methods properties fullSignature
                              value kind declaration];
    repeat split; try congruence; try tauto; try discriminate;
    try (intros [F|F]; discriminate F); auto.
  all: match goal with H : (_ = K_const /\ _) \/ (_ = K_variable /\ _) |- _ =>
         destruct H as [[? _]|[? _]]; subst end;
    try discriminate; try (intros [F|F]; discriminate F); auto.
Qed.

(** X3: Every declaration of the index has an exported identifier for a name (an
    ASCII capital, then word characters), is flagged exported, and carries
    the path of one of the files and the module of that path; it has methods
    exactly when it is a contract, properties exactly when it is a record, the
    full text of a block exactly in these two cases, and a value only when it
    is an alias, a constant or a variable. *)
Theorem extractAllTypes_wellformed (files : SourceTree) (d : ExtractedType) :
  In d (extractAllTypes files) ->
  isExportedName (name d) /\
  exported d = true /\
  (exists f, In f files /\ file d = fst f /\ module d = getModuleName (fst f)) /\
  (methods d <> None <-> kind d = K_interface) /\
  (properties d <> None <-> kind d = K_struct) /\
  (fullSignature d <> None <-> kind d = K_interface \/ kind d = K_struct) /\
  (value d <> None -> kind d = K_type \/ kind d = K_const \/ kind d = K_variable).
Proof.
  unfold extractAllTypes. intros H. apply in_flat_map in H as [f [Hf H]].
  apply extractFromContent_pushed in H as [index [_ [_ P]]].
  pose proof (pushedAt_name P) as N.
  destruct (pushedAt_fields P) as (F & M & E & _ & Hm & Hp & Hf' & Hv).
  repeat split; try assumption; try (apply Hm); try (apply Hp); try (apply Hf').
  exists f. auto.
Qed.

Lemma extractAllTypes_wellformed_witness :
  In d_client (extractAllTypes tree_small) /\
  isExportedName (name d_client) /\
  (methods d_client <> None <-> kind d_client = K_interface) /\
  (properties d_client <> None <-> kind d_client = K_struct).
Proof.
  assert (H : In d_client (extractAllTypes tree_small)) by (vm_compute; left; reflexivity).
  split; [exact H|].
  pose proof (@extractAllTypes_wellformed tree_small d_client H) as W.
  split; [exact (proj1 W)|].
  split; [exact (proj1 (proj2 (proj2 (proj2 W))))|].
  exact (proj1 (proj2 (proj2 (proj2 (proj2 W))))).
Defined.

(** X4: The documentation of a declaration, when there is one, is not empty and
    has no white space at either end. *)
Theorem extractDocAbove_trimmed (lines : list str) (index : nat) (t : str) :
  extractDocAbove lines index = Some t -> t <> [] /\ trim t = t.
Proof.
  unfold extractDocAbove, orUndefined. intros H.
  destruct (truthy (trim (join (L " ") (docWalk lines index [])))) eqn:T; [|discriminate].
  injection H as <-. split; [now apply truthy_nonempty | apply trim_idem].
Qed.

Lemma extractDocAbove_trimmed_witness :
  extractDocAbove (splitLines file_presence) 3 = Some (L "Presence values.") /\
  L "Presence values." <> [] /\ trim (L "Presence values.") = L "Presence values.".
Proof.
  assert (H : extractDocAbove (splitLines file_presence) 3 = Some (L "Presence values."))
    by (vm_compute; reflexivity).
  split; [exact H|].
  exact (@extractDocAbove_trimmed (splitLines file_presence) 3 (L "Presence values.") H).
Defined.

Lemma removelast_len (A : Type) (l : list A) : length (removelast l) = length l - 1.
Proof.
  induction l as [|x l IH]; [reflexivity|].
  destruct l as [|y l]; [reflexivity|].
  change (removelast (x :: y :: l)) with (x :: removelast (y :: l)).
  cbn [length] in *. lia.
Qed.

Lemma removelast_nth (A : Type) (d : A) (l : list A) (i : nat) :
  i + 1 < length l -> nth i (removelast l) d = nth i l d.
Proof.
  revert i. induction l as [|x l IH]; intros i H; [simpl in H; lia|].
  destruct l as [|y l]; [simpl in H; lia|].
  change (removelast (x :: y :: l)) with (x :: removelast (y :: l)).
  destruct i as [|i]; [reflexivity|]. cbn [nth]. apply IH. simpl in *. lia.
Qed.

Lemma splitLines_join_length (chunk : list str) :
  chunk <> [] ->
  Forall (Forall (fun c => isChar LF c = false)) chunk ->
  length (splitLines (join [LF] chunk)) = length chunk.
Proof.
  intros N H. destruct chunk as [|x chunk]; [congruence|].
  rewrite splitLines_join by exact H.
  rewrite length_app, length_map, removelast_len. simpl. lia.
Qed.

Lemma splitLines_join_nth (chunk : list str) (i : nat) :
  Forall (Forall (fun c => isChar LF c = false)) chunk ->
  i + 1 < length chunk ->
  nth i (splitLines (join [LF] chunk)) [] = chopCR (nth i chunk []).
Proof.
  intros H Hi. destruct chunk as [|x chunk]; [simpl in Hi; lia|].
  rewrite splitLines_join by exact H.
  rewrite app_nth1 by (rewrite length_map, removelast_len; simpl in *; lia).
  change (@nil ascii) with (chopCR []) at 1. rewrite map_nth. f_equal.
  now apply removelast_nth.
Qed.

Lemma firstLine_join (x : str) (chunk : list str) :
  Forall (Forall (fun c => isChar LF c = false)) (x :: chunk) ->
  firstLine (join [LF] (x :: chunk)) = trim x.
Proof.
  intros H. unfold firstLine. rewrite splitLines_join by exact H.
  destruct chunk as [|y chunk]; [reflexivity|].
  change (removelast (x :: y :: chunk)) with (x :: removelast (y :: chunk)).
  cbn [map app hd]. apply trim_chopCR.
Qed.

(** The text of a block starts with the line the block starts on. *)
Lemma captureDelimited_chunk (open close : ascii) (lines : list str) (index : nat) :
  index < length lines ->
  exists chunk,
    text (captureDelimited open close lines index) = join [LF] (nth index lines [] :: chunk) /\
    S (length chunk) <= length lines - index /\
    (forall i, i < S (length chunk) ->
               nth i (nth index lines [] :: chunk) [] = nth (index + i) lines []) /\
    S (length chunk) = S (endLine (captureDelimited open close lines index) - index).
Proof.
  intros Hi.
  destruct (captureDelimited_span open close lines Hi) as [[Hle Hlt] Ht].
  set (e := endLine (captureDelimited open close lines index)) in *.
  rewrite Ht. rewrite (@skipn_nth str [] lines index) by exact Hi. cbn [firstn].
  exists (firstn (e - index) (skipn (S index) lines)).
  assert (Len : length (firstn (e - index) (skipn (S index) lines)) = e - index).
  { rewrite length_firstn, length_skipn. lia. }
  split; [reflexivity|]. split; [lia|]. split; [|lia].
  intros [|i] Hlt'; cbn [nth].
  - f_equal. lia.
  - rewrite Len in Hlt'. rewrite nth_firstn.
    destruct (Nat.ltb_spec i (e - index)); [|lia].
    rewrite nth_skipn. f_equal. lia.
Qed.

Lemma captureFunctionSignature_head (lines : list str) (index : nat) :
  index < length lines ->
  exists tail, captureFunctionSignature lines index = trim (nth index lines []) ++ tail.
Proof.
  intros Hi. unfold captureFunctionSignature.
  destruct (signatureLoop_spec (skipn index lines) 0 0%Z []) as [n [E [_ [H1 _]]]].
  rewrite E. cbn [app]. rewrite (@skipn_nth str [] lines index) in * by exact Hi.
  destruct n as [|n]; [assert (1 <= 0) by (apply H1; discriminate); lia|].
  cbn [firstn map]. apply join_cons_app.
Qed.

Lemma captureDelimited_firstLine (open close : ascii) (lines : list str) (index : nat) :
  Forall (Forall (fun c => isChar LF c = false)) lines ->
  index < length lines ->
  firstLine (text (captureDelimited open close lines index)) = trim (nth index lines []).
Proof.
  intros Hn Hi.
  destruct (captureDelimited_chunk open close lines Hi) as [chunk [-> [Hl [Hnth _]]]].
  apply firstLine_join. apply Forall_forall. intros l Hl'.
  apply (@In_nth str _ _ []) in Hl' as [i [Hlt <-]]. rewrite Hnth by exact Hlt.
  rewrite Forall_forall in Hn. apply Hn, nth_In. simpl in Hlt. lia.
Qed.

(** Where a pushed declaration stands: on the line of the turn, with a
    signature that starts with that line, or inside the grouped block the
    turn read, with the cleaned text of its own line for a signature and the
    place of that line in the block for a line number. *)
Lemma pushedAt_location (rf mn : str) (lines : list str) (index : nat) (d : ExtractedType) :
  Forall (Forall (fun c => isChar LF c = false)) lines ->
  index < length lines ->
  pushedAt rf mn lines index d ->
  (lineNumber d = Some (index + 1) /\
   includes (trim (nth index lines [])) (name d) = true /\
   exists tail, signature d = trim (nth index lines []) ++ tail) \/
  (((kind d = K_const /\ rxTest R_constBlock (trim (nth index lines [])) = true) \/
    (kind d = K_variable /\ rxTest R_varBlock (trim (nth index lines [])) = true)) /\
   startsWith (signature d) (name d) = true /\
   exists i, 1 <= i /\ index + i < length lines /\
             i < endLine (captureParenBlock lines index) - index /\
             lineNumber d = Some (i + 1) /\
             signature d
             = trim (rxRemove R_trailingComment (chopCR (nth (index + i) lines [])))).
Proof.
  intros Hn Hi P.
  destruct P as [m H|m H|m H|m H|m H|k member Hk Hm Hc|m H|m H];
    cbn [lineNumber name signature kind declaration].
  - left. split; [reflexivity|]. split; [eapply R_interface_name, H|].
    exists []. rewrite app_nil_r. now apply captureDelimited_firstLine.
  - left. split; [reflexivity|]. split; [eapply R_struct_name, H|].
    exists []. rewrite app_nil_r. now apply captureDelimited_firstLine.
  - left. split; [reflexivity|]. split; [eapply R_type_name, H|].
    exists []. now rewrite app_nil_r.
  - left. split; [reflexivity|]. split; [eapply R_method_name, H|].
    now apply captureFunctionSignature_head.
  - left. split; [reflexivity|]. split; [eapply R_function_name, H|].
    now apply captureFunctionSignature_head.
  - right. split; [exact Hk|]. split; [eapply blockMember_name, Hm|].
    unfold captureParenBlock in *.
    destruct (captureDelimited_span "("%char ")"%char lines Hi) as [[Hle Hlt] _].
    destruct (captureDelimited_chunk "("%char ")"%char lines Hi)
      as [chunk [Et [Hl [Hnth Hlen]]]].
    assert (NoLF : Forall (Forall (fun c => isChar LF c = false))
                     (nth index lines [] :: chunk)).
    { apply Forall_forall. intros l Hl'.
      apply (@In_nth str _ _ []) in Hl' as [i [Hlt' <-]]. rewrite Hnth by exact Hlt'.
      rewrite Forall_forall in Hn. apply Hn, nth_In. simpl in Hlt'. lia. }
    unfold parseConstVarBlockMembers in Hm. rewrite Et in Hm.
    rewrite splitLines_join_length in Hm by (discriminate || exact NoLF).
    apply in_flat_map in Hm as [i [Hseq Hm]]. apply in_seq in Hseq.
    cbn [length] in Hseq.
    unfold parseBlockMemberAt in Hm.
    rewrite splitLines_join_nth in Hm by (exact NoLF || (cbn [length]; lia)).
    rewrite Hnth in Hm by (cbn [length]; lia).
    destruct (negb (truthy _)); [destruct Hm|].
    destruct (rxMatch R_blockMember _); [|destruct Hm].
    destruct Hm as [<-|[]]. cbn [m_lineNumber m_signature].
    exists i. repeat split; try lia.
  - left. split; [reflexivity|]. split; [eapply R_constSingle_name, H|].
    exists []. now rewrite app_nil_r.
  - left. split; [reflexivity|]. split; [eapply R_varSingle_name, H|].
    exists []. now rewrite app_nil_r.
Qed.

Lemma includes_app_r (s t tail : str) :
  includes s t = true -> includes (s ++ tail) t = true.
Proof.
  rewrite !includes_app. intros [a [b ->]]. exists a, (b ++ tail).
  now rewrite <- !app_assoc.
Qed.

(** X5: The signature of every declaration of a file contains the name of the
    declaration, so it is never empty; and it starts with a character that is
    not white space. *)
Theorem signature_contains_name (rf content : str) (d : ExtractedType) :
  In d (extractFromContent rf content) ->
  includes (signature d) (name d) = true /\
  exists x rest, signature d = x :: rest /\ isSpace x = false.
Proof.
  intros H. apply extractFromContent_pushed in H as [index [Hi [T P]]].
  pose proof (pushedAt_name P) as (x0 & rest0 & En & _).
  destruct (pushedAt_location (splitLines_noLF content) Hi P)
    as [(_ & Inc & tail & Es) | (_ & Sw & i & _ & _ & _ & _ & Es)].
  - split; [rewrite Es; now apply includes_app_r|].
    pose proof (trim_head (nth index (splitLines content) [])) as Hd.
    destruct (trim (nth index (splitLines content) [])) as [|x rest]; [discriminate T|].
    exists x, (rest ++ tail). now rewrite Es.
  - split.
    + apply startsWith_app in Sw as [b ->]. apply includes_prefix.
    + pose proof (trim_head (rxRemove R_trailingComment
                               (chopCR (nth (index + i) (splitLines content) [])))) as Hd.
      rewrite <- Es in Hd. apply startsWith_app in Sw as [b Eb].
      rewrite En in Eb. rewrite Eb in Hd |- *. cbn [app] in *. eauto.
Qed.

Lemma signature_contains_name_witness :
  In d_newStore (extractFromContent (L "store/store.go") file_store) /\
  includes (signature d_newStore) (name d_newStore) = true /\
  exists x rest, signature d_newStore = x :: rest /\ isSpace x = false.
Proof.
  assert (H : In d_newStore (extractFromContent (L "store/store.go") file_store))
    by (vm_compute; right; left; reflexivity).
  split; [exact H|].
  exact (@signature_contains_name (L "store/store.go") file_store d_newStore H).
Defined.

(** X6: The line number of every declaration of a file is a line of the file.
    Outside the grouped blocks it is the line the signature starts with.  For
    a member of a grouped block it is the place of the member's line in the
    block: with the block opening on line [index + 1] of the file, a member
    numbered [n] stands on line [index + n] of the file. *)
Theorem lineNumber_locates (rf content : str) (d : ExtractedType) :
  In d (extractFromContent rf content) ->
  exists n,
    lineNumber d = Some n /\ 1 <= n <= length (splitLines content) /\
    ((exists tail, signature d = trim (nth (n - 1) (splitLines content) []) ++ tail) \/
     ((kind d = K_const \/ kind d = K_variable) /\
      exists index,
        2 <= n /\ index + n <= length (splitLines content) /\
        (rxTest R_constBlock (trim (nth index (splitLines content) [])) = true \/
         rxTest R_varBlock (trim (nth index (splitLines content) [])) = true) /\
        signature d
        = trim (rxRemove R_trailingComment
                  (chopCR (nth (index + n - 1) (splitLines content) []))))).
Proof.
  intros H. unfold extractFromContent in H.
  apply extractFromLines_In in H as [k [Hk H]].
  set (lines := splitLines content) in *. set (mn := getModuleName rf) in *.
  set (index := turnIndex rf mn lines k) in *.
  pose proof H as H0. apply scanLine_pushed in H as [T [Hi P]].
  destruct (pushedAt_location (splitLines_noLF content) Hi P)
    as [(Ln & _ & tail & Es) | (Kd & _ & i & H1 & Hlt & _ & Ln & Es)].
  - exists (index + 1). split; [exact Ln|]. split; [lia|]. left.
    exists tail. now replace (index + 1 - 1) with index by lia.
  - exists (i + 1). split; [exact Ln|]. split; [fold lines in Hlt; lia|]. right.
    split; [tauto|]. exists index. split; [lia|]. split; [fold lines in Hlt; lia|].
    split; [tauto|].
    replace (index + (i + 1) - 1) with (index + i) by lia. exact Es.
Qed.

Lemma lineNumber_locates_witness :
  In d_available (extractFromContent (L "types/presence.go") file_presence) /\
  lineNumber d_available = Some 3 /\
  rxTest R_constBlock (trim (nth 3 (splitLines file_presence) [])) = true /\
  signature d_available
  = trim (rxRemove R_trailingComment (chopCR (nth (3 + 3 - 1) (splitLines file_presence) []))) /\
  exists n,
    lineNumber d_available = Some n /\ 1 <= n <= length (splitLines file_presence) /\
    ((exists tail,
         signature d_available = trim (nth (n - 1) (splitLines file_presence) []) ++ tail) \/
     ((kind d_available = K_const \/ kind d_available = K_variable) /\
      exists index,
        2 <= n /\ index + n <= length (splitLines file_presence) /\
        (rxTest R_constBlock (trim (nth index (splitLines file_presence) [])) = true \/
         rxTest R_varBlock (trim (nth index (splitLines file_presence) [])) = true) /\
        signature d_available
        = trim (rxRemove R_trailingComment
                  (chopCR (nth (index + n - 1) (splitLines file_presence) []))))).
Proof.
  assert (H : In d_available (extractFromContent (L "types/presence.go") file_presence))
    by (vm_compute; left; reflexivity).
  split; [exact H|]. split; [reflexivity|]. split; [vm_compute; reflexivity|].
  split; [vm_compute; reflexivity|].
  exact (@lineNumber_locates (L "types/presence.go") file_presence d_available H).
Defined.

(** ** Lookup by name *)

Lemma find_first (A : Type) (f : A -> bool) (l : list A) (x : A) :
  find f l = Some x ->
  exists before after,
    l = before ++ x :: after /\ f x = true /\ forall u, In u before -> f u = false.
Proof.
  induction l as [|y l IH]; [discriminate|]. cbn [find].
  destruct (f y) eqn:F.
  - intros E. injection E as <-. exists [], l. repeat split; auto. intros u [].
  - intros E. destruct (IH E) as [before [after [-> [Fx Hb]]]].
    exists (y :: before), after. repeat split; auto.
    intros u [<-|Hu]; auto.
Qed.

(** X7: [searchType] answers with a declaration of the index: the first whose
    name is the name asked for; when no declaration has that name, the first
    whose name is the same up to the case of the letters; and nothing exactly
    when no name of the index is the same up to case. *)
Theorem searchType_first_exact_then_caseless (all : list ExtractedType) (n : str) :
  match searchType all n with
  | Some t =>
      exists before after,
        all = before ++ t :: after /\
        ((name t = n /\ forall u, In u before -> name u <> n) \/
         ((forall u, In u all -> name u <> n) /\
          toLowerCase (name t) = toLowerCase n /\
          forall u, In u before -> toLowerCase (name u) <> toLowerCase n))
  | None => forall u, In u all -> toLowerCase (name u) <> toLowerCase n
  end.
Proof.
  unfold searchType.
  destruct (find (fun t => str_eqb (name t) n) all) as [exact|] eqn:E.
  - apply find_first in E as [before [after [-> [Fx Hb]]]].
    exists before, after. split; [reflexivity|]. left.
    apply str_eqb_eq in Fx. split; [exact Fx|].
    intros u Hu. apply str_eqb_neq. now apply Hb.
  - pose proof (find_none _ _ E) as No. cbn beta in No.
    destruct (find (fun t => str_eqb (toLowerCase (name t)) (toLowerCase n)) all)
      as [t|] eqn:E2.
    + apply find_first in E2 as [before [after [-> [Fx Hb]]]].
      exists before, after. split; [reflexivity|]. right.
      apply str_eqb_eq in Fx. split; [|split; [exact Fx|]].
      * intros u Hu. apply str_eqb_neq. now apply No.
      * intros u Hu. apply str_eqb_neq. now apply Hb.
    + intros u Hu. apply str_eqb_neq. exact (find_none _ _ E2 u Hu).
Qed.

(** ** The terms of a query *)

Lemma splitSpacesAux_pieces (s cur : str) (inSep : bool) (p : str) :
  Forall (fun c => isSpace c = false) cur ->
  In p (splitSpacesAux inSep cur s) ->
  Forall (fun c => isSpace c = false) p /\ includes (rev cur ++ s) p = true.
Proof.
  revert cur inSep. induction s as [|c s IH]; intros cur inSep Hc H.
  - destruct H as [<-|[]]. split.
    + apply Forall_rev, Hc.
    + rewrite app_nil_r. rewrite <- (app_nil_r (rev cur)) at 1. apply includes_prefix.
  - cbn [splitSpacesAux] in H. destruct (isSpace c) eqn:Sc.
    + assert (G : In p (splitSpacesAux true [] s) ->
                  Forall (fun c => isSpace c = false) p /\
                  includes (rev cur ++ c :: s) p = true).
      { intros G. destruct (IH [] true (Forall_nil _) G) as [F I]. split; [exact F|].
        cbn [rev app] in I.
        change (rev cur ++ c :: s) with (rev cur ++ [c] ++ s). rewrite app_assoc.
        now apply includes_skip. }
      destruct inSep; [now apply G|].
      destruct H as [<-|H]; [|now apply G]. split.
      * apply Forall_rev, Hc.
      * apply includes_prefix.
    + destruct (IH (c :: cur) false (Forall_cons _ Sc Hc) H) as [F I]. split; [exact F|].
      cbn [rev] in I. now rewrite <- app_assoc in I.
Qed.

Lemma splitSpacesAux_head (s cur : str) :
  cur <> [] -> exists p rest, splitSpacesAux false cur s = p :: rest /\ p <> [].
Proof.
  revert cur. induction s as [|c s IH]; intros cur Hc.
  - exists (rev cur), []. split; [reflexivity|].
    intros E. apply Hc. apply (f_equal (@rev ascii)) in E. now rewrite rev_involutive in E.
  - cbn [splitSpacesAux]. destruct (isSpace c).
    + exists (rev cur), (splitSpacesAux true [] s). split; [reflexivity|].
      intros E. apply Hc. apply (f_equal (@rev ascii)) in E. now rewrite rev_involutive in E.
    + apply IH. discriminate.
Qed.

Lemma dropWhile_suffix (A : Type) (p : A -> bool) (s : list A) :
  exists a, s = a ++ dropWhile p s.
Proof.
  induction s as [|c s [a IH]]; [now exists []|]. cbn [dropWhile].
  destruct (p c); [|now exists []]. exists (c :: a). cbn [app]. now f_equal.
Qed.

Lemma trim_inside (s : str) : exists a b, s = a ++ trim s ++ b.
Proof.
  unfold trim. destruct (dropWhile_suffix isSpace s) as [a Ea].
  destruct (dropWhile_suffix isSpace (rev (dropWhile isSpace s))) as [b Eb].
  exists a, (rev b). rewrite Ea at 1. f_equal.
  apply (f_equal (@rev ascii)) in Eb. rewrite rev_involutive, rev_app_distr in Eb. exact Eb.
Qed.

Lemma includes_trim (s t : str) : includes (trim s) t = true -> includes s t = true.
Proof.
  destruct (trim_inside s) as [a [b E]]. intros H. rewrite E.
  apply includes_skip. now apply includes_app_r.
Qed.

Lemma queryTerms_blank (query : str) :
  queryTerms query = [] <-> trim (toLowerCase query) = [].
Proof.
  unfold queryTerms. split.
  - intros E. pose proof (trim_head (toLowerCase query)) as Hd.
    destruct (trim (toLowerCase query)) as [|c r]; [reflexivity|exfalso].
    unfold splitSpaces in E. cbn [splitSpacesAux] in E. rewrite Hd in E.
    destruct (@splitSpacesAux_head r [c]) as [p [rest [Ep Np]]]; [discriminate|].
    rewrite Ep in E. cbn [filter] in E.
    destruct p; [now apply Np|]. discriminate E.
  - intros ->. reflexivity.
Qed.

(** X8: The terms of a query are the pieces of the lower-cased query between
    white space: none is empty, none holds white space, and each stands in the
    lower-cased query; there is no term exactly when the query is empty or
    white space only. *)
Theorem queryTerms_pieces (query : str) :
  (forall term,
      In term (queryTerms query) ->
      term <> [] /\ Forall (fun c => isSpace c = false) term /\
      includes (toLowerCase query) term = true) /\
  (queryTerms query = [] <-> trim (toLowerCase query) = []).
Proof.
  unfold queryTerms. split.
  - intros term H. apply filter_In in H as [H T]. apply truthy_nonempty in T.
    split; [exact T|]. unfold splitSpaces in H.
    destruct (@splitSpacesAux_pieces _ [] false term (Forall_nil _) H) as [F I].
    split; [exact F|]. cbn [rev app] in I. now apply includes_trim.
  - fold (queryTerms query). apply queryTerms_blank.
Qed.

(** ** What the ranking returns *)

Lemma applyFilters_In (filters : SearchFilters) (all : list ExtractedType) (t : ExtractedType) :
  In t (applyFilters filters all) <-> In t all /\ passesFilters filters t.
Proof.
  unfold applyFilters, passesFilters.
  destruct filters as [[m|] [k|]]; cbn [f_module f_kind].
  - destruct m as [|c m]; cbn [truthy]; rewrite ?filter_In.
    + split.
      * intros [H K]. split; [exact H|]. split.
        -- intros m' E N. injection E as <-. now contradiction N.
        -- intros k' E. injection E as <-. destruct (kind t), k; (discriminate || reflexivity).
      * intros [H [_ K]]. split; [exact H|]. rewrite (K k eq_refl). now destruct k.
    + split.
      * intros [[H M] K]. split; [exact H|]. split.
        -- intros m' E N. injection E as <-. now apply str_eqb_eq.
        -- intros k' E. injection E as <-. destruct (kind t), k; (discriminate || reflexivity).
      * intros [H [M K]]. repeat split; [exact H| |].
        -- apply str_eqb_eq. apply M; [reflexivity|discriminate].
        -- rewrite (K k eq_refl). now destruct k.
  - destruct m as [|c m]; cbn [truthy]; rewrite ?filter_In.
    + split.
      * intros H. split; [exact H|]. split; [|discriminate].
        intros m' E N. injection E as <-. now contradiction N.
      * tauto.
    + split.
      * intros [H M]. split; [exact H|]. split; [|discriminate].
        intros m' E N. injection E as <-. now apply str_eqb_eq.
      * intros [H [M _]]. split; [exact H|]. apply str_eqb_eq.
        apply M; [reflexivity|discriminate].
  - rewrite filter_In. split.
    + intros [H K]. split; [exact H|]. split; [discriminate|].
      intros k' E. injection E as <-. destruct (kind t), k; (discriminate || reflexivity).
    + intros [H [_ K]]. split; [exact H|]. rewrite (K k eq_refl). now destruct k.
  - split; [|tauto]. intros H. split; [exact H|]. split; discriminate.
Qed.

Lemma weight_pos (s : Signal) : (0 < weight s)%Z.
Proof. destruct s; reflexivity. Qed.

Lemma sumZ_nonneg (l : list Z) : Forall (fun z => (0 <= z)%Z) l -> (0 <= sumZ l)%Z.
Proof. induction 1; simpl; lia. Qed.

Lemma sumZ_pos (l : list Z) :
  Forall (fun z => (0 <= z)%Z) l -> ((0 < sumZ l)%Z <-> exists z, In z l /\ (0 < z)%Z).
Proof.
  induction 1 as [|z l Hz Hl IH]; simpl.
  - split; [lia|]. intros [z [[] _]].
  - pose proof (sumZ_nonneg Hl). split.
    + intros P. destruct (Z.ltb_spec 0 z) as [G|G]; [exists z; auto|].
      destruct (proj1 IH) as [y [Hy Py]]; [lia|]. exists y. auto.
    + intros [y [[<-|Hy] Py]]; [lia|].
      assert (0 < sumZ l)%Z by (apply IH; eauto). lia.
Qed.

Lemma fired_weights_nonneg (t : ExtractedType) (term : str) :
  (0 <= sumZ (map weight (firedSignals t term)))%Z.
Proof.
  apply sumZ_nonneg, Forall_forall. intros z Hz.
  apply in_map_iff in Hz as [s [<- _]]. pose proof (weight_pos s). lia.
Qed.

Lemma firedSignals_matches (t : ExtractedType) (term : str) :
  (exists s, In s (firedSignals t term)) <-> (exists s, fieldMatches s t term = true).
Proof.
  unfold firedSignals. destruct (fieldMatches NameExact t term) eqn:E.
  - split; intros _; exists NameExact; [exact E|now left].
  - split.
    + intros [s Hs]. apply filter_In in Hs as [_ Hs]. now exists s.
    + intros [s Hs]. exists s. apply filter_In. split; [|exact Hs].
      destruct s; cbn; auto 10. congruence.
Qed.

Lemma tally_positive (terms : list str) (t : ExtractedType) :
  (0 <= fst (tally terms t))%Z /\
  ((0 < fst (tally terms t))%Z <->
   exists term s, In term terms /\ fieldMatches s t term = true).
Proof.
  rewrite tally_eq. cbn [fst].
  assert (N : Forall (fun z => (0 <= z)%Z)
                (map (fun term => sumZ (map weight (firedSignals t term))) terms)).
  { apply Forall_forall. intros z Hz. apply in_map_iff in Hz as [term [<- _]].
    apply fired_weights_nonneg. }
  split; [now apply sumZ_nonneg|]. rewrite (sumZ_pos N). split.
  - intros [z [Hz Pz]]. apply in_map_iff in Hz as [term [<- Ht]].
    exists term. destruct (proj1 (firedSignals_matches t term)) as [s Hs].
    + destruct (firedSignals t term) as [|s l]; [simpl in Pz; lia|]. exists s. now left.
    + exists s. auto.
  - intros [term [s [Ht Hs]]].
    exists (sumZ (map weight (firedSignals t term))). split.
    + apply in_map_iff. now exists term.
    + destruct (proj2 (firedSignals_matches t term)) as [s' Hs']; [now exists s|].
      apply sumZ_pos.
      * apply Forall_forall. intros z Hz. apply in_map_iff in Hz as [u [<- _]].
        pose proof (weight_pos u). lia.
      * exists (weight s'). split; [now apply in_map|apply weight_pos].
Qed.

Lemma rankType_ranks (terms : list str) (t : ExtractedType) :
  (terms = [] \/ exists term s, In term terms /\ fieldMatches s t term = true) ->
  rankType terms t = [entryOf terms t].
Proof.
  intros H. unfold rankType. fold (tally terms t). unfold entryOf.
  destruct H as [->|H]; [reflexivity|].
  apply (tally_positive terms t) in H. apply Z.ltb_lt in H. rewrite H.
  now rewrite orb_true_r.
Qed.

Lemma searchByContext_matches (localeCompare : str -> str -> Z) (all : list ExtractedType)
  (query : str) (limit : Z) (filters : SearchFilters) (e : RankedTypeResult) :
  In e (searchByContext localeCompare all query limit filters) ->
  In (r_type e) all /\ passesFilters filters (r_type e) /\
  (queryTerms query = [] \/ matchesQuery (r_type e) query).
Proof.
  intros H. apply searchByContext_entry in H as [Hf [E S]].
  apply applyFilters_In in Hf as [Ha Hp]. split; [exact Ha|]. split; [exact Hp|].
  destruct S as [S|S]; [now left|]. right. rewrite E in S. cbn [score entryOf] in S.
  now apply tally_positive in S.
Qed.

(** X9: The ranking never returns more than [max(1, limit)] entries, so that a
    limit of zero or below still lets one entry through; every entry is a
    declaration of the index that passes the filters (the module up to the
    case of the letters, an empty module filter being no filter; the kind
    exactly) and, unless the query has no term, matches a term of the query. *)
Theorem searchByContext_limit_and_filters (localeCompare : str -> str -> Z)
  (all : list ExtractedType) (query : str) (limit : Z) (filters : SearchFilters) :
  length (searchByContext localeCompare all query limit filters) <= Z.to_nat (Z.max 1 limit) /\
  length (searchByContext localeCompare all query limit filters) <= length all /\
  ((limit <= 1)%Z -> length (searchByContext localeCompare all query limit filters) <= 1) /\
  (forall e,
      In e (searchByContext localeCompare all query limit filters) ->
      In (r_type e) all /\ passesFilters filters (r_type e) /\
      (queryTerms query = [] \/ matchesQuery (r_type e) query)).
Proof.
  assert (B : length (searchByContext localeCompare all query limit filters)
              <= Z.to_nat (Z.max 1 limit)).
  { unfold searchByContext, sliceMax1. rewrite length_firstn. lia. }
  split; [exact B|]. split; [|split].
  - unfold searchByContext, sliceMax1. rewrite length_firstn.
    rewrite (Permutation_length (sortBy_perm _ _)).
    pose proof (flat_map_rankType_length (queryTerms query) (applyFilters filters all)).
    pose proof (applyFilters_length filters all). lia.
  - intros H. replace (Z.max 1 limit) with 1%Z in B by lia. exact B.
  - intros e. apply searchByContext_matches.
Qed.

Lemma nth_error_firstn_Some (A : Type) (n i : nat) (l : list A) (x : A) :
  nth_error (firstn n l) i = Some x -> nth_error l i = Some x.
Proof.
  revert i l. induction n as [|n IH]; intros i l H.
  - destruct i; discriminate H.
  - destruct l as [|y l]; [destruct i; discriminate H|].
    destruct i as [|i]; [exact H|]. cbn [firstn nth_error] in *. now apply IH.
Qed.

(** X10: For a consistent collation the entries come by falling score, and entries
    of one score in the order of the collation of their names. *)
Theorem searchByContext_ordered (localeCompare : str -> str -> Z)
  (all : list ExtractedType) (query : str) (limit : Z) (filters : SearchFilters)
  (i j : nat) (x y : RankedTypeResult) :
  ConsistentComparator localeCompare ->
  i < j ->
  nth_error (searchByContext localeCompare all query limit filters) i = Some x ->
  nth_error (searchByContext localeCompare all query limit filters) j = Some y ->
  (score y < score x)%Z \/
  (score x = score y /\ (localeCompare (name (r_type x)) (name (r_type y)) <= 0)%Z).
Proof.
  intros C Hij Hx Hy. unfold searchByContext, sliceMax1 in Hx, Hy.
  apply nth_error_firstn_Some in Hx, Hy.
  exact (StronglySorted_nth
           (sortBy_lexBefore score (fun e => name (r_type e)) C _) Hij Hx Hy).
Qed.

Lemma searchByContext_ordered_witness :
  ConsistentComparator codeUnitCompare /\ 0 < 1 /\
  nth_error (searchByContext codeUnitCompare index_small (L "string") 20%Z noFilters) 0
  = Some (entryOf [L "string"] d_string_jid) /\
  nth_error (searchByContext codeUnitCompare index_small (L "string") 20%Z noFilters) 1
  = Some (entryOf [L "string"] d_string_msg) /\
  score (entryOf [L "string"] d_string_jid) = score (entryOf [L "string"] d_string_msg) /\
  (codeUnitCompare (name d_string_jid) (name d_string_msg) <= 0)%Z.
Proof.
  assert (C : ConsistentComparator codeUnitCompare) by apply codeUnitCompare_consistent.
  assert (Hx : nth_error (searchByContext codeUnitCompare index_small (L "string") 20%Z
                            noFilters) 0
               = Some (entryOf [L "string"] d_string_jid)) by (vm_compute; reflexivity).
  assert (Hy : nth_error (searchByContext codeUnitCompare index_small (L "string") 20%Z
                            noFilters) 1
               = Some (entryOf [L "string"] d_string_msg)) by (vm_compute; reflexivity).
  split; [exact C|]. split; [lia|]. split; [exact Hx|]. split; [exact Hy|].
  destruct (@searchByContext_ordered codeUnitCompare index_small (L "string") 20%Z noFilters
              0 1 _ _ C (Nat.lt_0_1) Hx Hy) as [F|F].
  - vm_compute in F. discriminate F.
  - exact F.
Defined.

Lemma ranked_In (localeCompare : str -> str -> Z) (all : list ExtractedType) (query : str)
  (limit : Z) (filters : SearchFilters) (t : ExtractedType) :
  (Z.of_nat (length all) <= limit)%Z ->
  In t all -> passesFilters filters t ->
  (queryTerms query = [] \/ matchesQuery t query) ->
  In (entryOf (queryTerms query) t) (searchByContext localeCompare all query limit filters).
Proof.
  intros Hl Ha Hp Hm. unfold searchByContext, sliceMax1.
  rewrite firstn_all2.
  - apply sortBy_In, in_flat_map. exists t. split; [now apply applyFilters_In|].
    rewrite (@rankType_ranks (queryTerms query) t Hm). now left.
  - rewrite (Permutation_length (sortBy_perm _ _)).
    pose proof (flat_map_rankType_length (queryTerms query) (applyFilters filters all)).
    pose proof (applyFilters_length filters all). lia.
Qed.

(** X11: [fuzzySearch] returns declarations of the index only, each of which
    matches a term of the query in its name, signature, documentation, file,
    module or kind (lower-cased), unless the query has no term. *)
Theorem fuzzySearch_sound (localeCompare : str -> str -> Z) (all : list ExtractedType)
  (query : str) (limit : Z) (t : ExtractedType) :
  In t (fuzzySearch localeCompare all query limit) ->
  In t all /\ (queryTerms query = [] \/ matchesQuery t query).
Proof.
  unfold fuzzySearch. intros H. apply in_map_iff in H as [e [<- He]].
  destruct (searchByContext_matches _ _ _ _ _ _ He) as (Ha & _ & Hm). auto.
Qed.

Lemma fuzzySearch_sound_witness :
  In d_dial (fuzzySearch codeUnitCompare index_small (L "Socket  DIAL") 5%Z) /\
  In d_dial index_small /\
  (queryTerms (L "Socket  DIAL") = [] \/ matchesQuery d_dial (L "Socket  DIAL")).
Proof.
  assert (H : In d_dial (fuzzySearch codeUnitCompare index_small (L "Socket  DIAL") 5%Z))
    by (vm_compute; left; reflexivity).
  split; [exact H|].
  exact (@fuzzySearch_sound codeUnitCompare index_small (L "Socket  DIAL") 5%Z d_dial H).
Defined.

(** X12: With a limit that is not below the number of declarations nothing is cut
    off: every declaration of the index that matches a term of the query is
    returned, and for a query without terms every declaration is. *)
Theorem fuzzySearch_complete (localeCompare : str -> str -> Z) (all : list ExtractedType)
  (query : str) (limit : Z) (t : ExtractedType) :
  (Z.of_nat (length all) <= limit)%Z ->
  In t all ->
  queryTerms query = [] \/ matchesQuery t query ->
  In t (fuzzySearch localeCompare all query limit).
Proof.
  intros Hl Ha Hm. unfold fuzzySearch. apply in_map_iff.
  exists (entryOf (queryTerms query) t). split; [reflexivity|].
  apply ranked_In; auto. split; discriminate.
Qed.

Lemma fuzzySearch_complete_witness :
  (Z.of_nat (length index_small) <= 5)%Z /\
  In d_connect index_small /\
  matchesQuery d_connect (L "websocket") /\
  In d_connect (fuzzySearch codeUnitCompare index_small (L "websocket") 5%Z).
Proof.
  assert (Hl : (Z.of_nat (length index_small) <= 5)%Z) by (vm_compute; discriminate).
  assert (Ha : In d_connect index_small) by (right; left; reflexivity).
  assert (Hm : matchesQuery d_connect (L "websocket")).
  { exists (L "websocket"), DocsSub. split; [left|]; vm_compute; reflexivity. }
  split; [exact Hl|]. split; [exact Ha|]. split; [exact Hm|].
  exact (@fuzzySearch_complete codeUnitCompare index_small (L "websocket") 5%Z d_connect
           Hl Ha (or_intror Hm)).
Defined.

(** X13: A query without terms (empty, or white space only) ranks every
    declaration that passes the filters, with score zero and no label. *)
Theorem searchByContext_blank_query (localeCompare : str -> str -> Z)
  (all : list ExtractedType) (query : str) (limit : Z) (filters : SearchFilters) :
  trim (toLowerCase query) = [] ->
  (forall e, In e (searchByContext localeCompare all query limit filters) ->
             score e = 0%Z /\ matchedIn e = []) /\
  length (searchByContext localeCompare all query limit filters)
  = Nat.min (Z.to_nat (Z.max 1 limit)) (length (applyFilters filters all)).
Proof.
  intros B. apply queryTerms_blank in B. split.
  - intros e H. apply searchByContext_entry in H as [_ [E _]]. rewrite E, B. now cbn.
  - unfold searchByContext, sliceMax1. rewrite length_firstn.
    rewrite (Permutation_length (sortBy_perm _ _)). f_equal. rewrite B.
    induction (applyFilters filters all) as [|t l IH]; [reflexivity|].
    cbn [flat_map length app rankType Nat.eqb orb]. now rewrite IH.
Qed.

Lemma searchByContext_blank_query_witness :
  trim (toLowerCase (L "  ")) = [] /\
  length (searchByContext codeUnitCompare index_small (L "  ") 0%Z noFilters) = 1.
Proof.
  assert (B : trim (toLowerCase (L "  ")) = []) by (vm_compute; reflexivity).
  split; [exact B|].
  exact (proj2 (@searchByContext_blank_query codeUnitCompare index_small (L "  ") 0%Z
                  noFilters B)).
Defined.

(** ** Statistics *)

Lemma fold_bumpKind (l : list ExtractedType) (byKind : ExtractedKind -> nat)
  (k : ExtractedKind) :
  fold_left bumpKind l byKind k = byKind k + length (getTypesByKind l k).
Proof.
  revert byKind. induction l as [|t l IH]; intros byKind; cbn [fold_left]; [simpl; lia|].
  rewrite IH. unfold bumpKind, getTypesByKind. cbn [filter].
  destruct (kind t), k; cbn [kind_eqb length]; lia.
Qed.

Lemma kinds_partition (l : list ExtractedType) :
  sumNat (map (fun k => length (getTypesByKind l k)) allKinds) = length l.
Proof.
  induction l as [|t l IH]; [reflexivity|].
  unfold getTypesByKind, allKinds, sumNat in *. cbn [map fold_right filter] in *.
  destruct (kind t); cbn [kind_eqb length]; lia.
Qed.

Lemma mapGet_countType (m : list (str * ModuleStatistics)) (t : ExtractedType) (k : str) :
  mapGet (countType m t) k
  = if str_eqb (module t) k
    then Some (countKind (match mapGet m (module t) with
                          | Some s => s
                          | None => newModuleStatistics (module t)
                          end) (kind t))
    else mapGet m k.
Proof.
  unfold countType, mapHas.
  destruct (mapGet m (module t)) as [s|] eqn:E; cbn [negb].
  - rewrite E. apply mapGet_mapSet.
  - rewrite mapGet_mapSet, str_eqb_refl. rewrite !mapGet_mapSet.
    destruct (str_eqb (module t) k); reflexivity.
Qed.

Lemma countType_keys (m : list (str * ModuleStatistics)) (t : ExtractedType) (k : str) :
  In k (map fst (countType m t)) <-> k = module t \/ In k (map fst m).
Proof.
  unfold countType, mapHas.
  destruct (mapGet m (module t)) as [s|] eqn:E; cbn [negb].
  - rewrite E. apply mapSet_keys.
  - rewrite mapGet_mapSet, str_eqb_refl. rewrite !mapSet_keys. tauto.
Qed.

Lemma countType_NoDup (m : list (str * ModuleStatistics)) (t : ExtractedType) :
  NoDup (map fst m) -> NoDup (map fst (countType m t)).
Proof.
  intros H. unfold countType, mapHas.
  destruct (mapGet m (module t)) as [s|] eqn:E; cbn [negb].
  - rewrite E. now apply mapSet_NoDup.
  - rewrite mapGet_mapSet, str_eqb_refl. now apply mapSet_NoDup, mapSet_NoDup.
Qed.

Lemma fold_countType_keys (l : list ExtractedType) (m : list (str * ModuleStatistics))
  (k : str) :
  In k (map fst (fold_left countType l m))
  <-> In k (map fst m) \/ exists t, In t l /\ module t = k.
Proof.
  revert m. induction l as [|t l IH]; intros m; cbn [fold_left].
  - split; [auto|]. intros [H|[t [[] _]]]. exact H.
  - rewrite IH, countType_keys. split.
    + intros [[->|H]|[u [Hu E]]]; [right; exists t; simpl; auto | auto |].
      right. exists u. simpl. auto.
    + intros [H|[u [[<-|Hu] E]]]; [auto | left; left; now symmetry |].
      right. now exists u.
Qed.

Lemma fold_countType_NoDup (l : list ExtractedType) (m : list (str * ModuleStatistics)) :
  NoDup (map fst m) -> NoDup (map fst (fold_left countType l m)).
Proof.
  revert m. induction l as [|t l IH]; intros m H; cbn [fold_left]; [exact H|].
  now apply IH, countType_NoDup.
Qed.

Lemma mapGet_fold_countType (l : list ExtractedType) (m : list (str * ModuleStatistics))
  (k : str) (stat : ModuleStatistics) :
  mapGet (fold_left countType l m) k = Some stat ->
  stat
  = fold_left countKind
      (map (fun t => kind t) (filter (fun t => str_eqb (module t) k) l))
      (match mapGet m k with Some s => s | None => newModuleStatistics k end).
Proof.
  revert m. induction l as [|t l IH]; intros m H; cbn [fold_left] in H.
  - cbn. rewrite H. reflexivity.
  - apply IH in H. rewrite mapGet_countType in H. cbn [filter].
    destruct (str_eqb (module t) k) eqn:E; [|exact H].
    apply str_eqb_eq in E. subst k. exact H.
Qed.

Lemma fold_countKind (ks : list ExtractedKind) (s : ModuleStatistics) :
  let r := fold_left countKind ks s in
  let n := fun k => length (filter (fun k' => kind_eqb k' k) ks) in
  ms_module r = ms_module s /\
  ms_interfaces r = ms_interfaces s + n K_interface /\
  ms_structs r = ms_structs s + n K_struct /\
  ms_types r = ms_types s + n K_type /\
  ms_functions r = ms_functions s + n K_function /\
  ms_methods r = ms_methods s + n K_method /\
  ms_consts r = ms_consts s + n K_const /\
  ms_variables r = ms_variables s + n K_variable /\
  ms_total r = ms_total s + length ks.
Proof.
  revert s. induction ks as [|k ks IH]; intros s; cbn zeta.
  - cbn. repeat split; lia.
  - cbn [fold_left]. specialize (IH (countKind s k)). cbn zeta in IH.
    destruct IH as (E0 & E1 & E2 & E3 & E4 & E5 & E6 & E7 & E8).
    rewrite E0, E1, E2, E3, E4, E5, E6, E7, E8. cbn [filter].
    destruct k; cbn; repeat split; lia.
Qed.

Lemma filter_module_kind (l : list ExtractedType) (m : str) (k : ExtractedKind) :
  length (filter (fun k' => kind_eqb k' k)
            (map (fun t => kind t) (filter (fun t => str_eqb (module t) m) l)))
  = countOf l m k.
Proof.
  unfold countOf. induction l as [|t l IH]; [reflexivity|]. cbn [filter].
  destruct (str_eqb (module t) m); cbn [andb map filter]; [|exact IH].
  destruct (kind_eqb (kind t) k); cbn [length]; now rewrite IH.
Qed.

Lemma In_snd_mapGet (V : Type) (m : list (str * V)) (v : V) :
  In v (map snd m) -> NoDup (map fst m) -> exists k, mapGet m k = Some v.
Proof.
  intros H N. apply in_map_iff in H as [[k w] [E H]]. cbn in E. subst w.
  exists k. now apply In_mapGet.
Qed.

Lemma sumTotals_mapSet (m : list (str * ModuleStatistics)) (k : str) (v : ModuleStatistics) :
  sumNat (map (fun kv => ms_total (snd kv)) (mapSet m k v))
  + match mapGet m k with Some old => ms_total old | None => 0 end
  = sumNat (map (fun kv => ms_total (snd kv)) m) + ms_total v.
Proof.
  induction m as [|[k0 w] m IH]; cbn [mapSet mapGet map sumNat fold_right snd]; [lia|].
  destruct (str_eqb k0 k); cbn [map sumNat fold_right snd].
  - lia.
  - unfold sumNat in IH. lia.
Qed.

Lemma sumTotals_countType (m : list (str * ModuleStatistics)) (t : ExtractedType) :
  sumNat (map (fun kv => ms_total (snd kv)) (countType m t))
  = sumNat (map (fun kv => ms_total (snd kv)) m) + 1.
Proof.
  unfold countType, mapHas.
  destruct (mapGet m (module t)) as [s|] eqn:E; cbn [negb].
  - rewrite E. pose proof (sumTotals_mapSet m (module t) (countKind s (kind t))) as H.
    rewrite E in H. cbn [countKind ms_total] in H. lia.
  - rewrite mapGet_mapSet, str_eqb_refl.
    pose proof (sumTotals_mapSet m (module t) (newModuleStatistics (module t))) as H1.
    rewrite E in H1.
    pose proof (sumTotals_mapSet (mapSet m (module t) (newModuleStatistics (module t)))
                  (module t)
                  (countKind (newModuleStatistics (module t)) (kind t))) as H2.
    rewrite mapGet_mapSet, str_eqb_refl in H2. cbn [countKind newModuleStatistics ms_total] in *.
    lia.
Qed.

Lemma sumTotals_fold (l : list ExtractedType) (m : list (str * ModuleStatistics)) :
  sumNat (map (fun kv => ms_total (snd kv)) (fold_left countType l m))
  = sumNat (map (fun kv => ms_total (snd kv)) m) + length l.
Proof.
  revert m. induction l as [|t l IH]; intros m; cbn [fold_left length]; [lia|].
  rewrite IH, sumTotals_countType. lia.
Qed.

Lemma sumNat_perm (l l' : list nat) : Permutation l l' -> sumNat l = sumNat l'.
Proof. unfold sumNat. induction 1; simpl; lia. Qed.

Lemma moduleMap_NoDup (all : list ExtractedType) :
  NoDup (map fst (fold_left countType all [])).
Proof. apply fold_countType_NoDup. constructor. Qed.

Lemma mapGet_key (V : Type) (m : list (str * V)) (k : str) (v : V) :
  mapGet m k = Some v -> In k (map fst m).
Proof.
  induction m as [|[k0 w0] m IH]; cbn [mapGet map fst In]; [discriminate|].
  destruct (str_eqb k0 k) eqn:E; [apply str_eqb_eq in E; auto|]. auto.
Qed.

(** The entry of a module in the map: the counters of the declarations of
    that module, in the order of the index. *)
Lemma moduleMap_entry (all : list ExtractedType) (stat : ModuleStatistics) :
  In stat (map snd (fold_left countType all [])) ->
  exists k,
    (exists t, In t all /\ module t = k) /\
    stat = fold_left countKind
             (map (fun t => kind t) (filter (fun t => str_eqb (module t) k) all))
             (newModuleStatistics k).
Proof.
  intros H. destruct (In_snd_mapGet _ _ H (moduleMap_NoDup all)) as [k G].
  exists k. split.
  - apply mapGet_key, fold_countType_keys in G as [[]|G]. exact G.
  - now apply mapGet_fold_countType in G.
Qed.

Lemma moduleMap_entry_module (all : list ExtractedType) (k : str) (stat : ModuleStatistics) :
  In (k, stat) (fold_left countType all []) -> ms_module stat = k.
Proof.
  intros H. pose proof (In_mapGet _ _ _ (moduleMap_NoDup all) H) as G.
  apply mapGet_fold_countType in G. rewrite G. cbn [mapGet].
  now destruct (fold_countKind
                  (map (fun t => kind t) (filter (fun t => str_eqb (module t) k) all))
                  (newModuleStatistics k)) as [-> _].
Qed.

Lemma byModule_names (localeCompare : str -> str -> Z) (all : list ExtractedType) :
  Permutation (map (fun stat => ms_module stat) (byModule (getStatistics localeCompare all)))
    (map fst (fold_left countType all [])).
Proof.
  unfold getStatistics. cbn [byModule].
  rewrite (Permutation_map _ (sortBy_perm _ _)). rewrite map_map.
  erewrite map_ext_in; [reflexivity|]. intros [k stat] H. cbn [fst snd].
  now apply moduleMap_entry_module with all.
Qed.

(** The modules of the statistics are the modules of the declarations, as
    written. *)
Lemma byModule_modules (localeCompare : str -> str -> Z) (all : list ExtractedType) (m : str) :
  In m (map (fun stat => ms_module stat) (byModule (getStatistics localeCompare all)))
  <-> exists t, In t all /\ module t = m.
Proof.
  split.
  - intros H. apply (Permutation_in _ (byModule_names localeCompare all)) in H.
    apply fold_countType_keys in H as [[]|H]. exact H.
  - intros H. apply (Permutation_in _ (Permutation_sym (byModule_names localeCompare all))).
    apply fold_countType_keys. now right.
Qed.

Lemma countOf_partition (all : list ExtractedType) (k : str) :
  sumNat (map (countOf all k) allKinds)
  = length (filter (fun t => str_eqb (module t) k) all).
Proof.
  rewrite <- kinds_partition. f_equal. apply map_ext. intros kd.
  unfold getTypesByKind, countOf. induction all as [|t l IH]; [reflexivity|].
  cbn [filter]. destruct (str_eqb (module t) k); cbn [andb filter]; [|exact IH].
  destruct (kind_eqb (kind t) kd); cbn [length]; now rewrite IH.
Qed.

(** X14: The statistics add up.  The total is the number of declarations of the
    index; the seven counters by kind count the declarations of each kind and
    sum to the total; there is one entry for each module of a declaration
    (the module as written, case and all), its counters count the
    declarations of that module of each kind, its total is their sum and is
    not zero; and the totals of the modules sum to the total. *)
Theorem getStatistics_adds_up (localeCompare : str -> str -> Z) (all : list ExtractedType) :
  let stats := getStatistics localeCompare all in
  totalDeclarations stats = length all /\
  (forall k, ls_byKind stats k = length (getTypesByKind all k)) /\
  sumNat (map (ls_byKind stats) allKinds) = totalDeclarations stats /\
  sumNat (map (fun stat => ms_total stat) (byModule stats)) = totalDeclarations stats /\
  NoDup (map (fun stat => ms_module stat) (byModule stats)) /\
  (forall m, In m (map (fun stat => ms_module stat) (byModule stats))
             <-> exists t, In t all /\ module t = m) /\
  (forall stat,
      In stat (byModule stats) ->
      ms_interfaces stat = countOf all (ms_module stat) K_interface /\
      ms_structs stat = countOf all (ms_module stat) K_struct /\
      ms_types stat = countOf all (ms_module stat) K_type /\
      ms_functions stat = countOf all (ms_module stat) K_function /\
      ms_methods stat = countOf all (ms_module stat) K_method /\
      ms_consts stat = countOf all (ms_module stat) K_const /\
      ms_variables stat = countOf all (ms_module stat) K_variable /\
      ms_total stat
      = ms_interfaces stat + ms_structs stat + ms_types stat + ms_functions stat
        + ms_methods stat + ms_consts stat + ms_variables stat /\
      0 < ms_total stat).
Proof.
  cbn zeta.
  assert (K : forall k, ls_byKind (getStatistics localeCompare all) k
                        = length (getTypesByKind all k)).
  { intros k. unfold getStatistics. cbn [ls_byKind]. now rewrite fold_bumpKind. }
  split; [reflexivity|]. split; [exact K|]. split; [|split; [|split; [|split]]].
  - cbn [getStatistics totalDeclarations]. rewrite <- kinds_partition. f_equal.
    apply map_ext. exact K.
  - unfold getStatistics. cbn [byModule totalDeclarations].
    rewrite (sumNat_perm (Permutation_map _ (sortBy_perm _ _))).
    rewrite map_map. now rewrite sumTotals_fold.
  - apply (Permutation_NoDup (Permutation_sym (byModule_names localeCompare all))).
    apply moduleMap_NoDup.
  - apply byModule_modules.
  - intros stat H. unfold getStatistics in H. cbn [byModule] in H.
    apply sortBy_In, moduleMap_entry in H as [k [[t [Ht Em]] ->]].
    destruct (fold_countKind
                (map (fun t => kind t) (filter (fun t => str_eqb (module t) k) all))
                (newModuleStatistics k)) as (E0 & E1 & E2 & E3 & E4 & E5 & E6 & E7 & E8).
    cbn zeta in *. rewrite E0, E1, E2, E3, E4, E5, E6, E7, E8.
    cbn [newModuleStatistics ms_module ms_interfaces ms_structs ms_types ms_functions
         ms_methods ms_consts ms_variables ms_total Nat.add].
    rewrite !filter_module_kind, length_map.
    pose proof (countOf_partition all k) as P.
    assert (Q : 0 < length (filter (fun t => str_eqb (module t) k) all)).
    { assert (I : In t (filter (fun t => str_eqb (module t) k) all))
        by (apply filter_In; split; [exact Ht|now apply str_eqb_eq]).
      destruct (filter (fun t => str_eqb (module t) k) all); [destruct I|simpl; lia]. }
    repeat split; try reflexivity; [|exact Q].
    rewrite <- P. unfold allKinds, sumNat. cbn [map fold_right]. lia.
Qed.

Lemma StronglySorted_app_cross (A : Type) (R : A -> A -> Prop) (l1 l2 : list A) :
  StronglySorted R (l1 ++ l2) ->
  StronglySorted R l1 /\ forall x y, In x l1 -> In y l2 -> R x y.
Proof.
  induction l1 as [|a l1 IH]; cbn [app]; intros H.
  - split; [constructor|]. intros x y [].
  - inversion H as [|? ? Hs Hf]; subst. destruct (IH Hs) as [S1 C].
    rewrite Forall_forall in Hf. split.
    + constructor; [exact S1|]. apply Forall_forall. intros y Hy.
      apply Hf, in_or_app. now left.
    + intros x y [<-|Hx] Hy; [apply Hf, in_or_app; now right|now apply C].
Qed.

(** X15: [topNames] gives the first [limit] names in the order of the collation:
    it is sorted, no name left out goes before a name it lists, and a name
    that several declarations have is listed once for each of them. *)
Theorem topNames_first_in_order (localeCompare : str -> str -> Z)
  (types : list ExtractedType) (limit : nat) :
  ConsistentComparator localeCompare ->
  length (topNames localeCompare types limit) = Nat.min limit (length types) /\
  StronglySorted (fun a b => (localeCompare a b <= 0)%Z) (topNames localeCompare types limit) /\
  exists rest,
    Permutation (topNames localeCompare types limit ++ rest) (map (fun t => name t) types) /\
    forall a b, In a (topNames localeCompare types limit) -> In b rest ->
                (localeCompare a b <= 0)%Z.
Proof.
  intros C. unfold topNames.
  set (sorted := sortBy localeCompare (map (fun t => name t) types)).
  assert (P : Permutation sorted (map (fun t => name t) types)) by apply sortBy_perm.
  pose proof (sortBy_sorted_cmp (map (fun t => name t) types) C) as S. fold sorted in S.
  rewrite <- (firstn_skipn limit sorted) in S.
  apply StronglySorted_app_cross in S as [S1 Cross].
  split; [|split; [exact S1|]].
  - rewrite length_firstn, (Permutation_length P), length_map. reflexivity.
  - exists (skipn limit sorted). split; [|exact Cross].
    now rewrite firstn_skipn.
Qed.

Lemma topNames_first_in_order_witness :
  ConsistentComparator codeUnitCompare /\
  topNames codeUnitCompare (getFunctions index_small) 2 = [L "Connect"; L "Dial"] /\
  length (topNames codeUnitCompare (getFunctions index_small) 2)
  = Nat.min 2 (length (getFunctions index_small)).
Proof.
  split; [exact codeUnitCompare_consistent|]. split; [vm_compute; reflexivity|].
  exact (proj1 (@topNames_first_in_order codeUnitCompare (getFunctions index_small) 2
                  codeUnitCompare_consistent)).
Defined.

(** ** The summary of a module *)

Lemma getTypesFromModule_In (all : list ExtractedType) (m : str) (t : ExtractedType) :
  In t (getTypesFromModule all m)
  <-> In t all /\ toLowerCase (module t) = toLowerCase m.
Proof. unfold getTypesFromModule. rewrite filter_In, str_eqb_eq. reflexivity. Qed.

(** X16: The summary of a module counts the declarations whose module is the one
    asked for up to the case of the letters: the counters by kind sum to the
    total; the files are the files of these declarations, each once, so that
    they are not more than the declarations; and the total is zero exactly
    when no declaration has that module, in which case files and highlights
    are empty.  The module of the summary is the name as it was asked. *)
Theorem summarizeModule_counts (localeCompare : str -> str -> Z)
  (all : list ExtractedType) (moduleName : str) (highlightCount : Z) :
  let summary := summarizeModule localeCompare all moduleName highlightCount in
  s_module summary = moduleName /\
  sumNat (map (byKind summary) allKinds) = total summary /\
  NoDup (files summary) /\
  (forall f, In f (files summary)
             <-> exists t, In t all /\ toLowerCase (module t) = toLowerCase moduleName /\
                           file t = f) /\
  length (files summary) <= total summary /\
  (total summary = 0
   <-> forall t, In t all -> toLowerCase (module t) <> toLowerCase moduleName) /\
  (total summary = 0 -> files summary = [] /\ highlights summary = []).
Proof.
  cbn zeta. unfold summarizeModule. cbn [s_module byKind total files highlights].
  set (types := getTypesFromModule all moduleName).
  assert (F : forall f, In f (sortBy localeCompare (newSet (map file types)))
                        <-> exists t, In t all /\
                                      toLowerCase (module t) = toLowerCase moduleName /\
                                      file t = f).
  { intros f. rewrite sortBy_In, newSet_In, in_map_iff. split.
    - intros [t [E H]]. apply getTypesFromModule_In in H as [Ha Hm]. now exists t.
    - intros [t [Ha [Hm E]]]. exists t. split; [exact E|]. now apply getTypesFromModule_In. }
  split; [reflexivity|]. split; [|split; [|split; [exact F|split; [|split]]]].
  - apply (kinds_partition types).
  - apply sortBy_NoDup, newSet_NoDup.
  - rewrite <- (length_map file types).
    rewrite (Permutation_length (sortBy_perm _ _)).
    apply NoDup_incl_length; [apply newSet_NoDup|].
    intros f. now rewrite newSet_In.
  - split.
    + intros Z t Ha Hm. assert (I : In t types) by now apply getTypesFromModule_In.
      destruct types; [destruct I|discriminate Z].
    + intros H. destruct types as [|t l] eqn:E; [reflexivity|exfalso].
      assert (I : In t (getTypesFromModule all moduleName)).
      { fold types. rewrite E. now left. }
      apply getTypesFromModule_In in I as [Ha Hm]. exact (H t Ha Hm).
  - intros Z. destruct types; [|discriminate Z]. split; [reflexivity|].
    unfold sliceMax1. now destruct (Z.to_nat (Z.max 1 highlightCount)).
Qed.

(** ** The module that is not found *)

(** X17: When the summary of a module is empty, the tool [whatsmeow_resumo_modulo]
    answers that the module is not found and lists the modules of the
    statistics: none of the modules it lists is the module that was asked
    for, not even up to the case of the letters; and a module of the
    statistics, asked for as it is listed, always has a summary that is not
    empty. *)
Theorem module_not_found_is_unknown (localeCompare : str -> str -> Z)
  (all : list ExtractedType) (modulo : str) (destaque : Z) :
  (total (summarizeModule localeCompare all modulo destaque) = 0 ->
   forall known, In known (knownModules localeCompare all) ->
                 toLowerCase known <> toLowerCase modulo) /\
  (In modulo (map (fun stat => ms_module stat) (byModule (getStatistics localeCompare all))) ->
   0 < total (summarizeModule localeCompare all modulo destaque)).
Proof.
  unfold summarizeModule. cbn [total]. split.
  - intros Z known H E. unfold knownModules in H. apply In_firstn in H.
    apply byModule_modules in H as [t [Ht Em]]. subst known.
    assert (I : In t (getTypesFromModule all modulo)) by now apply getTypesFromModule_In.
    destruct (getTypesFromModule all modulo); [destruct I|discriminate Z].
  - intros H. apply byModule_modules in H as [t [Ht Em]]. subst modulo.
    assert (I : In t (getTypesFromModule all (module t))) by now apply getTypesFromModule_In.
    destruct (getTypesFromModule all (module t)); [destruct I|simpl; lia].
Qed.

(** ** Imports *)

Lemma isChar_eq (a c : ascii) : isChar a c = true -> c = a.
Proof. unfold isChar. intros H. apply Ascii.eqb_eq in H. now symmetry. Qed.

Lemma rsem_quoted prev s c p' s' c' :
  rsem (RCat [RClass (isChar DQUOTE);
              RGroup 1 (RPlus (RClass (fun ch => negb (isChar DQUOTE ch))));
              RClass (isChar DQUOTE)]) prev s c p' s' c' ->
  exists w, s = [DQUOTE] ++ w ++ [DQUOTE] ++ s' /\ w <> [] /\
            Forall (fun ch => isChar DQUOTE ch = false) w /\ capture 1 c' = Some w.
Proof.
  cbn [RCat]. unfold RPlus. intros H.
  inversion H as [| |? ? ? ? ? p1 s1 c1 ? ? ? Hq Hrest| | | | | | | |]; subst. clear H.
  inversion Hq as [? ? x ? ? Hx| | | | | | | | | |]; subst. clear Hq.
  apply isChar_eq in Hx. subst x.
  inversion Hrest as [| |? ? ? ? ? p2 s2 c2 ? ? ? Hg Hend| | | | | | | |]; subst. clear Hrest.
  inversion Hg as [| | | | | | |? ? ? ? ? pg sg cg Hg'| | |]; subst. clear Hg.
  inversion Hend as [| |? ? ? ? ? p3 s3 c3 ? ? ? Hq2 He| | | | | | | |]; subst. clear Hend.
  inversion He; subst. clear He.
  inversion Hq2 as [? ? x ? ? Hx| | | | | | | | | |]; subst. clear Hq2.
  apply isChar_eq in Hx. subst x.
  inversion Hg' as [| |? ? ? ? ? p4 s4 c4 ? ? ? Hc Hs| | | | | | | |]; subst. clear Hg'.
  inversion Hc as [? ? y ? ? Hy| | | | | | | | | |]; subst. clear Hc.
  apply rsem_star_class in Hs as [-> [w [-> Hw]]].
  exists (y :: w). split; [|split; [discriminate|split]].
  - reflexivity.
  - constructor.
    + now apply negb_true_iff in Hy.
    + eapply Forall_impl; [|exact Hw]. intros a Ha. now apply negb_true_iff in Ha.
  - cbn [capture Nat.eqb]. f_equal.
    change (y :: w ++ DQUOTE :: s') with ((y :: w) ++ DQUOTE :: s').
    rewrite length_app, Nat.add_sub, firstn_app, Nat.sub_diag, firstn_all. cbn [firstn].
    now rewrite app_nil_r.
Qed.

Lemma quoted_prefix (w b : str) :
  includes ([DQUOTE] ++ w ++ [DQUOTE] ++ b) ([DQUOTE] ++ w ++ [DQUOTE]) = true.
Proof. apply includes_app. exists [], b. now rewrite <- !app_assoc. Qed.

Ltac quoted_in_line := subst; repeat first [ apply quoted_prefix | apply includes_skip ].

Lemma R_importSingle_quoted (line : str) (m : captures) :
  rxMatch R_importSingle line = Some m -> quotedIn line (group 1 m).
Proof.
  intros H. unfold R_importSingle in H. cbn [RCat] in H.
  apply rxMatch_sound in H as (? & ? & H).
  do 3 apply rsem_seq_split in H as (? & ? & ? & ? & ? & H).
  apply rsem_quoted in H as (w & E & N & F & C).
  rewrite (group_of_capture _ _ C). split; [exact N|]. split; [exact F|].
  quoted_in_line.
Qed.

Lemma R_importItem_quoted (line : str) (m : captures) :
  rxMatch R_importItem line = Some m -> quotedIn line (group 1 m).
Proof.
  intros H. unfold R_importItem in H. cbn [RCat] in H.
  apply rxMatch_sound in H as (? & ? & H).
  do 2 apply rsem_seq_split in H as (? & ? & ? & ? & ? & H).
  apply rsem_quoted in H as (w & E & N & F & C).
  rewrite (group_of_capture _ _ C). split; [exact N|]. split; [exact F|].
  quoted_in_line.
Qed.

Lemma quotedIn_trim (raw imp : str) : quotedIn (trim raw) imp -> quotedIn raw imp.
Proof. intros (N & F & I). repeat split; auto. now apply includes_trim. Qed.

Lemma importBlockLoop_quoted (rest : list str) (read : nat) (imp : str) :
  In imp (fst (importBlockLoop rest read)) ->
  exists raw, In raw rest /\ quotedIn raw imp.
Proof.
  revert read. induction rest as [|raw rest IH]; intros read H; [destruct H|].
  cbn [importBlockLoop] in H.
  destruct (str_eqb (trim raw) (L ")")); [destruct H|].
  destruct (importBlockLoop rest (S read)) as [more closed] eqn:E.
  cbn [fst] in H. apply in_app_iff in H as [H|H].
  - destruct (rxMatch R_importItem (trim raw)) as [blockItem|] eqn:M; [|destruct H].
    destruct H as [<-|[]]. exists raw. split; [now left|].
    now apply quotedIn_trim, R_importItem_quoted.
  - destruct (IH (S read)) as [raw' [Hr Q]]; [now rewrite E|].
    exists raw'. split; [now right|exact Q].
Qed.

Lemma In_skipn (A : Type) (n : nat) (l : list A) (x : A) : In x (skipn n l) -> In x l.
Proof.
  revert l. induction n as [|n IH]; intros l H; [exact H|].
  destruct l as [|y l]; [destruct H|]. right. now apply IH.
Qed.

Lemma importLoop_quoted (fuel : nat) (rest : list str) (imp : str) :
  In imp (importLoop fuel rest) ->
  exists raw, In raw rest /\ quotedIn raw imp.
Proof.
  revert rest. induction fuel as [|fuel IH]; intros rest H; [destruct H|].
  destruct rest as [|raw rest]; [destruct H|]. cbn [importLoop] in H.
  assert (Later : forall l, (forall x, In x l -> In x rest) -> In imp (importLoop fuel l) ->
                            exists raw', In raw' (raw :: rest) /\ quotedIn raw' imp).
  { intros l Hl G. destruct (IH l G) as [raw' [Hr Q]]. exists raw'. split; [right; auto|exact Q]. }
  destruct (rxMatch R_importSingle (trim raw)) as [single|] eqn:M.
  - destruct H as [<-|H]; [|now apply (Later rest)].
    exists raw. split; [now left|]. now apply quotedIn_trim, R_importSingle_quoted.
  - destruct (rxTest R_importBlock (trim raw)); [|now apply (Later rest)].
    destruct (importBlockLoop rest 0) as [found [read|]] eqn:E;
      apply in_app_iff in H as [H|H].
    + destruct (@importBlockLoop_quoted rest 0 imp) as [raw' [Hr Q]]; [now rewrite E|].
      exists raw'. split; [now right|exact Q].
    + apply (Later (skipn read rest)); [|exact H]. intros x. apply In_skipn.
    + destruct (@importBlockLoop_quoted rest 0 imp) as [raw' [Hr Q]]; [now rewrite E|].
      exists raw'. split; [now right|exact Q].
    + now apply (Later rest).
Qed.

(** X18: Every import that [extractImports] returns stands between two double
    quotes on a line of the file; it is not empty and holds no double
    quote. *)
Theorem extractImports_quoted (content imp : str) :
  In imp (extractImports content) ->
  exists line, In line (splitLines content) /\ quotedIn line imp.
Proof. unfold extractImports. apply importLoop_quoted. Qed.

Lemma extractImports_quoted_witness :
  In (L "example.org/store")
     (extractImports (L "import (" ++ [LF] ++
                      L "  store " ++ [DQUOTE] ++ L "example.org/store" ++ [DQUOTE] ++ [LF] ++
                      L ")"))
  /\ exists line,
    In line (splitLines (L "import (" ++ [LF] ++
                         L "  store " ++ [DQUOTE] ++ L "example.org/store" ++ [DQUOTE] ++ [LF] ++
                         L ")"))
    /\ quotedIn line (L "example.org/store").
Proof.
  assert (H : In (L "example.org/store")
                (extractImports
                   (L "import (" ++ [LF] ++
                    L "  store " ++ [DQUOTE] ++ L "example.org/store" ++ [DQUOTE] ++ [LF] ++
                    L ")"))) by (vm_compute; left; reflexivity).
  split; [exact H|]. exact (extractImports_quoted _ _ H).
Defined.

(** ** The modules of the dependency report *)

Lemma mapGet_keys (V : Type) (m : list (str * V)) (k : str) :
  In k (map fst m) <-> mapGet m k <> None.
Proof.
  induction m as [|[k0 v] m IH]; cbn [map fst In mapGet]; [tauto|].
  destruct (str_eqb k0 k) eqn:E.
  - apply str_eqb_eq in E. split; [discriminate|auto].
  - apply str_eqb_neq in E. rewrite <- IH. tauto.
Qed.

Lemma addFile_keys (m : list (str * ModuleEntry)) (f : str * str) (k : str) :
  In k (map fst (addFile m f)) <-> k = getModuleName (fst f) \/ In k (map fst m).
Proof.
  rewrite !mapGet_keys, mapGet_addFile.
  destruct (str_eqb (getModuleName (fst f)) k) eqn:E.
  - apply str_eqb_eq in E. split; [auto|discriminate].
  - apply str_eqb_neq in E. split; [auto|]. intros [F|F]; [congruence|exact F].
Qed.

Lemma addExport_keys (m : list (str * ModuleEntry)) (t : ExtractedType) (k : str) :
  In k (map fst (addExport m t)) <-> In k (map fst m).
Proof.
  rewrite !mapGet_keys, mapGet_addExport.
  destruct (str_eqb (module t) k); [|tauto].
  destruct (mapGet m k); cbn [option_map]; [|tauto]. split; discriminate.
Qed.

Lemma fold_addFile_keys (files : SourceTree) (m : list (str * ModuleEntry)) (k : str) :
  In k (map fst (fold_left addFile files m))
  <-> In k (map fst m) \/ exists f, In f files /\ getModuleName (fst f) = k.
Proof.
  revert m. induction files as [|f files IH]; intros m; cbn [fold_left].
  - split; [auto|]. intros [H|[f [[] _]]]. exact H.
  - rewrite IH, addFile_keys. split.
    + intros [[->|H]|[g [Hg E]]]; [right; exists f; simpl; auto | auto |].
      right. exists g. simpl. auto.
    + intros [H|[g [[<-|Hg] E]]]; [auto | left; left; now symmetry |].
      right. now exists g.
Qed.

Lemma fold_addExport_keys (types : list ExtractedType) (m : list (str * ModuleEntry))
  (k : str) :
  In k (map fst (fold_left addExport types m)) <-> In k (map fst m).
Proof.
  revert m. induction types as [|t types IH]; intros m; cbn [fold_left]; [tauto|].
  now rewrite IH, addExport_keys.
Qed.

(** X19: The report of [analyzeDependencies] has one entry for each module that
    has a file, and no other: a declaration of the index whose module has no
    file adds no entry.  No entry names a re-export.  For a consistent
    collation the entries come in the order of the collation of their
    modules. *)
Theorem analyzeDependencies_modules (localeCompare : str -> str -> Z)
  (files : SourceTree) (all : list ExtractedType) :
  NoDup (map (fun info => d_module info) (analyzeDependencies localeCompare files all)) /\
  (forall m, In m (map (fun info => d_module info)
                     (analyzeDependencies localeCompare files all))
             <-> exists f, In f files /\ getModuleName (fst f) = m) /\
  (forall info, In info (analyzeDependencies localeCompare files all) ->
                reExportsFrom info = []) /\
  (ConsistentComparator localeCompare ->
   StronglySorted (fun a b => (localeCompare (d_module a) (d_module b) <= 0)%Z)
     (analyzeDependencies localeCompare files all)).
Proof.
  unfold analyzeDependencies.
  set (byModule := fold_left addExport all (fold_left addFile files [])).
  set (entry := fun kv : str * ModuleEntry =>
                  {| d_module := fst kv;
                     imports := sortBy localeCompare (e_imports (snd kv));
                     exports := sortBy localeCompare (e_exports (snd kv));
                     reExportsFrom := [] |}).
  assert (P : Permutation
                (map (fun info => d_module info)
                   (sortBy (fun left right => localeCompare (d_module left) (d_module right))
                      (map entry byModule)))
                (map fst byModule)).
  { rewrite (Permutation_map _ (sortBy_perm _ _)). rewrite map_map. reflexivity. }
  split; [|split; [|split]].
  - apply (Permutation_NoDup (Permutation_sym P)).
    apply fold_addExport_NoDup, fold_addFile_NoDup. constructor.
  - intros m. split.
    + intros H. apply (Permutation_in _ P) in H.
      apply fold_addExport_keys, fold_addFile_keys in H as [[]|H]. exact H.
    + intros H. apply (Permutation_in _ (Permutation_sym P)).
      apply fold_addExport_keys, fold_addFile_keys. now right.
  - intros info H. apply sortBy_In, in_map_iff in H as [kv [<- _]]. reflexivity.
  - intros C.
    apply (sortBy_sorted_cmp (cmp := fun left right =>
                                       localeCompare (d_module left) (d_module right))).
    destruct C as [Ha Ht]. split.
    + intros a b. apply Ha.
    + intros a b c. apply Ht.
Qed.

(** ** The children of a declaration *)

(** X20: [getTypeHierarchy] answers for the declaration [searchType] finds, and
    with nothing when there is none.  Its children are the names, each once,
    of the declarations with another name whose lower-cased text (the full
    text of a block, or else the signature) holds the lower-cased name of the
    declaration; its own name is never among them. *)
Theorem getTypeHierarchy_children (localeCompare : str -> str -> Z)
  (all : list ExtractedType) (n : str) :
  match getTypeHierarchy localeCompare all n with
  | None => searchType all n = None
  | Some h =>
      searchType all n = Some (h_type h) /\
      NoDup (children h) /\
      ~ In (name (h_type h)) (children h) /\
      forall c,
        In c (children h)
        <-> exists candidate,
              In candidate all /\ name candidate = c /\ c <> name (h_type h) /\
              includes (toLowerCase (fullText candidate))
                (toLowerCase (name (h_type h))) = true
  end.
Proof.
  unfold getTypeHierarchy. destruct (searchType all n) as [target|]; [|reflexivity].
  cbn [h_type children].
  assert (C : forall c,
             In c (sortBy localeCompare
                     (newSet
                        (flat_map
                           (fun candidate =>
                              if str_eqb (name candidate) (name target) then []
                              else if includes (toLowerCase (fullText candidate))
                                        (toLowerCase (name target))
                                   then [name candidate] else [])
                           all)))
             <-> exists candidate,
                   In candidate all /\ name candidate = c /\ c <> name target /\
                   includes (toLowerCase (fullText candidate))
                     (toLowerCase (name target)) = true).
  { intros c. rewrite sortBy_In, newSet_In, in_flat_map. split.
    - intros [candidate [Ha H]]. exists candidate.
      destruct (str_eqb (name candidate) (name target)) eqn:E; [destruct H|].
      destruct (includes _ _) eqn:I; [|destruct H].
      destruct H as [<-|[]]. apply str_eqb_neq in E. auto.
    - intros [candidate [Ha [<- [N I]]]]. exists candidate. split; [exact Ha|].
      apply str_eqb_neq in N. rewrite N, I. now left. }
  split; [reflexivity|]. split; [apply sortBy_NoDup, newSet_NoDup|]. split; [|exact C].
  intros H. apply C in H as [candidate [_ [_ [N _]]]]. now apply N.
Qed.

(** ** The module of a path *)

Lemma splitCharAux_no_sep (sep : ascii) (cur s : str) :
  Forall (fun ch => isChar sep ch = false) s ->
  splitCharAux sep cur s = [rev cur ++ s].
Proof.
  revert cur. induction s as [|c s IH]; intros cur H; cbn [splitCharAux].
  - now rewrite app_nil_r.
  - inversion H as [|? ? Hc Hs]; subst. rewrite Hc, (IH _ Hs). cbn [rev].
    now rewrite <- app_assoc.
Qed.

Lemma splitCharAux_first (sep : ascii) (cur dir rest : str) :
  Forall (fun ch => isChar sep ch = false) dir ->
  splitCharAux sep cur (dir ++ sep :: rest) = (rev cur ++ dir) :: splitCharAux sep [] rest.
Proof.
  revert cur. induction dir as [|c dir IH]; intros cur H; cbn [app splitCharAux].
  - unfold isChar. rewrite Ascii.eqb_refl. now rewrite app_nil_r.
  - inversion H as [|? ? Hc Hs]; subst. rewrite Hc, (IH _ Hs). cbn [rev].
    now rewrite <- app_assoc.
Qed.

Lemma splitCharAux_nonempty (sep : ascii) (cur s : str) : splitCharAux sep cur s <> [].
Proof.
  revert cur. induction s as [|c s IH]; intros cur; cbn [splitCharAux]; [discriminate|].
  destruct (isChar sep c); [discriminate|apply IH].
Qed.

Lemma splitCharAux_head_no_sep (sep : ascii) (cur s : str) :
  Forall (fun ch => isChar sep ch = false) cur ->
  Forall (fun ch => isChar sep ch = false) (hd [] (splitCharAux sep cur s)).
Proof.
  revert cur. induction s as [|c s IH]; intros cur H; cbn [splitCharAux hd].
  - now apply Forall_rev.
  - destruct (isChar sep c) eqn:E; cbn [hd]; [now apply Forall_rev|].
    apply IH. now constructor.
Qed.

(** X21: The module of a file is the first segment of its relative path, and
    [root] for a path without a slash: a file at the top of the repository
    and a file of a directory named [root] have the same module.  A module
    never holds a slash. *)
Theorem getModuleName_first_segment (relative : str) :
  (Forall (fun ch => isChar "/" ch = false) relative -> getModuleName relative = L "root") /\
  (forall dir rest,
      Forall (fun ch => isChar "/" ch = false) dir ->
      relative = dir ++ L "/" ++ rest ->
      getModuleName relative = dir) /\
  Forall (fun ch => isChar "/" ch = false) (getModuleName relative).
Proof.
  unfold getModuleName, splitChar. split; [|split].
  - intros H. now rewrite (@splitCharAux_no_sep "/"%char [] relative H).
  - intros dir rest H ->.
    change (dir ++ L "/" ++ rest) with (dir ++ "/"%char :: rest). rewrite (@splitCharAux_first "/"%char [] dir rest H).
    cbn [length hd rev app].
    pose proof (@splitCharAux_nonempty "/" [] rest) as N.
    destruct (splitCharAux "/" [] rest); [now contradiction N|reflexivity].
  - destruct (1 <? length (splitCharAux "/" [] relative)).
    + apply splitCharAux_head_no_sep. constructor.
    + repeat constructor.
Qed.

(** ** Signatures cut short *)

(** X22: [shortSignature] leaves a signature of at most [maxLength] characters as
    it is, and cuts a longer one after [maxLength] characters and adds three
    dots: the result starts as the signature does, is never longer than
    [maxLength + 3], and is that long when the signature was cut. *)
Theorem shortSignature_bounded (signature : str) (maxLength : nat) :
  length (shortSignature signature maxLength) <= maxLength + 3 /\
  firstn maxLength (shortSignature signature maxLength) = firstn maxLength signature /\
  (length signature <= maxLength -> shortSignature signature maxLength = signature) /\
  (maxLength < length signature ->
   length (shortSignature signature maxLength) = maxLength + 3).
Proof.
  unfold shortSignature. destruct (Nat.leb_spec (length signature) maxLength) as [H|H].
  - split; [lia|]. split; [reflexivity|]. split; [reflexivity|lia].
  - assert (Len : length (firstn maxLength signature) = maxLength)
      by (rewrite length_firstn; lia).
    assert (Dots : length (L "...") = 3) by reflexivity.
    split; [rewrite length_app, Len, Dots; lia|]. split; [|split; [lia|]].
    + rewrite firstn_app, Len, Nat.sub_diag. cbn [firstn]. rewrite app_nil_r.
      rewrite firstn_firstn. f_equal. lia.
    + intros _. now rewrite length_app, Len, Dots.
Qed.

(** ** The index of a scan and the ranking *)

Lemma pushedAt_signature_name (rf mn : str) (lines : list str) (index : nat)
  (d : ExtractedType) :
  Forall (Forall (fun c => isChar LF c = false)) lines ->
  index < length lines ->
  pushedAt rf mn lines index d ->
  includes (signature d) (name d) = true.
Proof.
  intros NoLF Hi P.
  destruct (pushedAt_location NoLF Hi P)
    as [(_ & Inc & tail & Es) | (_ & Sw & _)].
  - rewrite Es. now apply includes_app_r.
  - apply startsWith_app in Sw as [b ->]. apply includes_prefix.
Qed.

Lemma pushedAt_fullText_name (rf mn : str) (lines : list str) (index : nat)
  (d : ExtractedType) :
  Forall (Forall (fun c => isChar LF c = false)) lines ->
  index < length lines ->
  pushedAt rf mn lines index d ->
  includes (fullText d) (name d) = true.
Proof.
  intros NoLF Hi P.
  pose proof (pushedAt_signature_name NoLF Hi P) as S.
  assert (B : forall m, includes (trim (nth index lines [])) m = true ->
                        includes (text (captureBracedBlock lines index)) m = true).
  { intros m I. unfold captureBracedBlock.
    destruct (captureDelimited_chunk "{"%char "}"%char lines Hi) as [chunk [Et _]].
    rewrite Et. destruct (join_cons_app [LF] (nth index lines []) chunk) as [tail ->].
    now apply includes_app_r, includes_trim. }
  destruct P; unfold fullText; cbn [fullSignature signature name declaration orElse] in *;
    try exact S.
  - pose proof (R_interface_name _ H) as [_ I]. specialize (B _ I).
    destruct (text (captureBracedBlock lines index)); [|exact B].
    cbn [truthy]. exact S.
  - pose proof (R_struct_name _ H) as [_ I]. specialize (B _ I).
    destruct (text (captureBracedBlock lines index)); [|exact B].
    cbn [truthy]. exact S.
Qed.

Lemma extractAllTypes_texts (files : SourceTree) (d : ExtractedType) :
  In d (extractAllTypes files) ->
  includes (signature d) (name d) = true /\ includes (fullText d) (name d) = true.
Proof.
  unfold extractAllTypes. intros H. apply in_flat_map in H as [f [_ H]].
  apply extractFromContent_pushed in H as [index [Hi [_ P]]].
  split.
  - exact (pushedAt_signature_name (splitLines_noLF (snd f)) Hi P).
  - exact (pushedAt_fullText_name (splitLines_noLF (snd f)) Hi P).
Qed.

(** X23: On the index of a scan the name of a declaration stands in its
    signature, so a term that is in the name without being the whole name
    counts for the signature too: such a term adds 18 at least, and the
    result has both labels. *)
Theorem name_match_is_signature_match (localeCompare : str -> str -> Z)
  (files : SourceTree) (query : str) (limit : Z) (filters : SearchFilters)
  (e : RankedTypeResult) (term : str) :
  In e (searchByContext localeCompare (extractAllTypes files) query limit filters) ->
  In term (queryTerms query) ->
  fieldMatches NameSub (r_type e) term = true ->
  fieldMatches NameExact (r_type e) term = false ->
  fieldMatches SignatureSub (r_type e) term = true /\
  (18 <= score e)%Z /\
  In (label NameSub) (matchedIn e) /\ In (label SignatureSub) (matchedIn e).
Proof.
  intros H Ht Hn Hx.
  destruct (searchByContext_entry _ _ _ _ _ _ H) as (Hf & E & _).
  apply applyFilters_In in Hf as [Ha _].
  destruct (extractAllTypes_texts _ _ Ha) as [Hs _].
  assert (S : fieldMatches SignatureSub (r_type e) term = true).
  { cbn [fieldMatches] in *. eapply includes_trans; [|exact Hn].
    now apply includes_toLowerCase. }
  split; [exact S|].
  assert (F : exists l, firedSignals (r_type e) term = NameSub :: SignatureSub :: l).
  { unfold firedSignals. rewrite Hx. unfold substringSignals. cbn [filter].
    rewrite Hn, S. eauto. }
  destruct F as [l F].
  rewrite E. cbn [score matchedIn entryOf]. rewrite tally_eq. cbn [fst snd].
  split; [|split].
  - apply in_split in Ht as [l1 [l2 ->]]. rewrite map_app. cbn [map].
    rewrite F. cbn [map sumZ fold_right weight].
    assert (N : forall ts, (0 <= sumZ (map (fun term0 =>
                   sumZ (map weight (firedSignals (r_type e) term0))) ts))%Z).
    { intros ts. apply sumZ_nonneg, Forall_forall. intros z Hz.
      apply in_map_iff in Hz as [u [<- _]]. apply fired_weights_nonneg. }
    pose proof (N l1). pose proof (N l2).
    assert (N3 : (0 <= fold_right Z.add 0 (map weight l))%Z).
    { apply (sumZ_nonneg (l := map weight l)), Forall_forall. intros z Hz.
      apply in_map_iff in Hz as [u [<- _]]. pose proof (weight_pos u). lia. }
    unfold sumZ in *. rewrite fold_right_app. cbn [fold_right].
    assert (A : forall (a : list Z) (z : Z),
               fold_right Z.add z a = (fold_right Z.add 0 a + z)%Z).
    { induction a as [|y a IHa]; intros z; cbn [fold_right]; [lia|].
      rewrite IHa. lia. }
    rewrite A. lia.
  - apply newSet_In, in_flat_map. exists term. split; [exact Ht|]. rewrite F. now left.
  - apply newSet_In, in_flat_map. exists term. split; [exact Ht|]. rewrite F.
    right. now left.
Qed.

Lemma name_match_is_signature_match_witness :
  In (entryOf [L "conn"] d_connect)
     (searchByContext codeUnitCompare (extractAllTypes tree_small) (L "conn") 20%Z noFilters)
  /\ In (L "conn") (queryTerms (L "conn"))
  /\ fieldMatches NameSub d_connect (L "conn") = true
  /\ fieldMatches NameExact d_connect (L "conn") = false
  /\ (18 <= score (entryOf [L "conn"] d_connect))%Z.
Proof.
  assert (H : In (entryOf [L "conn"] d_connect)
                (searchByContext codeUnitCompare (extractAllTypes tree_small) (L "conn")
                   20%Z noFilters)) by (vm_compute; left; reflexivity).
  assert (Ht : In (L "conn") (queryTerms (L "conn"))) by (vm_compute; left; reflexivity).
  assert (Hn : fieldMatches NameSub (r_type (entryOf [L "conn"] d_connect)) (L "conn") = true)
    by (vm_compute; reflexivity).
  assert (Hx : fieldMatches NameExact (r_type (entryOf [L "conn"] d_connect)) (L "conn")
               = false) by (vm_compute; reflexivity).
  split; [exact H|]. split; [exact Ht|]. split; [exact Hn|]. split; [exact Hx|].
  exact (proj1 (proj2 (@name_match_is_signature_match codeUnitCompare tree_small (L "conn")
                         20%Z noFilters (entryOf [L "conn"] d_connect) (L "conn")
                         H Ht Hn Hx))).
Defined.

(** ** The files that are listed *)

Section FilesFacts.

Variable pathJoin : str -> str -> str.

Lemma listGoEntry_listed (entry : Dirent) :
  forall (dirPath p : str),
    In p (listGoEntry pathJoin dirPath entry) ->
    exists dirs file,
      standsIn [entry] dirs file /\
      p = pathJoin (fold_left pathJoin dirs dirPath) file /\
      Forall isListedName dirs /\ isListedName file /\ isGoSource file.
Proof.
  induction entry as [name|name entries IH|name] using
    (fix rec (P : Dirent -> Prop)
       (Hf : forall name, P (DirentFile name))
       (Hd : forall name entries, Forall P entries -> P (DirentDirectory name entries))
       (Ho : forall name, P (DirentOther name))
       (entry : Dirent) {struct entry} : P entry :=
       match entry with
       | DirentFile name => Hf name
       | DirentDirectory name entries =>
           Hd name entries
             ((fix all (l : list Dirent) : Forall P l :=
                 match l with
                 | [] => Forall_nil P
                 | e :: l' => Forall_cons e (rec P Hf Hd Ho e) (all l')
                 end) entries)
       | DirentOther name => Ho name
       end); intros dirPath p H; cbn [listGoEntry direntName] in H.
  - destruct (startsWith name (L ".")) eqn:Dot; [destruct H|].
    destruct (str_eqb name (L "vendor")) eqn:V; [destruct H|].
    destruct (endsWith name (L ".go") && negb (endsWith name (L "_test.go"))) eqn:G;
      [|destruct H].
    destruct H as [<-|[]]. apply andb_true_iff in G as [G1 G2].
    apply negb_true_iff in G2. apply str_eqb_neq in V.
    exists [], name. split; [constructor; now left|]. split; [reflexivity|].
    split; [constructor|]. split; split; assumption.
  - destruct (startsWith name (L ".")) eqn:Dot; [destruct H|].
    destruct (str_eqb name (L "vendor")) eqn:V; [destruct H|].
    apply str_eqb_neq in V.
    apply in_flat_map in H as [entry [He H]].
    rewrite Forall_forall in IH.
    destruct (IH entry He _ _ H) as (dirs & file & S & -> & Fd & Ff & Fg).
    exists (name :: dirs), file. split; [|split; [reflexivity|]].
    + apply standsIn_below with entries; [now left|].
      inversion S as [? ? Hin|? ? sub ? ? Hin Hs]; subst.
      * destruct Hin as [->|[]]. now constructor.
      * destruct Hin as [->|[]]. now apply standsIn_below with sub.
    + split; [|split; assumption]. constructor; [split; assumption|exact Fd].
  - destruct (startsWith name (L ".")); [destruct H|].
    destruct (str_eqb name (L "vendor")); destruct H.
Qed.

Lemma standsIn_incl (entries entries' : list Dirent) (dirs : list str) (file : str) :
  incl entries entries' -> standsIn entries dirs file -> standsIn entries' dirs file.
Proof.
  intros I S. inversion S; subst.
  - constructor. now apply I.
  - apply standsIn_below with sub; [now apply I|assumption].
Qed.

Lemma listed_listGoFiles (dirs : list str) :
  forall (entries : list Dirent) (dirPath file : str),
    standsIn entries dirs file ->
    Forall isListedName dirs -> isListedName file -> isGoSource file ->
    In (pathJoin (fold_left pathJoin dirs dirPath) file)
       (flat_map (listGoEntry pathJoin dirPath) entries).
Proof.
  induction dirs as [|dir dirs IH]; intros entries dirPath file S Fd [F1 F2] [G1 G2];
    inversion S as [? ? Hin|? ? sub ? ? Hin Hs]; subst.
  - apply in_flat_map. exists (DirentFile file). split; [exact Hin|].
    cbn [listGoEntry direntName fold_left]. apply str_eqb_neq in F2.
    rewrite F1, F2, G1, G2. now left.
  - apply in_flat_map. exists (DirentDirectory dir sub). split; [exact Hin|].
    inversion Fd as [|? ? [D1 D2] Fd']; subst.
    cbn [listGoEntry direntName fold_left]. apply str_eqb_neq in D2. rewrite D1, D2.
    apply IH; auto; now split.
Qed.

(** X24: [listGoFiles] lists exactly the files of the tree whose name ends in
    [.go] and not in [_test.go], below directories none of which is hidden
    (a leading dot) or named [vendor]; a hidden file is not listed either.
    The path of a file is the directory path joined with the names on the way
    down, one after the other.  A directory that does not exist has no
    files. *)
Theorem listGoFiles_lists_sources (dirPath : str) (entries : list Dirent) (p : str) :
  (In p (listGoFiles pathJoin dirPath (Some entries))
   <-> exists dirs file,
         standsIn entries dirs file /\
         p = pathJoin (fold_left pathJoin dirs dirPath) file /\
         Forall isListedName dirs /\ isListedName file /\ isGoSource file) /\
  listGoFiles pathJoin dirPath None = [].
Proof.
  split; [|reflexivity]. cbn [listGoFiles]. split.
  - intros H. apply in_flat_map in H as [entry [He H]].
    destruct (listGoEntry_listed entry _ _ H) as (dirs & file & S & E & Fd & Ff & Fg).
    exists dirs, file. split; [|auto].
    apply standsIn_incl with [entry]; [|exact S]. intros e [<-|[]]. exact He.
  - intros (dirs & file & S & -> & Fd & Ff & Fg). now apply listed_listGoFiles.
Qed.

End FilesFacts.

(** ** Children by name *)

(** X25: On the index of a scan, a declaration whose name holds the name of the
    target, up to the case of the letters, and is not the same name, is among
    the children of the target: the text of a declaration holds its own
    name. *)
Theorem getTypeHierarchy_children_by_name (localeCompare : str -> str -> Z)
  (files : SourceTree) (n : str) (h : HierarchyResult) (candidate : ExtractedType) :
  getTypeHierarchy localeCompare (extractAllTypes files) n = Some h ->
  In candidate (extractAllTypes files) ->
  name candidate <> name (h_type h) ->
  includes (toLowerCase (name candidate)) (toLowerCase (name (h_type h))) = true ->
  In (name candidate) (children h).
Proof.
  unfold getTypeHierarchy. intros H Hc Hn Hi.
  destruct (searchType (extractAllTypes files) n) as [target|]; [|discriminate H].
  injection H as <-. cbn [h_type children] in *.
  apply sortBy_In, newSet_In, in_flat_map. exists candidate. split; [exact Hc|].
  apply str_eqb_neq in Hn. rewrite Hn.
  destruct (extractAllTypes_texts _ _ Hc) as [_ Ht].
  rewrite (includes_trans _ _ _ (includes_toLowerCase _ _ Ht) Hi). now left.
Qed.

Lemma getTypeHierarchy_children_by_name_witness :
  exists h,
    getTypeHierarchy codeUnitCompare (extractAllTypes tree_clients) (L "client") = Some h /\
    In d_newClient (extractAllTypes tree_clients) /\
    name (h_type h) = L "Client" /\
    In (L "NewClient") (children h).
Proof.
  destruct (getTypeHierarchy codeUnitCompare (extractAllTypes tree_clients) (L "client"))
    as [h|] eqn:E; [|vm_compute in E; discriminate E].
  assert (T : name (h_type h) = L "Client").
  { pose proof E as E'. vm_compute in E'. injection E' as <-. reflexivity. }
  assert (Hc : In d_newClient (extractAllTypes tree_clients))
    by (vm_compute; right; left; reflexivity).
  exists h. split; [reflexivity|]. split; [exact Hc|]. split; [exact T|].
  apply (@getTypeHierarchy_children_by_name codeUnitCompare tree_clients (L "client") h
           d_newClient E Hc).
  - rewrite T. vm_compute. discriminate.
  - rewrite T. vm_compute. reflexivity.
Defined.

(** ** The members of a block *)

Lemma rsem_no_groups (r : regex) prev s c p' s' c' :
  groupIds r = [] -> rsem r prev s c p' s' c' -> c' = c.
Proof.
  intros G H. destruct (rsem_captures H) as [new [-> Hn]].
  destruct new as [|[n w] new]; [reflexivity|].
  exfalso. specialize (Hn n w (or_introl eq_refl)). now rewrite G in Hn.
Qed.

Lemma rsem_bol_inv prev s c p' s' c' :
  rsem RBol prev s c p' s' c' -> s' = s /\ c' = c.
Proof. intros H. inversion H; subst. auto. Qed.

Lemma rsem_eol_inv prev s c p' s' c' :
  rsem REol prev s c p' s' c' -> s = [] /\ s' = [] /\ c' = c.
Proof. intros H. inversion H; subst. auto. Qed.

Lemma rsem_empty_inv prev s c p' s' c' :
  rsem REmpty prev s c p' s' c' -> s' = s /\ c' = c.
Proof. intros H. inversion H; subst. auto. Qed.

Lemma rsem_seq_inv (a b : regex) prev s c p' s' c' :
  rsem (RSeq a b) prev s c p' s' c' ->
  exists p1 s1 c1, rsem a prev s c p1 s1 c1 /\ rsem b p1 s1 c1 p' s' c'.
Proof. intros H. inversion H; subst. eauto. Qed.

Lemma rsem_char_inv (a : ascii) prev s c p' s' c' :
  rsem (RClass (isChar a)) prev s c p' s' c' -> s = a :: s' /\ c' = c.
Proof.
  intros H. inversion H as [? ? x ? ? Hx| | | | | | | | | |]; subst.
  apply isChar_eq in Hx. subst. auto.
Qed.

Lemma firstn_prefix (A : Type) (w s' : list A) :
  firstn (length (w ++ s') - length s') (w ++ s') = w.
Proof.
  rewrite length_app, Nat.add_sub, firstn_app, Nat.sub_diag, firstn_all. cbn [firstn].
  apply app_nil_r.
Qed.

Lemma rsem_group_inv (n : nat) (r : regex) prev s c p' s' c' :
  rsem (RGroup n r) prev s c p' s' c' ->
  exists w cg, s = w ++ s' /\ rsem r prev s c p' s' cg /\ c' = (n, w) :: cg.
Proof.
  intros H. inversion H as [| | | | | | |? ? ? ? ? pg sg cg Hg| | |]; subst.
  destruct (rsem_prefix Hg) as [w ->]. exists w, cg.
  split; [reflexivity|]. split; [exact Hg|]. now rewrite firstn_prefix.
Qed.

Ltac rsem_step H :=
  let p1 := fresh "p" in let s1 := fresh "s" in let c1 := fresh "c" in
  let H1 := fresh "M" in
  apply rsem_seq_inv in H as (p1 & s1 & c1 & H1 & H).

(** What a line that the method pattern matches is made of. *)
Lemma R_interfaceMethod_shape (line : str) (m : captures) :
  rxMatch R_interfaceMethod line = Some m ->
  exists nm gap params gap2 ret,
    line = nm ++ gap ++ L "(" ++ params ++ L ")" ++ gap2 ++ ret /\
    isIdentName nm /\
    Forall (fun ch => isSpace ch = true) gap /\
    Forall (fun ch => isDot ch = true) params /\
    Forall (fun ch => isSpace ch = true) gap2 /\
    Forall (fun ch => isDot ch = true) ret /\
    group 1 m = nm /\ group 2 m = params /\ group 3 m = ret.
Proof.
  intros H. apply rxMatch_sound in H as (pe & se & H).
  unfold R_interfaceMethod in H. cbn [RCat] in H. unfold lit in H. cbn [RLit L] in H.
  rsem_step H. apply rsem_bol_inv in M as [-> ->].
  rsem_step H. apply rsem_group_inv in M as (nm & cg & -> & M & ->).
  pose proof (rsem_no_groups (r := ident) eq_refl M) as ->.
  apply rsem_ident in M as (nm' & E & In). apply app_inv_tail in E. subst nm'.
  rsem_step H. apply rsem_star_class in M as (-> & gap & -> & Hgap).
  rsem_step H. rsem_step M. apply rsem_char_inv in M0 as [-> ->].
  apply rsem_empty_inv in M as [-> ->].
  rsem_step H. apply rsem_group_inv in M as (params & cg & -> & M & ->).
  apply rsem_star_class in M as (-> & params' & E & Hparams).
  apply app_inv_tail in E. subst params'.
  rsem_step H. rsem_step M. apply rsem_char_inv in M0 as [-> ->].
  apply rsem_empty_inv in M as [-> ->].
  rsem_step H. apply rsem_star_class in M as (-> & gap2 & -> & Hgap2).
  rsem_step H. apply rsem_group_inv in M as (ret & cg & -> & M & ->).
  apply rsem_star_class in M as (-> & ret' & E & Hret).
  apply app_inv_tail in E. subst ret'.
  rsem_step H. apply rsem_eol_inv in M as (-> & _ & ->).
  apply rsem_empty_inv in H as [_ ->].
  exists nm, gap, params, gap2, ret. rewrite app_nil_r.
  repeat split; auto.
Qed.

Lemma splitCharAux_pieces (sep : ascii) (s cur p : str) :
  Forall (fun ch => isChar sep ch = false) cur ->
  In p (splitCharAux sep cur s) ->
  Forall (fun ch => isChar sep ch = false) p.
Proof.
  revert cur. induction s as [|c s IH]; intros cur Hc H; cbn [splitCharAux] in H.
  - destruct H as [<-|[]]. now apply Forall_rev.
  - destruct (isChar sep c) eqn:E.
    + destruct H as [<-|H]; [now apply Forall_rev|]. apply (IH []); [constructor|exact H].
    + apply (IH (c :: cur)); [now constructor|exact H].
Qed.

Lemma dropWhile_nil (A : Type) (p : A -> bool) (l : list A) :
  dropWhile p l = [] <-> Forall (fun x => p x = true) l.
Proof.
  induction l as [|a l IH]; cbn [dropWhile]; [split; [constructor|reflexivity]|].
  destruct (p a) eqn:E.
  - rewrite IH. split; [now constructor|]. intros H. now inversion H.
  - split; [discriminate|]. intros H. inversion H; congruence.
Qed.

Lemma trim_nil (s : str) : trim s = [] <-> Forall (fun ch => isSpace ch = true) s.
Proof.
  unfold trim. rewrite <- dropWhile_nil. split.
  - intros H. apply (f_equal (@rev ascii)) in H. rewrite rev_involutive in H. cbn in H.
    apply dropWhile_nil in H. apply Forall_rev in H. rewrite rev_involutive in H.
    pose proof (dropWhile_head isSpace s) as Hd.
    destruct (dropWhile isSpace s) as [|x l]; [reflexivity|].
    inversion H; congruence.
  - intros ->. reflexivity.
Qed.

Lemma trim_last (s w : str) (x : ascii) : trim s = w ++ [x] -> isSpace x = false.
Proof.
  unfold trim. intros H. apply (f_equal (@rev ascii)) in H.
  rewrite rev_involutive, rev_app_distr in H. cbn [rev app] in H.
  pose proof (dropWhile_head isSpace (rev (dropWhile isSpace s))) as Hd.
  now rewrite H in Hd.
Qed.

Lemma trimmed_suffix_nonblank (s a g : str) :
  trim s = a ++ g -> g <> [] -> trim g <> [].
Proof.
  intros E N T. apply trim_nil in T.
  destruct (exists_last N) as [g' [x ->]].
  rewrite app_assoc in E. apply trim_last in E.
  apply Forall_app in T as [_ T]. inversion T; congruence.
Qed.

(** A parameter of a method as the parser leaves it: not empty, without
    white space at either end, without a comma. *)
Lemma parameters_clean (params q : str) :
  In q (filter truthy (map trim (splitChar ","%char params))) ->
  q <> [] /\ trim q = q /\ Forall (fun ch => isChar "," ch = false) q.
Proof.
  intros H. apply filter_In in H as [H T]. apply truthy_nonempty in T.
  apply in_map_iff in H as [x [<- H]]. split; [exact T|]. split; [apply trim_idem|].
  apply Forall_trim. unfold splitChar in H.
  now apply (@splitCharAux_pieces ","%char params [] x).
Qed.

(** X26: Every method that [parseInterfaceMethods] returns comes from a line of
    the block strictly between its first and its last line that, trimmed, is
    not a comment and reads: an identifier, white space if any, an opening
    parenthesis, a text, a closing parenthesis, white space if any, and a
    rest.  The name is the identifier; the parameters are the pieces of the
    text between commas, trimmed, the empty ones left out; the return type
    is the rest, or [void] when there is no rest, so that it is never
    empty. *)
Theorem parseInterfaceMethods_members (blockText : str) (method : PropertyInfo) :
  In method (parseInterfaceMethods blockText) ->
  exists line gap params gap2 ret,
    In line (interior (splitLines blockText)) /\
    startsWith (trim line) (L "//") = false /\
    trim line = p_name method ++ gap ++ L "(" ++ params ++ L ")" ++ gap2 ++ ret /\
    isIdentName (p_name method) /\
    Forall (fun ch => isSpace ch = true) gap /\
    Forall (fun ch => isSpace ch = true) gap2 /\
    p_parameters method = Some (filter truthy (map trim (splitChar ","%char params))) /\
    (forall q, In q (filter truthy (map trim (splitChar ","%char params))) ->
               q <> [] /\ trim q = q /\ Forall (fun ch => isChar "," ch = false) q) /\
    p_type method = (if truthy ret then ret else L "void") /\
    p_type method <> [] /\
    p_returnType method = Some (p_type method) /\
    p_isMethod method = true.
Proof.
  unfold parseInterfaceMethods. intros H. apply in_flat_map in H as [line [Hl H]].
  destruct (negb (truthy (trim line)) || startsWith (trim line) (L "//")) eqn:Skip;
    [destruct H|].
  apply orb_false_iff in Skip as [_ Comment].
  destruct (rxMatch R_interfaceMethod (trim line)) as [methodMatch|] eqn:M; [|destruct H].
  destruct H as [<-|[]].
  apply R_interfaceMethod_shape in M
    as (nm & gap & params & gap2 & ret & E & In & Hgap & _ & Hgap2 & _ & G1 & G2 & G3).
  cbn [p_name p_parameters p_type p_returnType p_isMethod orElse].
  rewrite G1, G2, G3.
  exists line, gap, params, gap2, ret.
  repeat (split; [first [assumption | reflexivity]|]).
  split; [apply parameters_clean|]. split; [reflexivity|]. split; [|split; reflexivity].
  destruct ret; [discriminate|discriminate].
Qed.

Lemma parseInterfaceMethods_members_witness :
  In {| p_name := L "PutDevice"; p_type := L "error"; p_optional := false;
        p_readonly := false; p_isMethod := true; p_isCallSignature := false;
        p_isIndexSignature := false;
        p_parameters := Some [L "id string"; L "d *Device"];
        p_returnType := Some (L "error") |}
     (parseInterfaceMethods (text (captureBracedBlock (splitLines file_store) 2))) /\
  exists line gap params gap2 ret,
    In line (interior (splitLines (text (captureBracedBlock (splitLines file_store) 2)))) /\
    trim line = L "PutDevice" ++ gap ++ L "(" ++ params ++ L ")" ++ gap2 ++ ret /\
    (if truthy ret then ret else L "void") = L "error".
Proof.
  assert (H : In {| p_name := L "PutDevice"; p_type := L "error"; p_optional := false;
                    p_readonly := false; p_isMethod := true; p_isCallSignature := false;
                    p_isIndexSignature := false;
                    p_parameters := Some [L "id string"; L "d *Device"];
                    p_returnType := Some (L "error") |}
                (parseInterfaceMethods (text (captureBracedBlock (splitLines file_store) 2))))
    by (vm_compute; left; reflexivity).
  split; [exact H|].
  destruct (@parseInterfaceMethods_members _ _ H)
    as (line & gap & params & gap2 & ret & Hl & _ & E & _ & _ & _ & _ & _ & T & _).
  exists line, gap, params, gap2, ret. split; [exact Hl|]. split; [exact E|].
  symmetry. exact T.
Defined.

Lemma rsem_plus_class (p : ascii -> bool) prev s c p' s' c' :
  rsem (RPlus (RClass p)) prev s c p' s' c' ->
  c' = c /\ exists x w, s = (x :: w) ++ s' /\ Forall (fun ch => p ch = true) (x :: w).
Proof.
  unfold RPlus. intros H. rsem_step H.
  inversion M as [? ? x ? ? Hx| | | | | | | | | |]; subst.
  apply rsem_star_class in H as (-> & w & -> & Hw).
  split; [reflexivity|]. exists x, w. split; [reflexivity|now constructor].
Qed.

Lemma R_structField_shape (cleaned : str) (m : captures) :
  rxMatch R_structField cleaned = Some m ->
  exists nm gap rest,
    cleaned = nm ++ gap ++ rest /\
    isIdentName nm /\
    gap <> [] /\ Forall (fun ch => isSpace ch = true) gap /\
    rest <> [] /\
    group 1 m = nm /\ group 2 m = rest.
Proof.
  intros H. apply rxMatch_sound in H as (pe & se & H).
  unfold R_structField in H. cbn [RCat] in H.
  rsem_step H. apply rsem_bol_inv in M as [-> ->].
  rsem_step H. apply rsem_group_inv in M as (nm & cg & -> & M & ->).
  pose proof (rsem_no_groups (r := ident) eq_refl M) as ->.
  apply rsem_ident in M as (nm' & E & In). apply app_inv_tail in E. subst nm'.
  rsem_step H. apply rsem_plus_class in M as (-> & x & gap & -> & Hgap).
  rsem_step H. apply rsem_group_inv in M as (rest & cg & -> & M & ->).
  apply rsem_plus_class in M as (-> & y & rest' & E & Hrest).
  apply app_inv_tail in E. subst rest.
  rsem_step H. apply rsem_eol_inv in M as (-> & _ & ->).
  apply rsem_empty_inv in H as [_ ->].
  exists nm, (x :: gap), (y :: rest'). rewrite app_nil_r.
  repeat split; auto; discriminate.
Qed.

(** X27: Every field that [parseStructFields] returns comes from a line of the
    block strictly between its first and its last line that, without its
    trailing comment and trimmed, reads: an identifier, white space, and a
    rest.  The name is the identifier and the type is the rest, trimmed; it
    is never empty.  A line that is one identifier alone, as the line of an
    embedded type is, has no white space and so gives no field. *)
Theorem parseStructFields_members (blockText : str) (field : PropertyInfo) :
  In field (parseStructFields blockText) ->
  exists line gap rest,
    In line (interior (splitLines blockText)) /\
    trim (rxRemove R_trailingComment line) = p_name field ++ gap ++ rest /\
    isIdentName (p_name field) /\
    gap <> [] /\ Forall (fun ch => isSpace ch = true) gap /\
    p_type field = trim rest /\
    p_type field <> [] /\
    p_isMethod field = false /\ p_parameters field = None /\ p_returnType field = None.
Proof.
  unfold parseStructFields. intros H. apply in_flat_map in H as [line [Hl H]].
  destruct (negb (truthy (trim (rxRemove R_trailingComment line)))); [destruct H|].
  destruct (rxMatch R_structField (trim (rxRemove R_trailingComment line)))
    as [fieldMatch|] eqn:M; [|destruct H].
  destruct H as [<-|[]].
  apply R_structField_shape in M as (nm & gap & rest & E & In & Ng & Hgap & Nr & G1 & G2).
  cbn [p_name p_parameters p_type p_returnType p_isMethod].
  rewrite G1, G2. exists line, gap, rest.
  repeat (split; [first [assumption | reflexivity]|]).
  split; [|repeat split].
  rewrite app_assoc in E. exact (trimmed_suffix_nonblank _ _ E Nr).
Qed.

Lemma parseStructFields_members_witness :
  In {| p_name := L "Store"; p_type := L "*store.Device"; p_optional := false;
        p_readonly := false; p_isMethod := false; p_isCallSignature := false;
        p_isIndexSignature := false; p_parameters := None; p_returnType := None |}
     (parseStructFields
        (L "type Client struct {" ++ [LF] ++ L "  Store   *store.Device // the device" ++
         [LF] ++ L "  Base" ++ [LF] ++ L "}")) /\
  exists line gap rest,
    In line (interior (splitLines
               (L "type Client struct {" ++ [LF] ++
                L "  Store   *store.Device // the device" ++ [LF] ++ L "  Base" ++ [LF] ++
                L "}"))) /\
    trim (rxRemove R_trailingComment line) = L "Store" ++ gap ++ rest /\
    L "*store.Device" = trim rest.
Proof.
  assert (H : In {| p_name := L "Store"; p_type := L "*store.Device"; p_optional := false;
                    p_readonly := false; p_isMethod := false; p_isCallSignature := false;
                    p_isIndexSignature := false; p_parameters := None;
                    p_returnType := None |}
                (parseStructFields
                   (L "type Client struct {" ++ [LF] ++
                    L "  Store   *store.Device // the device" ++ [LF] ++ L "  Base" ++ [LF] ++
                    L "}")))
    by (vm_compute; left; reflexivity).
  split; [exact H|].
  destruct (@parseStructFields_members _ _ H)
    as (line & gap & rest & Hl & E & _ & _ & _ & T & _).
  exists line, gap, rest. split; [exact Hl|]. split; [exact E|]. exact T.
Defined.

Lemma rsem_star_word_prev prev s c p' s' c' :
  rsem (RStar word) prev s c p' s' c' -> isWordOpt prev = true -> isWordOpt p' = true.
Proof.
  intros H. remember (RStar word) as r eqn:Er.
  induction H; try discriminate; injection Er as ->; [auto|].
  intros _. apply IHrsem2; [reflexivity|].
  unfold word in H. inversion H; subst. assumption.
Qed.

Lemma rsem_ident_prev prev s c p' s' c' :
  rsem ident prev s c p' s' c' -> isWordOpt p' = true.
Proof.
  unfold ident. intros H. apply rsem_seq_inv in H as (p1 & s1 & c1 & Hx & H).
  inversion Hx as [? ? y ? ? Hy| | | | | | | | | |]; subst.
  apply (rsem_star_word_prev H). cbn [isWordOpt]. unfold isWord.
  apply orb_true_iff in Hy as [Hy|Hy]; rewrite Hy; cbn; auto using orb_true_r.
Qed.

Lemma R_blockMember_shape (line : str) (m : captures) :
  rxMatch R_blockMember line = Some m ->
  exists nm rest,
    line = nm ++ rest /\ isIdentName nm /\
    match rest with [] => True | ch :: _ => isWord ch = false end /\
    group 1 m = nm /\ group 2 m = rest.
Proof.
  intros H. apply rxMatch_sound in H as (pe & se & H).
  unfold R_blockMember in H. cbn [RCat] in H.
  apply rsem_seq_inv in H as (? & ? & ? & Mb & H). apply rsem_bol_inv in Mb as [-> ->].
  apply rsem_seq_inv in H as (pn & ? & ? & Mn & H).
  apply rsem_group_inv in Mn as (nm & cg & -> & Mn & ->).
  pose proof (rsem_no_groups (r := ident) eq_refl Mn) as ->.
  pose proof (rsem_ident_prev Mn) as Pw.
  apply rsem_ident in Mn as (nm' & E & In). apply app_inv_tail in E. subst nm'.
  apply rsem_seq_inv in H as (? & ? & ? & Mw & H).
  inversion Mw as [| | | | | | | | | |? ? ? B]; subst.
  apply rsem_seq_inv in H as (? & ? & ? & Mr & H).
  apply rsem_group_inv in Mr as (rest & cg & -> & Mr & ->).
  apply rsem_star_class in Mr as (-> & rest' & E & Hrest).
  apply app_inv_tail in E. subst rest'.
  apply rsem_seq_inv in H as (? & ? & ? & Me & H). apply rsem_eol_inv in Me as (-> & _ & ->).
  apply rsem_empty_inv in H as [_ ->].
  exists nm, rest. rewrite app_nil_r in *.
  split; [reflexivity|]. split; [exact In|]. split; [|split; reflexivity].
  rewrite Pw in B. destruct rest as [|ch rest]; [exact I|].
  cbn [hd_error isWordOpt] in B. now destruct (isWord ch).
Qed.

(** X28: Every member that [parseConstVarBlockMembers] returns comes from a line
    of the block strictly between its first and its last line: the line
    number of the member is the place of that line in the block, counted
    from one.  Without its trailing comment and trimmed, the line is the
    signature of the member; it starts with the name, an identifier that no
    word character follows, and the value is all that follows the name,
    trimmed (an equals sign with it), or nothing when nothing follows. *)
Theorem parseConstVarBlockMembers_members (blockText : str) (member : BlockMember) :
  In member (parseConstVarBlockMembers blockText) ->
  exists rest,
    2 <= m_lineNumber member <= length (splitLines blockText) - 1 /\
    m_signature member
    = trim (rxRemove R_trailingComment
              (nth (m_lineNumber member - 1) (splitLines blockText) [])) /\
    m_signature member = m_name member ++ rest /\
    isIdentName (m_name member) /\
    match rest with [] => True | ch :: _ => isWord ch = false end /\
    m_value member = (if truthy (trim rest) then Some (trim rest) else None).
Proof.
  unfold parseConstVarBlockMembers. intros H. apply in_flat_map in H as [i [Hi H]].
  apply in_seq in Hi. unfold parseBlockMemberAt in H.
  destruct (negb (truthy _)); [destruct H|].
  destruct (rxMatch R_blockMember _) as [m|] eqn:M; [|destruct H].
  destruct H as [<-|[]]. cbn [m_name m_signature m_value m_lineNumber].
  apply R_blockMember_shape in M as (nm & rest & E & In & B & G1 & G2).
  rewrite G1, G2. exists rest. replace (i + 1 - 1) with i by lia.
  split; [lia|]. split; [reflexivity|]. split; [exact E|]. split; [exact In|].
  split; [exact B|reflexivity].
Qed.

Lemma parseConstVarBlockMembers_members_witness :
  In {| m_name := L "PresenceAvailable"; m_signature := L "PresenceAvailable = 1";
        m_value := Some (L "= 1"); m_lineNumber := 3 |}
     (parseConstVarBlockMembers (text (captureParenBlock (splitLines file_presence) 3))) /\
  exists rest,
    L "PresenceAvailable = 1" = L "PresenceAvailable" ++ rest /\
    Some (L "= 1") = (if truthy (trim rest) then Some (trim rest) else None).
Proof.
  assert (H : In {| m_name := L "PresenceAvailable";
                    m_signature := L "PresenceAvailable = 1";
                    m_value := Some (L "= 1"); m_lineNumber := 3 |}
                (parseConstVarBlockMembers
                   (text (captureParenBlock (splitLines file_presence) 3))))
    by (vm_compute; left; reflexivity).
  split; [exact H|].
  destruct (@parseConstVarBlockMembers_members _ _ H) as (rest & _ & _ & E & _ & _ & V).
  exists rest. split; [exact E|exact V].
Defined.

(** ** Greedy matching and the return type of a method *)

Lemma last_cons_default (A : Type) (l : list A) :
  forall a d, last (a :: l) d = last l a.
Proof.
  induction l as [|b l IH]; intros a d; [reflexivity|].
  change (last (a :: b :: l) d) with (last (b :: l) d). now rewrite !IH.
Qed.

Lemma prevAfter_cons (prev : option ascii) (x : ascii) (w : str) :
  prevAfter prev (x :: w) = prevAfter (Some x) w.
Proof. unfold prevAfter. cbn [map]. apply last_cons_default. Qed.

(** One turn of the loop of a starred character class. *)
Lemma rmatch_star_class (A : Type) (p : ascii -> bool) (prev : option ascii) (s : str)
  (c : captures) (k : option ascii -> str -> captures -> option A) :
  rmatch (RStar (RClass p)) prev s c k
  = match s with
    | x :: s' =>
        if p x then
          match rmatch (RStar (RClass p)) (Some x) s' c k with
          | Some y => Some y
          | None => k prev s c
          end
        else k prev s c
    | [] => k prev s c
    end.
Proof.
  destruct s as [|x s']; [reflexivity|].
  cbn [rmatch length]. destruct (p x); [|reflexivity].
  assert (E : (length s' <? S (length s')) = true) by (apply Nat.ltb_lt; lia).
  rewrite E. reflexivity.
Qed.

(** When the loop fails, the rest of the pattern fails after every run. *)
Lemma star_class_none (A : Type) (p : ascii -> bool) (s : str) :
  forall (prev : option ascii) (c : captures)
         (k : option ascii -> str -> captures -> option A),
    rmatch (RStar (RClass p)) prev s c k = None ->
    forall w rest, s = w ++ rest -> Forall (fun ch => p ch = true) w ->
                   k (prevAfter prev w) rest c = None.
Proof.
  induction s as [|x s IH]; intros prev c k H w rest E Hw; rewrite rmatch_star_class in H.
  - destruct w; [|discriminate E]. cbn [app] in E. subst rest. exact H.
  - destruct w as [|y w].
    + cbn [app] in E. subst rest. cbn. destruct (p x); [|exact H].
      destruct (rmatch (RStar (RClass p)) (Some x) s c k); [discriminate|exact H].
    + cbn [app] in E. injection E as Ex Es. subst x s.
      inversion Hw as [|? ? Hy Hw']; subst. rewrite Hy in H.
      rewrite prevAfter_cons.
      destruct (rmatch (RStar (RClass p)) (Some y) (w ++ rest) c k) eqn:G; [discriminate|].
      now apply (IH _ _ _ G w rest).
Qed.

(** The loop is greedy: the rest of the pattern succeeds after the run it
    settles on, and fails after every longer run. *)
Lemma star_class_greedy (A : Type) (p : ascii -> bool) (s : str) :
  forall (prev : option ascii) (c : captures)
         (k : option ascii -> str -> captures -> option A) (y : A),
    rmatch (RStar (RClass p)) prev s c k = Some y ->
    exists w rest,
      s = w ++ rest /\ Forall (fun ch => p ch = true) w /\
      k (prevAfter prev w) rest c = Some y /\
      forall w' rest', s = w' ++ rest' -> Forall (fun ch => p ch = true) w' ->
                       length w < length w' -> k (prevAfter prev w') rest' c = None.
Proof.
  induction s as [|x s IH]; intros prev c k y H; rewrite rmatch_star_class in H.
  - exists [], []. repeat split; auto. intros w' rest' E _ L.
    destruct w'; [simpl in L; lia|discriminate E].
  - assert (Stay : k prev (x :: s) c = Some y ->
                   (forall w' rest', x :: s = w' ++ rest' ->
                                     Forall (fun ch => p ch = true) w' -> 0 < length w' ->
                                     k (prevAfter prev w') rest' c = None) ->
                   exists w rest,
                     x :: s = w ++ rest /\ Forall (fun ch => p ch = true) w /\
                     k (prevAfter prev w) rest c = Some y /\
                     forall w' rest', x :: s = w' ++ rest' ->
                                      Forall (fun ch => p ch = true) w' ->
                                      length w < length w' ->
                                      k (prevAfter prev w') rest' c = None).
    { intros K N. exists [], (x :: s). repeat split; auto. }
    destruct (p x) eqn:Px.
    + destruct (rmatch (RStar (RClass p)) (Some x) s c k) as [z|] eqn:G.
      * injection H as ->. destruct (IH _ _ _ _ G) as (w & rest & -> & Hw & K & N).
        exists (x :: w), rest. split; [reflexivity|]. split; [now constructor|].
        rewrite prevAfter_cons. split; [exact K|].
        intros w' rest' E Hw' L. destruct w' as [|x' w']; [simpl in L; lia|].
        cbn [app] in E. injection E as Ex Es. subst x'. inversion Hw'; subst.
        rewrite prevAfter_cons. apply N; auto. simpl in L. lia.
      * apply Stay; [exact H|]. intros w' rest' E Hw' L.
        destruct w' as [|x' w']; [simpl in L; lia|].
        cbn [app] in E. injection E as Ex Es. subst x'. inversion Hw'; subst.
        rewrite prevAfter_cons. now apply (@star_class_none _ _ _ _ _ _ G).
    + apply Stay; [exact H|]. intros w' rest' E Hw' L.
      destruct w' as [|x' w']; [simpl in L; lia|].
      cbn [app] in E. injection E as Ex Es. subst x'. inversion Hw'; subst. congruence.
Qed.

Lemma rmatch_seq_sound (A : Type) (r1 r2 : regex) prev s c
  (k : option ascii -> str -> captures -> option A) (y : A) :
  rmatch (RSeq r1 r2) prev s c k = Some y ->
  exists p1 s1 c1, rsem r1 prev s c p1 s1 c1 /\ rmatch r2 p1 s1 c1 k = Some y.
Proof.
  intros H. change (rmatch r1 prev s c (fun p' s' c' => rmatch r2 p' s' c' k) = Some y) in H.
  now apply rmatch_sound in H.
Qed.

Lemma methodTail_matches (A : Type) (prev : option ascii) (b : str) (c : captures)
  (k : option ascii -> str -> captures -> option A) :
  Forall (fun ch => isDot ch = true) b ->
  (forall p' c', k p' [] c' <> None) ->
  rmatch methodTail prev (L ")" ++ b) c k <> None.
Proof.
  intros Hb Hk H. unfold methodTail in H. cbn [RCat] in H. unfold lit in H.
  change (rmatch (RStar ws) (Some ")"%char) b c
            (fun p1 s1 c1 =>
               rmatch (RStar dot) p1 s1 c1
                 (fun p2 s2 c2 =>
                    match s2 with
                    | [] => k p2 s2 ((3, firstn (length s1 - length s2) s1) :: c2)
                    | _ :: _ => None
                    end)) = None) in H.
  pose proof (@star_class_none _ _ _ _ _ _ H [] b eq_refl (Forall_nil _)) as H1.
  cbn beta in H1.
  pose proof (@star_class_none _ _ _ _ _ _ H1 b [] (eq_sym (app_nil_r b)) Hb) as H2.
  cbn beta iota in H2. now apply Hk in H2.
Qed.

Lemma rsem_methodTail prev s c p' s' c' :
  rsem methodTail prev s c p' s' c' ->
  exists gap2 ret, s = L ")" ++ gap2 ++ ret /\ capture 3 c' = Some ret.
Proof.
  unfold methodTail. cbn [RCat]. unfold lit. cbn [RLit L]. intros H.
  apply rsem_seq_inv in H as (? & ? & ? & Mp & H).
  apply rsem_seq_inv in Mp as (? & ? & ? & Mc & Me).
  apply rsem_char_inv in Mc as [-> ->]. apply rsem_empty_inv in Me as [-> ->].
  apply rsem_seq_inv in H as (? & ? & ? & Mg & H).
  apply rsem_star_class in Mg as (-> & gap2 & -> & _).
  apply rsem_seq_inv in H as (? & ? & ? & Mr & H).
  apply rsem_group_inv in Mr as (ret & cg & -> & Mr & ->).
  apply rsem_seq_inv in H as (? & ? & ? & Me & H). apply rsem_eol_inv in Me as (-> & _ & ->).
  apply rsem_empty_inv in H as [_ ->].
  exists gap2, ret. rewrite app_nil_r. split; [reflexivity|].
  cbn [capture Nat.eqb]. reflexivity.
Qed.

(** On a line without line terminators the parameters of the method pattern
    reach to the last closing parenthesis: the rest holds none. *)
Lemma R_interfaceMethod_last_paren (line : str) (m : captures) :
  rxMatch R_interfaceMethod line = Some m ->
  Forall (fun ch => isDot ch = true) line ->
  Forall (fun ch => isChar ")" ch = false) (group 3 m).
Proof.
  unfold rxMatch, matchStart. intros H Hdot.
  destruct (rmatch R_interfaceMethod None line [] (fun _ s' c => Some (c, s')))
    as [[c0 rest0]|] eqn:E; [|discriminate H].
  cbn [option_map fst] in H. injection H as ->.
  unfold R_interfaceMethod in E. cbn [RCat] in E.
  change (RSeq (lit ")") (RSeq (RStar ws) (RSeq (RGroup 3 (RStar dot)) (RSeq REol REmpty))))
    with methodTail in E.
  apply rmatch_seq_sound in E as (? & s1 & ? & M1 & E). apply rsem_prefix in M1 as [w1 ->].
  apply rmatch_seq_sound in E as (? & s2 & ? & M2 & E). apply rsem_prefix in M2 as [w2 ->].
  apply rmatch_seq_sound in E as (? & s3 & ? & M3 & E). apply rsem_prefix in M3 as [w3 ->].
  apply rmatch_seq_sound in E as (p4 & s4 & c4 & M4 & E). apply rsem_prefix in M4 as [w4 ->].
  change (rmatch (RStar dot) p4 s4 c4
            (fun p' s' c' =>
               rmatch methodTail p' s' ((2, firstn (length s4 - length s') s4) :: c')
                 (fun _ s'' c'' => Some (c'', s''))) = Some (m, rest0)) in E.
  apply star_class_greedy in E as (w & rest & -> & Hw & K & N).
  apply rmatch_sound in K as (p' & s' & c' & T & K). injection K as -> ->.
  apply rsem_methodTail in T as (gap2 & ret & -> & C).
  rewrite (group_of_capture _ _ C).
  apply Forall_forall. intros ch Hin.
  destruct (isChar ")" ch) eqn:P; [exfalso|reflexivity].
  apply isChar_eq in P. subst ch. apply in_split in Hin as [a [b ->]].
  assert (Dots : Forall (fun ch => isDot ch = true)
                   (w ++ L ")" ++ gap2 ++ a ++ ")"%char :: b)).
  { do 4 (apply Forall_app in Hdot as [_ Hdot]). exact Hdot. }
  specialize (N (w ++ L ")" ++ gap2 ++ a) (L ")" ++ b)).
  apply (@methodTail_matches _ (prevAfter p4 (w ++ L ")" ++ gap2 ++ a)) b
           ((2, firstn (length (w ++ L ")" ++ gap2 ++ a ++ ")"%char :: b)
                        - length (L ")" ++ b))
                   (w ++ L ")" ++ gap2 ++ a ++ ")"%char :: b)) :: c4)
           (fun _ s'' c'' => Some (c'', s''))).
  - do 4 (apply Forall_app in Dots as [_ Dots]). now inversion Dots.
  - discriminate.
  - apply N.
    + rewrite <- !app_assoc. reflexivity.
    + rewrite !app_assoc in Dots. apply Forall_app in Dots as [Dots _].
      now rewrite <- !app_assoc in Dots.
    + rewrite !length_app. change (length (L ")")) with 1. lia.
Qed.

Lemma isDot_no_terminator (c : ascii) :
  isChar LF c = false -> isChar CR c = false -> isDot c = true.
Proof.
  unfold isDot, isLineTerminator, isChar, code, LF, CR.
  destruct c as [[] [] [] [] [] [] [] []]; vm_compute; intros; (reflexivity || discriminate).
Qed.

Lemma In_interior (A : Type) (lines : list A) (x : A) : In x (interior lines) -> In x lines.
Proof.
  unfold interior. intros H. destruct lines as [|y l]; [destruct H|]. right.
  cbn [tl] in H. revert H. induction l as [|a l IH]; [intros []|].
  destruct l as [|b l]; [intros []|].
  change (removelast (a :: b :: l)) with (a :: removelast (b :: l)).
  intros [<-|H]; [now left|right; now apply IH].
Qed.

(** X29: The return type of a method is what follows the last closing parenthesis
    of its line.  In a block without carriage returns the return type holds
    no closing parenthesis; and a method whose line ends with a closing
    parenthesis, as every method with a result list in parentheses does, has
    the return type [void]. *)
Theorem parseInterfaceMethods_return_after_last_paren (blockText : str)
  (method : PropertyInfo) :
  Forall (fun ch => isChar CR ch = false) blockText ->
  In method (parseInterfaceMethods blockText) ->
  Forall (fun ch => isChar ")" ch = false) (p_type method) /\
  exists line,
    In line (interior (splitLines blockText)) /\
    startsWith (trim line) (p_name method) = true /\
    (endsWith (trim line) (L ")") = true -> p_type method = L "void").
Proof.
  unfold parseInterfaceMethods. intros NoCR H. apply in_flat_map in H as [line [Hl H]].
  destruct (negb (truthy (trim line)) || startsWith (trim line) (L "//")); [destruct H|].
  destruct (rxMatch R_interfaceMethod (trim line)) as [methodMatch|] eqn:M; [|destruct H].
  destruct H as [<-|[]]. cbn [p_name p_type orElse].
  assert (Dots : Forall (fun ch => isDot ch = true) (trim line)).
  { apply Forall_trim.
    pose proof (splitLines_noLF blockText) as F1.
    pose proof (Forall_splitLines NoCR) as F2. rewrite Forall_forall in F1, F2.
    apply In_interior in Hl. specialize (F1 _ Hl). specialize (F2 _ Hl).
    rewrite Forall_forall in *. intros ch Hch. apply isDot_no_terminator; auto. }
  pose proof (R_interfaceMethod_last_paren M Dots) as NoParen.
  apply R_interfaceMethod_shape in M
    as (nm & gap & params & gap2 & ret & E & _ & _ & _ & _ & _ & G1 & _ & G3).
  rewrite G1, G3 in *. split.
  - destruct ret as [|ch ret]; [|exact NoParen]. cbn [truthy]. now repeat constructor.
  - exists line. split; [exact Hl|]. split.
    + rewrite E. apply startsWith_app. eauto.
    + intros End. destruct ret as [|ch ret] using rev_ind; [reflexivity|exfalso].
      clear IHret. rewrite E in End. unfold endsWith in End.
      rewrite !app_assoc, rev_app_distr in End.
      change (rev (L ")")) with [")"%char] in End. cbn [rev app startsWith] in End.
      apply andb_true_iff in End as [End _].
      apply Forall_app in NoParen as [_ NoParen]. inversion NoParen; subst.
      unfold isChar in *. congruence.
Qed.

Lemma parseInterfaceMethods_return_after_last_paren_witness :
  Forall (fun ch => isChar CR ch = false)
    (text (captureBracedBlock (splitLines file_store) 2)) /\
  In {| p_name := L "GetDevice"; p_type := L "void"; p_optional := false;
        p_readonly := false; p_isMethod := true; p_isCallSignature := false;
        p_isIndexSignature := false;
        p_parameters := Some [L "id string) (*Device"; L "error"];
        p_returnType := Some (L "void") |}
     (parseInterfaceMethods (text (captureBracedBlock (splitLines file_store) 2))) /\
  Forall (fun ch => isChar ")" ch = false) (L "void").
Proof.
  assert (NoCR : Forall (fun ch => isChar CR ch = false)
                   (text (captureBracedBlock (splitLines file_store) 2))).
  { apply Forall_forall. intros ch H. vm_compute in H.
    repeat (destruct H as [<-|H]; [reflexivity|]). destruct H. }
  assert (H : In {| p_name := L "GetDevice"; p_type := L "void"; p_optional := false;
                    p_readonly := false; p_isMethod := true; p_isCallSignature := false;
                    p_isIndexSignature := false;
                    p_parameters := Some [L "id string) (*Device"; L "error"];
                    p_returnType := Some (L "void") |}
                (parseInterfaceMethods (text (captureBracedBlock (splitLines file_store) 2))))
    by (vm_compute; right; left; reflexivity).
  split; [exact NoCR|]. split; [exact H|].
  exact (proj1 (@parseInterfaceMethods_return_after_last_paren _ _ NoCR H)).
Defined.

(** ** The order of the declarations of a file *)

Lemma flat_map_nth_order (A B : Type) (f : A -> list B) (l : list A) :
  forall (i j : nat) (x y : B),
    nth_error (flat_map f l) i = Some x ->
    nth_error (flat_map f l) j = Some y ->
    i < j ->
    exists pa pb a b,
      nth_error l pa = Some a /\ nth_error l pb = Some b /\
      In x (f a) /\ In y (f b) /\
      (pa < pb \/ (pa = pb /\ 2 <= length (f a))).
Proof.
  induction l as [|a l IH]; intros i j x y Hx Hy Hij; cbn [flat_map] in *.
  - destruct i; discriminate Hx.
  - destruct (Nat.ltb_spec i (length (f a))) as [Li|Li].
    + rewrite nth_error_app1 in Hx by exact Li.
      destruct (Nat.ltb_spec j (length (f a))) as [Lj|Lj].
      * rewrite nth_error_app1 in Hy by exact Lj.
        exists 0, 0, a, a. repeat split; eauto using nth_error_In.
        right. split; [reflexivity|lia].
      * rewrite nth_error_app2 in Hy by exact Lj.
        assert (Iy : In y (flat_map f l)) by eauto using nth_error_In.
        apply in_flat_map in Iy as [b [Hb Iy]].
        apply In_nth_error in Hb as [pb Hb].
        exists 0, (S pb), a, b. repeat split; eauto using nth_error_In. left. lia.
    + rewrite nth_error_app2 in Hx by exact Li.
      rewrite nth_error_app2 in Hy by lia.
      destruct (IH _ _ _ _ Hx Hy) as (pa & pb & a' & b' & Ha & Hb & Ix & Iy & O); [lia|].
      exists (S pa), (S pb), a', b'. repeat split; auto. lia.
Qed.

Lemma blockDeclarations_kind (rf mn : str) (k : ExtractedKind) (docs : option str)
  (blockText : str) (d : ExtractedType) :
  In d (blockDeclarations rf mn k docs blockText) -> kind d = k.
Proof.
  unfold blockDeclarations. intros H. apply in_flat_map in H as [member [_ H]].
  destruct (negb _); [destruct H|]. now destruct H as [<-|[]].
Qed.

(** A turn that pushes a declaration that is neither a constant nor a
    variable pushes that one alone, with the number of its line. *)
Lemma scanLine_single (rf mn : str) (lines : list str) (index : nat) (d : ExtractedType) :
  In d (fst (scanLine rf mn lines index)) ->
  kind d <> K_const -> kind d <> K_variable ->
  length (fst (scanLine rf mn lines index)) = 1 /\ lineNumber d = Some (index + 1).
Proof.
  unfold scanLine. destruct_matches; cbn [fst]; intros H Nc Nv;
    try (destruct H as [<-|[]]; split; reflexivity);
    try (destruct H; fail);
    apply blockDeclarations_kind in H; congruence.
Qed.

(** X30: The declarations of a file that are neither constants nor variables come
    in the order of their lines: of two of them, the one that comes first in
    the result has the smaller line number. *)
Theorem declarations_in_file_order (rf content : str) (i j : nat) (d1 d2 : ExtractedType)
  (n1 n2 : nat) :
  nth_error (extractFromContent rf content) i = Some d1 ->
  nth_error (extractFromContent rf content) j = Some d2 ->
  i < j ->
  kind d1 <> K_const -> kind d1 <> K_variable ->
  kind d2 <> K_const -> kind d2 <> K_variable ->
  lineNumber d1 = Some n1 -> lineNumber d2 = Some n2 ->
  n1 < n2.
Proof.
  unfold extractFromContent, extractFromLines.
  set (lines := splitLines content). set (mn := getModuleName rf).
  change 0 with (turnIndex rf mn lines 0) at 1 2.
  rewrite scanLoop_turns by (simpl; lia).
  intros H1 H2 Hij C1 V1 C2 V2 L1 L2.
  destruct (@flat_map_nth_order _ _ _ _ _ _ _ _ H1 H2 Hij)
    as (pa & pb & a & b & Ha & Hb & I1 & I2 & O).
  assert (Seq : forall n p q, nth_error (seq 0 n) p = Some q -> q = p).
  { intros n p q Hq. assert (Lp : p < n).
    { rewrite <- (length_seq n 0). apply nth_error_Some. congruence. }
    apply nth_error_nth with (d := 0) in Hq. rewrite seq_nth in Hq by exact Lp. lia. }
  apply Seq in Ha, Hb. subst a b.
  destruct (turnIndex rf mn lines pa <? length lines); [|destruct I1].
  destruct (turnIndex rf mn lines pb <? length lines) eqn:Tb; [|destruct I2].
  destruct (@scanLine_single _ _ _ _ _ I1 C1 V1) as [S1 N1].
  destruct (@scanLine_single _ _ _ _ _ I2 C2 V2) as [S2 N2].
  destruct O as [O|[-> O]]; [|lia].
  pose proof (@turnIndex_mono rf mn lines pa pb O).
  rewrite L1 in N1. rewrite L2 in N2. injection N1 as ->. injection N2 as ->. lia.
Qed.

Lemma declarations_in_file_order_witness :
  exists d1,
    nth_error (extractFromContent (L "store/store.go") file_store) 0 = Some d1 /\
    nth_error (extractFromContent (L "store/store.go") file_store) 1 = Some d_newStore /\
    kind d1 = K_interface /\ lineNumber d1 = Some 3 /\ lineNumber d_newStore = Some 8 /\
    3 < 8.
Proof.
  destruct (nth_error (extractFromContent (L "store/store.go") file_store) 0)
    as [d1|] eqn:E1; [|vm_compute in E1; discriminate E1].
  assert (K : kind d1 = K_interface /\ lineNumber d1 = Some 3).
  { pose proof E1 as E'. vm_compute in E'. injection E' as <-. split; reflexivity. }
  destruct K as [K N].
  assert (E2 : nth_error (extractFromContent (L "store/store.go") file_store) 1
               = Some d_newStore) by (vm_compute; reflexivity).
  exists d1. split; [reflexivity|]. split; [exact E2|]. split; [exact K|].
  split; [exact N|]. split; [reflexivity|].
  apply (@declarations_in_file_order (L "store/store.go") file_store 0 1 d1 d_newStore 3 8
           E1 E2 Nat.lt_0_1); try (rewrite K; discriminate); try (cbn; discriminate);
    [exact N|reflexivity].
Defined.

(** ** C8: the ranking and the order of the input, continued *)

Lemma comesBefore_cons (A : Type) (a : A) (l : list A) (x y : A) :
  comesBefore l x y -> comesBefore (a :: l) x y.
Proof. intros (i & j & H & Hx & Hy). exists (S i), (S j). repeat split; auto. lia. Qed.

Lemma comesBefore_head (A : Type) (a : A) (l : list A) (y : A) :
  In y l -> comesBefore (a :: l) a y.
Proof.
  intros H. apply In_nth_error in H as [k H]. exists 0, (S k). repeat split; auto. lia.
Qed.

Lemma comesBefore_filter (A : Type) (p : A -> bool) (l : list A) (x y : A) :
  comesBefore (filter p l) x y -> comesBefore l x y.
Proof.
  induction l as [|a l IH]; cbn [filter]; [intros (i & j & _ & H & _); destruct i; discriminate|].
  destruct (p a); [|intros H; now apply comesBefore_cons, IH].
  intros (i & j & H & Hx & Hy). destruct j as [|j]; [lia|]. cbn [nth_error] in Hy.
  destruct i as [|i].
  - injection Hx as <-. apply comesBefore_head.
    apply nth_error_In in Hy. now apply filter_In in Hy.
  - apply comesBefore_cons, IH. exists i, j. repeat split; auto. lia.
Qed.

Lemma comesBefore_applyFilters (filters : SearchFilters) (l : list ExtractedType)
  (x y : ExtractedType) :
  comesBefore (applyFilters filters l) x y -> comesBefore l x y.
Proof.
  unfold applyFilters.
  destruct (f_kind filters); [intros H; apply comesBefore_filter in H|intros H];
    (destruct (f_module filters) as [m|]; [|exact H]);
    (destruct (truthy m); [now apply comesBefore_filter in H|exact H]).
Qed.

Section Stability.

Variable A : Type.
Variable cmp : A -> A -> Z.
Hypothesis cmp_anti : forall a b, (cmp a b < 0 <-> 0 < cmp b a)%Z.

(** Where [insertSorted] puts an element: after the elements that go
    strictly before it and before every other. *)
Lemma insertSorted_split (x : A) (l : list A) :
  exists n,
    n <= length l /\
    insertSorted cmp x l = firstn n l ++ x :: skipn n l /\
    Forall (fun z => (0 < cmp x z)%Z) (firstn n l).
Proof.
  induction l as [|y l (n & Hn & E & F)]; cbn [insertSorted].
  - exists 0. split; [reflexivity|]. split; [reflexivity|constructor].
  - destruct (Z.leb_spec (cmp x y) 0) as [L|G].
    + exists 0. split; [simpl; lia|]. split; [reflexivity|constructor].
    + exists (S n). cbn [firstn skipn app length]. rewrite E.
      split; [lia|]. split; [reflexivity|now constructor].
Qed.

Lemma nth_error_insert_at (n : nat) (s : list A) (a : A) (i : nat) :
  n <= length s ->
  nth_error (firstn n s ++ a :: skipn n s) i
  = if i <? n then nth_error s i
    else if i =? n then Some a else nth_error s (i - 1).
Proof.
  intros Hn. assert (Len : length (firstn n s) = n) by (rewrite length_firstn; lia).
  destruct (Nat.ltb_spec i n) as [L|G].
  - rewrite nth_error_app1 by lia. rewrite <- (firstn_skipn n s) at 2.
    now rewrite nth_error_app1 by lia.
  - rewrite nth_error_app2 by lia. rewrite Len.
    destruct (Nat.eqb_spec i n) as [->|N].
    + now rewrite Nat.sub_diag.
    + destruct (i - n) as [|k] eqn:K; [lia|]. cbn [nth_error].
      rewrite <- (firstn_skipn n s) at 2. rewrite nth_error_app2 by lia.
      rewrite Len. f_equal. lia.
Qed.

(** [Array.prototype.sort] is stable: two elements that the comparator does
    not tell apart come out in the order they went in. *)
Lemma sortBy_stable (l : list A) :
  forall (i j : nat) (x y : A),
    i < j ->
    nth_error (sortBy cmp l) i = Some x ->
    nth_error (sortBy cmp l) j = Some y ->
    cmp x y = 0%Z ->
    comesBefore l x y.
Proof.
  induction l as [|a l IH]; intros i j x y Hij Hx Hy T; cbn [sortBy fold_right] in Hx, Hy.
  - destruct i; discriminate Hx.
  - fold (sortBy cmp l) in Hx, Hy.
    destruct (insertSorted_split a (sortBy cmp l)) as (n & Hn & E & F).
    rewrite E in Hx, Hy. rewrite nth_error_insert_at in Hx, Hy by exact Hn.
    destruct (Nat.ltb_spec i n) as [Li|Gi].
    + destruct (Nat.ltb_spec j n) as [Lj|Gj].
      * apply comesBefore_cons. now apply (IH i j).
      * destruct (Nat.eqb_spec j n) as [->|Nj].
        -- injection Hy as <-. exfalso.
           assert (Ix : In x (firstn n (sortBy cmp l))).
           { apply nth_error_In with i.
             rewrite <- (firstn_skipn n (sortBy cmp l)) in Hx.
             rewrite nth_error_app1 in Hx by (rewrite length_firstn; lia). exact Hx. }
           rewrite Forall_forall in F. specialize (F x Ix).
           apply cmp_anti in F. lia.
        -- apply comesBefore_cons. apply (IH i (j - 1)); auto. lia.
    + destruct (Nat.eqb_spec i n) as [->|Ni].
      * injection Hx as <-.
        destruct (Nat.ltb_spec j n) as [Lj|Gj]; [lia|].
        destruct (Nat.eqb_spec j n) as [->|Nj]; [lia|].
        apply comesBefore_head. apply nth_error_In in Hy. now apply sortBy_In in Hy.
      * destruct (Nat.ltb_spec j n) as [Lj|Gj]; [lia|].
        destruct (Nat.eqb_spec j n) as [->|Nj]; [lia|].
        apply comesBefore_cons. apply (IH (i - 1) (j - 1)); auto. lia.
Qed.

End Stability.

(** C8, amended: for every fixed query, limit and filters, the sequence
    returned is identical for every permutation of the input order of the
    declarations, provided no two distinct candidates that the ranking keeps
    tie on both the score and the name (names that the collation compares
    equal); and in every case two entries of the result that tie on both stand
    in the order that their declarations have in the input. *)
Theorem searchByContext_input_order (localeCompare : str -> str -> Z)
  (all : list ExtractedType) (query : str) (limit : Z) (filters : SearchFilters) :
  ConsistentComparator localeCompare ->
  (forall all',
      Permutation all all' ->
      (forall x y,
          In x (applyFilters filters all) -> In y (applyFilters filters all) ->
          rankType (queryTerms query) x <> [] -> rankType (queryTerms query) y <> [] ->
          fst (tally (queryTerms query) x) = fst (tally (queryTerms query) y) ->
          localeCompare (name x) (name y) = 0%Z ->
          x = y) ->
      searchByContext localeCompare all query limit filters
      = searchByContext localeCompare all' query limit filters) /\
  (forall i j ex ey,
      i < j ->
      nth_error (searchByContext localeCompare all query limit filters) i = Some ex ->
      nth_error (searchByContext localeCompare all query limit filters) j = Some ey ->
      score ex = score ey ->
      localeCompare (name (r_type ex)) (name (r_type ey)) = 0%Z ->
      comesBefore all (r_type ex) (r_type ey)).
Proof.
  intros Hlc. set (terms := queryTerms query).
  assert (C : ConsistentComparator (compareRanked localeCompare)).
  { change (compareRanked localeCompare)
      with (lexCompare score (fun e => name (r_type e)) localeCompare).
    now apply lexCompare_consistent. }
  split.
  - intros all' P Distinct. unfold searchByContext. f_equal. fold terms.
    assert (PR : Permutation (flat_map (rankType terms) (applyFilters filters all))
                   (flat_map (rankType terms) (applyFilters filters all'))).
    { apply Permutation_flat_map, applyFilters_Permutation, P. }
    apply StronglySorted_unique
      with (R := fun x y => (compareRanked localeCompare x y <= 0)%Z).
    + now apply sortBy_sorted_cmp.
    + now apply sortBy_sorted_cmp.
    + rewrite !sortBy_perm. exact PR.
    + intros ex ey Hx Hy Lxy Lyx.
      apply sortBy_In, in_flat_map in Hx as [x [Ix Ex]].
      apply sortBy_In, in_flat_map in Hy as [y [Iy Ey]].
      assert (Rx : rankType terms x <> []) by (intros F; now rewrite F in Ex).
      assert (Ry : rankType terms y <> []) by (intros F; now rewrite F in Ey).
      apply rankType_entry in Ex as [-> _]. apply rankType_entry in Ey as [-> _].
      destruct Hlc as [Hanti _].
      unfold compareRanked in Lxy, Lyx. cbn [entryOf score r_type] in Lxy, Lyx.
      destruct (Z.eqb_spec (fst (tally terms y)) (fst (tally terms x))) as [E|E];
        destruct (Z.eqb_spec (fst (tally terms x)) (fst (tally terms y))) as [E'|E'];
        simpl in Lxy, Lyx; try lia.
      assert (Z0 : localeCompare (name x) (name y) = 0%Z).
      { pose proof (Hanti (name x) (name y)). pose proof (Hanti (name y) (name x)). lia. }
      now rewrite (Distinct x y Ix Iy Rx Ry E' Z0).
  - intros i j ex ey Hij Hx Hy Es En. unfold searchByContext, sliceMax1 in Hx, Hy.
    fold terms in Hx, Hy. apply nth_error_firstn_Some in Hx, Hy.
    assert (T : compareRanked localeCompare ex ey = 0%Z).
    { unfold compareRanked. rewrite Es, Z.eqb_refl. exact En. }
    destruct (@sortBy_stable _ _ (proj1 C) _ _ _ _ _ Hij Hx Hy T) as (i' & j' & Hij' & Hx' & Hy').
    destruct (@flat_map_nth_order _ _ _ _ _ _ _ _ Hx' Hy' Hij')
      as (pa & pb & a & b & Ha & Hb & Ia & Ib & O).
    destruct O as [O|[_ O]]; [|pose proof (rankType_length terms a); lia].
    apply rankType_entry in Ia as [-> _]. apply rankType_entry in Ib as [-> _].
    cbn [entryOf r_type]. apply comesBefore_applyFilters with filters.
    now exists pa, pb.
Qed.

(** The five declarations of [tree_small] in two orders, for the query
    [conn]: three are kept, with three different scores, and the two methods
    named [String] are not.  And the two methods named [String] for the query
    [string]: they tie, and come out as they went in. *)
Lemma searchByContext_input_order_witness :
  ConsistentComparator codeUnitCompare /\
  Permutation index_small (rev index_small) /\
  searchByContext codeUnitCompare index_small (L "conn") 20 noFilters
  = searchByContext codeUnitCompare (rev index_small) (L "conn") 20 noFilters /\
  comesBefore [d_string_msg; d_string_jid] d_string_msg d_string_jid.
Proof.
  pose proof (@searchByContext_input_order codeUnitCompare index_small (L "conn") 20%Z
                noFilters codeUnitCompare_consistent) as [Same _].
  pose proof (@searchByContext_input_order codeUnitCompare [d_string_msg; d_string_jid]
                (L "string") 20%Z noFilters codeUnitCompare_consistent) as [_ Stable].
  split; [exact codeUnitCompare_consistent|]. split; [apply Permutation_rev|]. split.
  - apply Same; [apply Permutation_rev|].
    intros x y Hx Hy. vm_compute in Hx, Hy.
    destruct Hx as [<-|[<-|[<-|[<-|[<-|[]]]]]], Hy as [<-|[<-|[<-|[<-|[<-|[]]]]]];
      vm_compute; intros R1 R2 E1 E2;
      first [reflexivity | discriminate | now contradiction R1 | now contradiction R2].
  - apply (Stable 0 1 (entryOf [L "string"] d_string_msg) (entryOf [L "string"] d_string_jid));
      [lia | vm_compute; reflexivity | vm_compute; reflexivity | reflexivity
       | vm_compute; reflexivity].
Defined.

(** ** C4: the methods of a contract, and the method shape *)



















